(** * Options market maker: quoting and hedging engine

    A shallow embedding of [options_quoter.py] and [libs.py].

    Conventions of the embedding.
    - Python [int] values are [Z]. A Python [float] is the rational
      number it denotes, and an operation on floats is the exact
      operation followed by one rounding, [rnd] of the interface
      [Rounding]: [binary64] rounds to the nearest number of 53
      significant bits, ties to even, with gradual underflow, as the
      machine does; [exact_arithmetic] does not round. Every tick
      rounding, exposure, hedge size and tested bound is computed this
      way, and properties hold for every rounding unless one is named.
      Infinities and NaN are not represented. The midpoint and the year
      fraction, which only reach the Black-Scholes functions, are kept
      as the exact quotients.
    - The exchange client is an interface ([Venue]); the engine is
      verified against every implementation of it.
    - The module [black_scholes] is not part of the sources; its
      functions are the fields of the interface [BlackScholes].
    - Effects (calls to the exchange, [print], [time.sleep], reading the
      clock, the module-level variable [theoretical_value], raised
      exceptions) are threaded through the monad [M]; the calls, the
      lines written and the sleeps are recorded in order in a trace.
    - [dt.datetime.now()] returns the next element of an arbitrary
      sequence of readings.
    - [while True] is cut after a given number of passes. *)

From Stdlib Require Import ZArith QArith Qround Qabs Qpower String List Lia Lqa.
From stdpp Require Import base gmap strings list.

Local Open Scope Z_scope.

(** ** Data model *)

Inductive OptionKind := CALL | PUT.

(** The value found in an [option_kind] argument: a member of the
    enumeration, or any other Python value. *)
Inductive kind_value :=
| Kind (k : OptionKind)
| OtherValue (repr : string).

Inductive Side := bid | ask.
Inductive OrderType := limit | ioc.

(** A Python number: [int] or [float]. *)
Inductive number :=
| PyInt (z : Z)
| PyFloat (q : Q).

(** [dt.datetime] (naive): microseconds since the start of the calendar. *)
Record datetime := { dt_micros : Z }.
(** [dt.timedelta]: a signed number of microseconds. *)
Record timedelta := { td_micros : Z }.

Definition datetime_sub (a b : datetime) : timedelta :=
  {| td_micros := dt_micros a - dt_micros b |}.

Definition timedelta_days (n : Z) : timedelta :=
  {| td_micros := n * 86400000000 |}.

(** [timedelta / timedelta] is the true quotient of the two durations. *)
Definition timedelta_truediv (a b : timedelta) : Q :=
  (inject_Z (td_micros a) / inject_Z (td_micros b))%Q.

Record PriceVolume := { price : Q; volume : Z }.
Record PriceBook := { bids : list PriceVolume; asks : list PriceVolume }.

Record TradeTick := { trade_volume : Z; trade_price : Q; trade_side : Side }.
Record OrderStatus := { order_side : Side; order_volume : Z; order_price : Q }.

Record Instrument := {
  expiry : datetime;
  strike : Q;
  option_kind : kind_value
}.

Inductive exn :=
| KeyError (key : string)
| IndexError
| AttributeError
| UnboundLocalError (var : string)
| NameError (var : string)
| ZeroDivisionError
| UnexpectedOptionKind (v : kind_value).

(** Lines written by [print], one constructor per statement. *)
Inductive Message :=
| MsgTraded (option_id : string) (t : TradeTick)
| MsgDeleting (option_id : string) (o : OrderStatus)
| MsgInsertingBid (option_id : string) (v : Z) (p : Q)
| MsgInsertingAsk (option_id : string) (v : Z) (p : Q)
| MsgOptionPosition (option_id : string) (position : Z)
| MsgOptionDelta (option_id : string) (d : Q)
| MsgDeltaPosition (option_id : string) (d : Q)
| MsgTotalDelta (d : Q)
| MsgStockPosition (stock_id : string) (position : Z)
| MsgDeltaHedgeImplemented
| MsgDeltaIsZero
| MsgGammaPosition (option_id : string) (g : Q)
| MsgTotalGamma (g : Q)
| MsgOptionVega (option_id : string) (v : Q)
| MsgVegaPosition (option_id : string) (v : Q)
| MsgTotalVega (v : Q)
| MsgBlank
| MsgRule
| MsgIterationEntered (t : datetime)
| MsgEmptyBook
| MsgUpdatingInstrument (option_id : string)
| MsgExpiry (t : datetime)
| MsgHedgingDelta
| MsgSleeping.

(** What the process does to the outside world, in order. *)
Inductive Event :=
| PollNewTrades (instrument_id : string)
| DeleteOrder (instrument_id : string) (order_id : Z)
| InsertOrder (instrument_id : string) (p : Q) (v : number)
              (s : Side) (t : OrderType)
| Print (m : Message)
| Sleep (seconds : Q).

(** ** Collaborators *)

(** The synchronous exchange client ([optibook]'s [Exchange]). *)
Class Venue (V : Type) := {
  get_last_price_book : V -> string -> option PriceBook;
  get_positions : V -> gmap string Z;
  get_outstanding_orders : V -> string -> list (Z * OrderStatus);
  poll_new_trades : V -> string -> list TradeTick * V;
  insert_order : V -> string -> Q -> number -> Side -> OrderType -> V;
  delete_order : V -> string -> Z -> V
}.

(** The functions imported from [black_scholes], arguments in the order
    [S K T r sigma]. *)
Class BlackScholes := {
  call_value : Q -> Q -> Q -> Q -> Q -> Q;
  put_value : Q -> Q -> Q -> Q -> Q -> Q;
  call_delta : Q -> Q -> Q -> Q -> Q -> Q;
  put_delta : Q -> Q -> Q -> Q -> Q -> Q;
  call_vega : Q -> Q -> Q -> Q -> Q -> Q;
  gamma : Q -> Q -> Q -> Q -> Q -> Q
}.

(** ** Floating point *)

(** The rounding applied to the exact result of an operation. *)
Class Rounding := { rnd : Q -> Q }.

(** What the proofs use of a rounding: it respects equality of
    rationals, is monotone, leaves a rounded number as it is, and keeps
    zero. *)
Class RoundingLaws (R : Rounding) : Prop := {
  rnd_proper : forall x y, (x == y)%Q -> (rnd x == rnd y)%Q;
  rnd_mono : forall x y, (x <= y)%Q -> (rnd x <= rnd y)%Q;
  rnd_idem : forall x, (rnd (rnd x) == rnd x)%Q;
  rnd_zero : (rnd 0 == 0)%Q
}.

(** The arithmetic of the real numbers. *)
Definition exact_arithmetic : Rounding := {| rnd := fun x => x |}.

(** [floor(log2 x)] for a positive [x]. *)
Definition Qlog2 (x : Q) : Z :=
  let k := Z.log2 (Qnum x) - Z.log2 (Zpos (Qden x)) in
  if Qle_bool (2 ^ k) x then k else k - 1.

(** The exponent of the binade of [x], not below that of the smallest
    normal number. *)
Definition binary64_exponent (x : Q) : Z := Z.max (Qlog2 (Qabs x)) (-1022).

(** The distance between neighbouring floats around [x]. *)
Definition ulp (x : Q) : Q := (2 ^ (binary64_exponent x - 52))%Q.

(** The nearest integer, ties to the even one. *)
Definition round_half_even (q : Q) : Z :=
  let f := Qfloor q in
  match (q - inject_Z f ?= 1 # 2)%Q with
  | Lt => f
  | Gt => f + 1
  | Eq => if Z.even f then f else f + 1
  end.

(** IEEE 754 binary64, round to nearest, ties to even. *)
Definition binary64_round (x : Q) : Q :=
  if Qeq_bool x 0 then 0%Q
  else (inject_Z (round_half_even (x / ulp x)) * ulp x)%Q.

Definition binary64 : Rounding := {| rnd := binary64_round |}.

(** ** Arithmetic of the Python operators *)

Definition Qlt_bool (x y : Q) : bool := negb (Qle_bool y x).

(** [int(x)] on a float: truncation towards zero. *)
Definition int_of (x : Q) : Z := Z.quot (Qnum x) (Zpos (Qden x)).

Section Float.

Context {R : Rounding}.

(** A float literal of the source, written in decimal. *)
Definition literal (q : Q) : Q := rnd q.

(** [float(z)], the conversion applied to an [int] operand. *)
Definition of_int (z : Z) : Q := rnd (inject_Z z).

Definition fadd (x y : Q) : Q := rnd (x + y).
Definition fsub (x y : Q) : Q := rnd (x - y).
Definition fmul (x y : Q) : Q := rnd (x * y).
Definition fdiv (x y : Q) : Q := rnd (x / y).

(** [a / b] on floats. *)
Definition truediv (a b : Q) : exn + Q :=
  if Qeq_bool b 0 then inl ZeroDivisionError else inr (fdiv a b).

End Float.

(** ** libs.py *)

Definition calculate_time_to_date (expiry_date current_time : datetime) : Q :=
  (timedelta_truediv (datetime_sub expiry_date current_time)
                     (timedelta_days 1) / 365)%Q.

(** ** Tick rounding *)

Section Ticks.

Context {R : Rounding}.

Definition round_down_to_tick (price tick_size : Q) : exn + Q :=
  match truediv price tick_size with
  | inl e => inl e
  | inr q => inr (fmul (of_int (Qfloor q)) tick_size)
  end.

Definition round_up_to_tick (price tick_size : Q) : exn + Q :=
  match truediv price tick_size with
  | inl e => inl e
  | inr q => inr (fmul (of_int (Qceiling q)) tick_size)
  end.

(** [x] divided by the tick and multiplied back, as the machine
    computes it: [x] up to two roundings. *)
Definition rescaled (x tick_size : Q) : Q := fmul (fdiv x tick_size) tick_size.

End Ticks.

(** ** The effect monad *)

Section Engine.

Context {R : Rounding} {V : Type} `{!Venue V} `{!BlackScholes}.

(** Successive readings of [dt.datetime.now()]. *)
Variable clock : nat -> datetime.

Record World := {
  venue : V;
  trace : list Event;
  clock_reads : nat;
  theoretical_value : option Q
}.

(** A computation transforms the world and returns a value or raises;
    what was done before an exception stays done. *)
Definition M (A : Type) : Type := World -> World * (exn + A).

Definition ret {A} (a : A) : M A := fun w => (w, inr a).

Definition raise {A} (e : exn) : M A := fun w => (w, inl e).

Definition bind {A B} (m : M A) (k : A -> M B) : M B :=
  fun w =>
    match m w with
    | (w', inr a) => k a w'
    | (w', inl e) => (w', inl e)
    end.

Definition lift {A} (r : exn + A) : M A := fun w => (w, r).

Notation "'do' x <- c1 ; c2" := (bind c1 (fun x => c2))
  (at level 10, x name, c1 at level 100, c2 at level 200).
Notation "'do' ' p <- c1 ; c2" := (bind c1 (fun x => let 'p := x in c2))
  (at level 10, p pattern, c1 at level 100, c2 at level 200).
Notation "c1 ;; c2" := (bind c1 (fun _ => c2))
  (at level 100, c2 at level 200, right associativity).

(** The state of the venue after an event. *)
Definition apply_event (e : Event) (v : V) : V :=
  match e with
  | PollNewTrades i => snd (poll_new_trades v i)
  | DeleteOrder i o => delete_order v i o
  | InsertOrder i p n s t => insert_order v i p n s t
  | Print _ => v
  | Sleep _ => v
  end.

Definition replay (evs : list Event) (v : V) : V :=
  fold_left (fun v e => apply_event e v) evs v.

Definition emit (e : Event) : M unit :=
  fun w => ({| venue := apply_event e (venue w);
               trace := trace w ++ [e];
               clock_reads := clock_reads w;
               theoretical_value := theoretical_value w |}, inr tt).

Definition print (m : Message) : M unit := emit (Print m).
Definition sleep (s : Q) : M unit := emit (Sleep s).

Definition now : M datetime :=
  fun w => ({| venue := venue w;
               trace := trace w;
               clock_reads := S (clock_reads w);
               theoretical_value := theoretical_value w |},
            inr (clock (clock_reads w))).

(** Reading and assigning the module-level name [theoretical_value]. *)
Definition global_theoretical_value : M Q :=
  fun w => (w, match theoretical_value w with
               | Some x => inr x
               | None => inl (NameError "theoretical_value")
               end).

Definition assign_theoretical_value (x : Q) : M unit :=
  fun w => ({| venue := venue w;
               trace := trace w;
               clock_reads := clock_reads w;
               theoretical_value := Some x |}, inr tt).

(** [exchange.*] *)
Definition exchange_get_last_price_book (i : string) : M (option PriceBook) :=
  fun w => (w, inr (get_last_price_book (venue w) i)).

Definition exchange_get_positions : M (gmap string Z) :=
  fun w => (w, inr (get_positions (venue w))).

Definition exchange_get_outstanding_orders (i : string)
  : M (list (Z * OrderStatus)) :=
  fun w => (w, inr (get_outstanding_orders (venue w) i)).

Definition exchange_poll_new_trades (i : string) : M (list TradeTick) :=
  fun w => (fst (emit (PollNewTrades i) w),
            inr (fst (poll_new_trades (venue w) i))).

Definition exchange_insert_order (i : string) (p : Q) (v : number)
    (s : Side) (t : OrderType) : M unit :=
  emit (InsertOrder i p v s t).

Definition exchange_delete_order (i : string) (o : Z) : M unit :=
  emit (DeleteOrder i o).

(** [d[k]] on a dict *)
Definition subscript (d : gmap string Z) (k : string) : M Z :=
  match d !! k with
  | Some x => ret x
  | None => raise (KeyError k)
  end.

(** [l[0]] on a list *)
Definition first_item {A} (l : list A) : M A :=
  match l with
  | x :: _ => ret x
  | [] => raise IndexError
  end.

(** Attribute access on a value that may be [None]. *)
Definition attribute {A B} (o : option A) (f : A -> B) : M B :=
  match o with
  | Some x => ret (f x)
  | None => raise AttributeError
  end.

(** A local name that is bound only once a loop body has run. *)
Definition local {A} (name : string) (o : option A) : M A :=
  match o with
  | Some x => ret x
  | None => raise (UnboundLocalError name)
  end.

(** [for x in l: body] *)
Fixpoint for_each {A} (l : list A) (body : A -> M unit) : M unit :=
  match l with
  | [] => ret tt
  | x :: l' => body x ;; for_each l' body
  end.

(** [for x in l: body], the body updating local variables [s]. *)
Fixpoint for_fold {A S} (l : list A) (s : S) (body : S -> A -> M S) : M S :=
  match l with
  | [] => ret s
  | x :: l' => do s' <- body s x; for_fold l' s' body
  end.

(** ** libs.py, continued *)

Definition calculate_current_time_to_date (expiry_date : datetime) : M Q :=
  do now' <- now;
  ret (calculate_time_to_date expiry_date now').

(** ** options_quoter.py *)

Definition get_midpoint_value (instrument_id : string) : M (option Q) :=
  do order_book <- exchange_get_last_price_book instrument_id;
  match order_book with
  | Some {| bids := b :: _; asks := a :: _ |} =>
      ret (Some ((price b + price a) / 2)%Q)
  | _ => ret None
  end.

Definition calculate_theoretical_option_value (expiry : datetime)
    (strike : Q) (option_kind : kind_value)
    (stock_value interest_rate volatility : Q) : M Q :=
  do time_to_expiry <- calculate_current_time_to_date expiry;
  match option_kind with
  | Kind CALL =>
      ret (call_value stock_value strike time_to_expiry interest_rate volatility)
  | Kind PUT =>
      ret (put_value stock_value strike time_to_expiry interest_rate volatility)
  | OtherValue _ => raise (UnboundLocalError "option_value")
  end.

Definition calculate_option_delta (expiry_date : datetime)
    (strike : Q) (option_kind : kind_value)
    (stock_value interest_rate volatility : Q) : M Q :=
  do time_to_expiry <- calculate_current_time_to_date expiry_date;
  match option_kind with
  | Kind CALL =>
      ret (call_delta stock_value strike time_to_expiry interest_rate volatility)
  | Kind PUT =>
      ret (put_delta stock_value strike time_to_expiry interest_rate volatility)
  | OtherValue _ => raise (UnexpectedOptionKind option_kind)
  end.

(** The first half of [update_quotes]: report the new trades, then pull
    every outstanding order. *)
Definition pull_quotes (option_id : string) : M unit :=
  do trades <- exchange_poll_new_trades option_id;
  for_each trades (fun trade => print (MsgTraded option_id trade)) ;;
  do orders <- exchange_get_outstanding_orders option_id;
  for_each orders (fun '(order_id, order) =>
    print (MsgDeleting option_id order) ;;
    exchange_delete_order option_id order_id).

Definition update_quotes (option_id : string) (theoretical_price credit : Q)
    (volume position_limit : Z) (tick_size : Q) : M unit :=
  pull_quotes option_id ;;
  do bid_price <-
    lift (round_down_to_tick (fsub theoretical_price credit) tick_size);
  do ask_price <-
    lift (round_up_to_tick (fadd theoretical_price credit) tick_size);
  do positions <- exchange_get_positions;
  do position <- subscript positions option_id;
  let max_volume_to_buy := position_limit - position in
  let max_volume_to_sell := position_limit + position in
  let bid_volume := Z.min volume max_volume_to_buy in
  let ask_volume := Z.min volume max_volume_to_sell in
  (if 0 <? bid_volume then
     print (MsgInsertingBid option_id bid_volume bid_price) ;;
     exchange_insert_order option_id bid_price (PyInt bid_volume) bid limit
   else ret tt) ;;
  (if 0 <? ask_volume then
     print (MsgInsertingAsk option_id ask_volume ask_price) ;;
     exchange_insert_order option_id ask_price (PyInt ask_volume) ask limit
   else ret tt).

(** The constants passed at every pricing call of the hedging code. *)
Definition interest_rate : Q := 3 # 100.
Definition volatility : Q := 3.

(** The local variables of the aggregation loops: the running total and
    the loop variable [option], unbound until the body has run once. *)
Definition loop_locals : Type := Q * option Instrument.

Definition hedge_delta_position (stock_id : string)
    (options : list (string * Instrument)) (stock_value : Q) : M unit :=
  do positions <- exchange_get_positions;
  do stock_position0 <- subscript positions stock_id;
  do '(Total_aggregate_delta_position, option) <-
    for_fold options (inject_Z stock_position0, None)
      (fun (locals : loop_locals) '(option_id, option) =>
         let Total_aggregate_delta_position := fst locals in
         do position <- subscript positions option_id;
         print (MsgOptionPosition option_id position) ;;
         do BS_delta <- calculate_option_delta (expiry option) (strike option)
                          (option_kind option) stock_value
                          interest_rate volatility;
         print (MsgOptionDelta option_id BS_delta) ;;
         let Delta_position := fmul BS_delta (of_int position) in
         print (MsgDeltaPosition option_id Delta_position) ;;
         let Total_aggregate_delta_position :=
           fadd Total_aggregate_delta_position Delta_position in
         print (MsgTotalDelta Total_aggregate_delta_position) ;;
         ret (Total_aggregate_delta_position, Some option));
  do stock_position <- subscript positions stock_id;
  print (MsgStockPosition stock_id stock_position) ;;
  do p <- subscript positions stock_id;
  do option <- local "option" option;
  do d <- calculate_option_delta (expiry option) (strike option)
            (option_kind option) stock_value interest_rate volatility;
  let number_of_stocks := fmul (of_int (-1 * p)) d in
  do stock_order_book <- exchange_get_last_price_book stock_id;
  do book_bids <- attribute stock_order_book bids;
  do best_bid <- first_item book_bids;
  let best_bid_price := price best_bid in
  do book_asks <- attribute stock_order_book asks;
  do best_ask <- first_item book_asks;
  let best_ask_price := price best_ask in
  if Qlt_bool Total_aggregate_delta_position 0 then
    do p <- subscript positions stock_id;
    let x := fsub (of_int (Z.abs p)) number_of_stocks in
    let n_o_s := if Qle_bool 1 x && Qle_bool x 100
                 then number_of_stocks else 0%Q in
    exchange_insert_order stock_id best_ask_price
      (PyInt (-1 * int_of n_o_s)) bid ioc ;;
    print MsgDeltaHedgeImplemented
  else if Qlt_bool 0 Total_aggregate_delta_position then
    do p <- subscript positions stock_id;
    let x := fadd (of_int p) number_of_stocks in
    let n_o_s := if Qle_bool 1 x && Qle_bool x 100
                 then number_of_stocks else 0%Q in
    exchange_insert_order stock_id best_bid_price
      (PyInt (-1 * int_of n_o_s)) ask ioc ;;
    print MsgDeltaHedgeImplemented
  else
    print MsgDeltaIsZero.

Definition hedge_gamma_position (stock_id : string)
    (options : list (string * Instrument)) (stock_value : Q) : M unit :=
  hedge_delta_position stock_id options stock_value ;;
  do positions <- exchange_get_positions;
  do stock_position0 <- subscript positions stock_id;
  do '(Total_aggregate_gamma_position, _) <-
    for_fold options (inject_Z stock_position0, None)
      (fun (locals : loop_locals) '(option_id, option) =>
         let Total_aggregate_gamma_position := fst locals in
         do position <- subscript positions option_id;
         print (MsgOptionPosition option_id position) ;;
         do theoretical_value <- global_theoretical_value;
         do time_to_expiry <- calculate_current_time_to_date (expiry option);
         let BS_gamma := gamma theoretical_value (strike option)
                           time_to_expiry interest_rate volatility in
         let Gamma_position := fmul BS_gamma (of_int position) in
         print (MsgGammaPosition option_id Gamma_position) ;;
         let Total_aggregate_gamma_position :=
           fadd Total_aggregate_gamma_position Gamma_position in
         print (MsgTotalGamma Total_aggregate_gamma_position) ;;
         ret (Total_aggregate_gamma_position, Some option));
  do stock_position <- subscript positions stock_id;
  print (MsgStockPosition stock_id stock_position) ;;
  for_each options (fun '(option_id, option) =>
    do theoretical_value <- global_theoretical_value;
    do time_to_expiry <- calculate_current_time_to_date (expiry option);
    do num_additional_options <-
      lift (truediv Total_aggregate_gamma_position
              (gamma theoretical_value (strike option) time_to_expiry
                 interest_rate volatility));
    do stock_order_book <- exchange_get_last_price_book stock_id;
    do book_bids <- attribute stock_order_book bids;
    do best_bid <- first_item book_bids;
    do book_asks <- attribute stock_order_book asks;
    do best_ask <- first_item book_asks;
    let best_ask_price := price best_ask in
    exchange_insert_order option_id best_ask_price
      (PyFloat num_additional_options) ask limit) ;;
  hedge_delta_position stock_id options stock_value.

Definition hedge_vega_position (stock_id : string)
    (options : list (string * Instrument)) (stock_value : Q) : M unit :=
  do positions <- exchange_get_positions;
  do stock_position0 <- subscript positions stock_id;
  do '(Total_aggregate_vega_position, option) <-
    for_fold options (inject_Z stock_position0, None)
      (fun (locals : loop_locals) '(option_id, option) =>
         let Total_aggregate_vega_position := fst locals in
         do position <- subscript positions option_id;
         print (MsgOptionPosition option_id position) ;;
         do theoretical_value <- global_theoretical_value;
         do time_to_expiry <- calculate_current_time_to_date (expiry option);
         let BS_vega := call_vega theoretical_value (strike option)
                          time_to_expiry interest_rate volatility in
         print (MsgOptionVega option_id BS_vega) ;;
         let Vega_position := fmul BS_vega (of_int position) in
         print (MsgVegaPosition option_id Vega_position) ;;
         let Total_aggregate_vega_position :=
           fadd Total_aggregate_vega_position Vega_position in
         print (MsgTotalVega Total_aggregate_vega_position) ;;
         ret (Total_aggregate_vega_position, Some option));
  do stock_position <- subscript positions stock_id;
  print (MsgStockPosition stock_id stock_position) ;;
  do p <- subscript positions stock_id;
  do option <- local "option" option;
  do d <- calculate_option_delta (expiry option) (strike option)
            (option_kind option) stock_value interest_rate volatility;
  let positions := fmul (of_int (-1 * p)) d in
  ret tt.

(** One pass through the body of [while True]. *)
Definition trade_loop_iteration (STOCK_ID : string)
    (options : list (string * Instrument)) : M unit :=
  print MsgBlank ;;
  print MsgRule ;;
  do entered <- now;
  print (MsgIterationEntered entered) ;;
  print MsgRule ;;
  do stock_value <- get_midpoint_value STOCK_ID;
  match stock_value with
  | None =>
      print MsgEmptyBook ;;
      sleep 4
  | Some stock_value =>
      for_each options (fun '(option_id, option) =>
        print (MsgUpdatingInstrument option_id) ;;
        do value <- calculate_theoretical_option_value (expiry option)
                      (strike option) (option_kind option) stock_value
                      (3 # 100) 3;
        assign_theoretical_value value ;;
        print (MsgExpiry (expiry option)) ;;
        do time_to_expiry <- calculate_current_time_to_date (expiry option);
        update_quotes option_id value
          (call_vega value (strike option) time_to_expiry (3 # 100) 3)
          5 100 (literal (1 # 10)) ;;
        sleep (1 # 5)) ;;
      print MsgHedgingDelta ;;
      hedge_gamma_position STOCK_ID options stock_value ;;
      print MsgSleeping ;;
      sleep 4
  end.

(** [while True], cut after [n] passes; an exception ends the loop. *)
Fixpoint trade_loop (n : nat) (STOCK_ID : string)
    (options : list (string * Instrument)) : M unit :=
  match n with
  | O => ret tt
  | S n' =>
      trade_loop_iteration STOCK_ID options ;;
      trade_loop n' STOCK_ID options
  end.

(** ** Observations on runs *)

(** The world after the events [evs] and [k] readings of the clock. *)
Definition advance (w : World) (evs : list Event) (k : nat) : World :=
  {| venue := replay evs (venue w);
     trace := trace w ++ evs;
     clock_reads := k + clock_reads w;
     theoretical_value := theoretical_value w |}.

Definition is_order (e : Event) : bool :=
  match e with InsertOrder _ _ _ _ _ => true | _ => false end.

Definition is_print (e : Event) : bool :=
  match e with Print _ => true | _ => false end.

(** Events that leave the venue as it is. *)
Definition is_silent (e : Event) : bool :=
  match e with Print _ | Sleep _ => true | _ => false end.


Definition not_order (e : Event) : bool := negb (is_order e).

(** The orders submitted among a list of events, in order. *)
Fixpoint orders_in (evs : list Event) : list Event :=
  match evs with
  | [] => []
  | e :: evs' => if is_order e then e :: orders_in evs' else orders_in evs'
  end.

(** [w'] is reached from [w] by events that all satisfy [P]. *)
Definition extends (P : Event -> bool) (w w' : World) : Prop :=
  exists evs, trace w' = trace w ++ evs
              /\ venue w' = replay evs (venue w)
              /\ Forall (fun e => P e = true) evs.

Definition emitting (P : Event -> bool) {A} (m : M A) : Prop :=
  forall w, extends P w (fst (m w)).

(** ** The quantities the hedging code aggregates *)

Definition time_to_expiry_at (n : nat) (o : Instrument) : Q :=
  calculate_time_to_date (expiry o) (clock n).

(** Black-Scholes delta of an option priced at the [n]-th clock reading. *)
Definition BS_delta_at (stock_value : Q) (n : nat) (o : Instrument)
  : option Q :=
  match option_kind o with
  | Kind CALL => Some (call_delta stock_value (strike o)
                         (time_to_expiry_at n o) interest_rate volatility)
  | Kind PUT => Some (put_delta stock_value (strike o)
                        (time_to_expiry_at n o) interest_rate volatility)
  | OtherValue _ => None
  end.

Definition BS_gamma_at (S0 : Q) (n : nat) (o : Instrument) : option Q :=
  Some (gamma S0 (strike o) (time_to_expiry_at n o) interest_rate volatility).

Definition BS_vega_at (S0 : Q) (n : nat) (o : Instrument) : option Q :=
  Some (call_vega S0 (strike o) (time_to_expiry_at n o)
          interest_rate volatility).

(** [total] plus the sum over the chain of greek times position, the
    options priced at successive clock readings from the [n]-th on. *)
Fixpoint exposure (greek : nat -> Instrument -> option Q)
    (positions : gmap string Z) (n : nat) (total : Q)
    (options : list (string * Instrument)) : option Q :=
  match options with
  | [] => Some total
  | (option_id, o) :: rest =>
      match positions !! option_id, greek n o with
      | Some position, Some g =>
          exposure greek positions (S n)
            (fadd total (fmul g (of_int position))) rest
      | _, _ => None
      end
  end.

(** The value of the loop variable [option] once the loop over the
    chain has ended. *)
Fixpoint last_bound (bound : option Instrument)
    (options : list (string * Instrument)) : option Instrument :=
  match options with
  | [] => bound
  | (_, o) :: rest => last_bound (Some o) rest
  end.

(** The hypothetical hedge size [H]. *)
Definition hedge_size (stock_position : Z) (d : Q) : Q :=
  fmul (of_int (-1 * stock_position)) d.

(** The bound tested before buying, and before selling, the stock. *)
Definition buy_clamp (stock_position : Z) (H : Q) : bool :=
  Qle_bool 1 (fsub (of_int (Z.abs stock_position)) H)
  && Qle_bool (fsub (of_int (Z.abs stock_position)) H) 100.

Definition sell_clamp (stock_position : Z) (H : Q) : bool :=
  Qle_bool 1 (fadd (of_int stock_position) H)
  && Qle_bool (fadd (of_int stock_position) H) 100.

(** The second half of [update_quotes]: what is written and submitted
    for the prices and volumes computed. *)
Definition quote_events (option_id : string) (bid_price ask_price : Q)
    (bid_volume ask_volume : Z) : list Event :=
  (if 0 <? bid_volume then
     [Print (MsgInsertingBid option_id bid_volume bid_price);
      InsertOrder option_id bid_price (PyInt bid_volume) bid limit]
   else [])
  ++
  (if 0 <? ask_volume then
     [Print (MsgInsertingAsk option_id ask_volume ask_price);
      InsertOrder option_id ask_price (PyInt ask_volume) ask limit]
   else []).

(** What the last step of the delta hedge does, for the aggregate delta
    [total] and the hedge size [H]. *)
Definition hedge_events (stock_id : string) (stock_position : Z)
    (total H best_bid best_ask : Q) : list Event :=
  if Qlt_bool total 0 then
    [InsertOrder stock_id best_ask
       (PyInt (-1 * int_of (if buy_clamp stock_position H then H else 0%Q)))
       bid ioc;
     Print MsgDeltaHedgeImplemented]
  else if Qlt_bool 0 total then
    [InsertOrder stock_id best_bid
       (PyInt (-1 * int_of (if sell_clamp stock_position H then H else 0%Q)))
       ask ioc;
     Print MsgDeltaHedgeImplemented]
  else [Print MsgDeltaIsZero].

Definition best_ask_price (v : V) (stock_id : string) : option Q :=
  match get_last_price_book v stock_id with
  | Some {| bids := _ :: _; asks := a :: _ |} => Some (price a)
  | _ => None
  end.

Definition best_bid_price (v : V) (stock_id : string) : option Q :=
  match get_last_price_book v stock_id with
  | Some {| bids := b :: _; asks := _ :: _ |} => Some (price b)
  | _ => None
  end.

(** The sell orders of the gamma stage for the exposure [G], from the
    venue state [v] and the [n]-th clock reading on; [None] when one of
    them cannot be formed. *)
Fixpoint gamma_sells (stock_id : string) (G S0 : Q) (n : nat) (v : V)
    (options : list (string * Instrument)) : option (list Event) :=
  match options with
  | [] => Some []
  | (option_id, o) :: rest =>
      let g := gamma S0 (strike o) (time_to_expiry_at n o)
                 interest_rate volatility in
      if Qeq_bool g 0 then None
      else
        match best_ask_price v stock_id with
        | Some a =>
            let e := InsertOrder option_id a (PyFloat (fdiv G g)) ask limit in
            match gamma_sells stock_id G S0 (S n) (apply_event e v) rest with
            | Some evs => Some (e :: evs)
            | None => None
            end
        | None => None
        end
  end.


(** What the first half of [update_quotes] does, for the trades polled
    and the orders found outstanding. *)
Definition pull_events (option_id : string) (trades : list TradeTick)
    (orders : list (Z * OrderStatus)) : list Event :=
  PollNewTrades option_id
  :: map (fun trade => Print (MsgTraded option_id trade)) trades
  ++ flat_map (fun '(order_id, order) =>
                 [Print (MsgDeleting option_id order);
                  DeleteOrder option_id order_id]) orders.


Definition is_cancel (e : Event) : bool :=
  match e with DeleteOrder _ _ => true | _ => false end.


(** A computation that submits nothing, or a single immediate-or-cancel
    order for a whole number of lots on [stock_id] and then returns. *)
Definition submits_at_most_one (stock_id : string) {A} (m : M A) : Prop :=
  forall w, exists new,
    trace (fst (m w)) = trace w ++ new
    /\ (orders_in new = []
        \/ exists p v s,
             orders_in new = [InsertOrder stock_id p (PyInt v) s ioc]
             /\ exists a, snd (m w) = inr a).

(** The exceptions the aggregation loop of the delta hedge can raise. *)
Definition chain_fault (positions : gmap string Z) (e : exn) : Prop :=
  (exists id, e = KeyError id /\ positions !! id = None)
  \/ (exists r, e = UnexpectedOptionKind (OtherValue r)).


(** What a pass through the loop body does when no midpoint is
    available, entered at the clock reading [entered]. *)
Definition idle_pass (entered : datetime) : list Event :=
  [Print MsgBlank; Print MsgRule; Print (MsgIterationEntered entered);
   Print MsgRule; Print MsgEmptyBook; Sleep 4].

(** [n] such passes in a row, from the [k]-th clock reading on. *)
Fixpoint idle_passes (n k : nat) : list Event :=
  match n with
  | O => []
  | S n' => idle_pass (clock k) ++ idle_passes n' (S k)
  end.

(** No midpoint can be formed from this book. *)
Definition no_midpoint (book : option PriceBook) : Prop :=
  book = None \/ exists b, book = Some b /\ (bids b = [] \/ asks b = []).


(** [i] is the identifier of an instrument of the chain. *)
Definition on_chain (options : list (string * Instrument)) (i : string)
  : bool :=
  existsb (fun x => String.eqb i (fst x)) options.

(** The price of a limit order for a whole number of lots is a whole
    number of ticks, multiplied out as the machine does. *)
Definition quoted_on_grid (tick : Q) (e : Event) : Prop :=
  match e with
  | InsertOrder _ p (PyInt _) _ limit => exists k, p = fmul (of_int k) tick
  | _ => True
  end.

Definition not_whole_limit_order (e : Event) : bool :=
  match e with
  | InsertOrder _ _ (PyInt _) _ limit => false
  | _ => true
  end.

(** A computation all of whose events satisfy [Q]. *)
Definition emits (Q : Event -> Prop) {A} (m : M A) : Prop :=
  forall w, exists evs,
    trace (fst (m w)) = trace w ++ evs /\ List.Forall Q evs.

(** What a pass through the loop body may do to the venue: poll, cancel
    and quote on the instruments of the chain, quotes being limit orders
    for 1 to 5 lots; sell options of the chain
    with limit orders of fractional size; trade the underlying with
    immediate-or-cancel orders for whole lots. *)
Definition pass_event (STOCK_ID : string)
    (options : list (string * Instrument)) (e : Event) : bool :=
  match e with
  | PollNewTrades i | DeleteOrder i _ => on_chain options i
  | InsertOrder i p (PyInt v) _ limit =>
      on_chain options i && (0 <? v) && (v <=? 5)
  | InsertOrder i _ (PyFloat _) ask limit => on_chain options i
  | InsertOrder i _ (PyInt _) _ ioc => String.eqb i STOCK_ID
  | InsertOrder _ _ (PyFloat _) _ _ => false
  | Print _ | Sleep _ => true
  end.


(** Events of the quoting part of a pass: anything but the banner of
    the hedging phase and immediate-or-cancel orders. *)
Definition before_hedging (e : Event) : bool :=
  match e with
  | Print MsgHedgingDelta => false
  | InsertOrder _ _ _ _ ioc => false
  | _ => true
  end.

End Engine.

Arguments World : clear implicits.

(** ** Loading the instruments *)

(** The type [InstrumentType] of the exchange client: the engine
    compares it with [STOCK_OPTION] and with nothing else, so every
    other type is kept by its name. *)
Inductive InstrumentType :=
  | STOCK_OPTION
  | OtherInstrumentType (name : string).

(** An instrument as the exchange lists it: its type, the underlying it
    refers to (for an option), and the contract terms the engine
    reads. *)
Record ListedInstrument := {
  instrument_type : InstrumentType;
  base_instrument_id : option string;
  details : Instrument
}.

(** [exchange.get_instruments()]: a dict, in its iteration order. *)
Class Listing (V : Type) := {
  get_instruments : V -> list (string * ListedInstrument)
}.

(** [d[k]] on such a dict *)
Fixpoint getitem {A} (d : list (string * A)) (k : string) : option A :=
  match d with
  | [] => None
  | (k', x) :: d' => if String.eqb k k' then Some x else getitem d' k
  end.

Definition is_option_on (underlying_stock_id : string)
    (instrument : ListedInstrument) : bool :=
  match instrument_type instrument with
  | STOCK_OPTION =>
      match base_instrument_id instrument with
      | Some base => String.eqb base underlying_stock_id
      | None => false
      end
  | OtherInstrumentType _ => false
  end.

Section Loading.

Context {V : Type} `{!Listing V}.

Definition exchange_get_instruments
  : M (V:=V) (list (string * ListedInstrument)) :=
  fun w => (w, inr (get_instruments (venue w))).

Definition load_instruments_for_underlying (underlying_stock_id : string)
  : M (V:=V) (ListedInstrument * list (string * ListedInstrument)) :=
  bind exchange_get_instruments (fun all_instruments =>
  bind (match getitem all_instruments underlying_stock_id with
        | Some instrument => ret instrument
        | None => raise (KeyError underlying_stock_id)
        end) (fun stock =>
  let options :=
    List.filter (fun x => is_option_on underlying_stock_id (snd x))
      all_instruments in
  ret (stock, options))).

End Loading.

(** ** A paper venue and flat greeks, to run the engine on *)

Module Paper.

#[local] Existing Instance exact_arithmetic.

Record state := {
  positions : gmap string Z;
  books : gmap string PriceBook;
  resting : list (string * (Z * OrderStatus));
  fresh_trades : list (string * TradeTick);
  next_order_id : Z
}.

Definition lots (v : number) : Z :=
  match v with PyInt z => z | PyFloat q => int_of q end.

Definition of_instrument {A} (i : string) (l : list (string * A)) : list A :=
  map snd (List.filter (fun x => String.eqb (fst x) i) l).

Definition not_instrument {A} (i : string) (l : list (string * A))
  : list (string * A) :=
  List.filter (fun x => negb (String.eqb (fst x) i)) l.

(** Limit orders rest; immediate-or-cancel orders fill in full. *)
Definition insert (s : state) (i : string) (p : Q) (v : number)
    (sd : Side) (t : OrderType) : state :=
  match t with
  | limit =>
      {| positions := positions s;
         books := books s;
         resting := resting s ++
           [(i, (next_order_id s,
                 {| order_side := sd; order_volume := lots v;
                    order_price := p |}))];
         fresh_trades := fresh_trades s;
         next_order_id := next_order_id s + 1 |}
  | ioc =>
      let held := default 0 (positions s !! i) in
      let held' := match sd with
                   | bid => held + lots v
                   | ask => held - lots v
                   end in
      {| positions := <[i := held']> (positions s);
         books := books s;
         resting := resting s;
         fresh_trades := fresh_trades s ++
           [(i, {| trade_volume := lots v; trade_price := p;
                   trade_side := sd |})];
         next_order_id := next_order_id s |}
  end.

Definition delete (s : state) (i : string) (o : Z) : state :=
  {| positions := positions s;
     books := books s;
     resting := List.filter
       (fun x => negb (String.eqb (fst x) i && (fst (snd x) =? o))) (resting s);
     fresh_trades := fresh_trades s;
     next_order_id := next_order_id s |}.

Definition poll (s : state) (i : string) : list TradeTick * state :=
  (of_instrument i (fresh_trades s),
   {| positions := positions s;
      books := books s;
      resting := resting s;
      fresh_trades := not_instrument i (fresh_trades s);
      next_order_id := next_order_id s |}).

#[export] Instance paper_venue : Venue state := {|
  get_last_price_book s i := books s !! i;
  get_positions := positions;
  get_outstanding_orders s i := of_instrument i (resting s);
  poll_new_trades := poll;
  insert_order := insert;
  delete_order := delete
|}.

(** Greeks that do not depend on their arguments. *)
Definition flat : BlackScholes := {|
  call_value S K T r sigma := (S / 10)%Q;
  put_value S K T r sigma := (K / 10)%Q;
  call_delta S K T r sigma := 4 # 5;
  put_delta S K T r sigma := (- (1 # 5))%Q;
  call_vega S K T r sigma := 1 # 4;
  gamma S K T r sigma := 1 # 50
|}.

(** A clock that advances one second per reading. *)
Definition clock (n : nat) : datetime :=
  {| dt_micros := 63800000000000000 + Z.of_nat n * 1000000 |}.

Definition level (p : Q) (v : Z) : PriceVolume := {| price := p; volume := v |}.

Definition call_option : Instrument :=
  {| expiry := {| dt_micros := 63802592000000000 |};
     strike := 100;
     option_kind := Kind CALL |}.

Definition put_option : Instrument :=
  {| expiry := {| dt_micros := 63802592000000000 |};
     strike := 90;
     option_kind := Kind PUT |}.

Definition chain : list (string * Instrument) :=
  [("NVDA_C100", call_option); ("NVDA_P90", put_option)].

Definition nvda_book : PriceBook :=
  {| bids := [level 99 10; level 98 20]; asks := [level 101 10] |}.

Definition short_stock : gmap string Z :=
  {[ "NVDA" := -60; "NVDA_C100" := 10; "NVDA_P90" := 5 ]}.

Definition near_limit : gmap string Z :=
  {[ "NVDA" := 7; "NVDA_C100" := 98; "NVDA_P90" := 0 ]}.

Definition two_sided : gmap string PriceBook := {[ "NVDA" := nvda_book ]}.

Definition no_bids : gmap string PriceBook :=
  {[ "NVDA" := {| bids := []; asks := [level 101 10] |} ]}.

Definition start (held : gmap string Z) (b : gmap string PriceBook)
    (value : option Q) : World state :=
  {| venue := {| positions := held; books := b; resting := [];
                 fresh_trades := []; next_order_id := 1 |};
     trace := [];
     clock_reads := 0;
     theoretical_value := value |}.

(** Short 60 shares, long both options, a two-sided book. *)
Definition short_world : World state :=
  start short_stock two_sided (Some 10%Q).

(** Long 90 shares and flat in the one call of the chain. *)
Definition long_stock_world : World state :=
  start {[ "NVDA" := 90; "NVDA_C100" := 0 ]} two_sided None.

(** Short 90 shares, long both options. *)
Definition deep_short_world : World state :=
  start {[ "NVDA" := -90; "NVDA_C100" := 10; "NVDA_P90" := 5 ]}
    two_sided (Some 10%Q).

Definition near_limit_world : World state :=
  start near_limit two_sided None.

Definition no_bids_world : World state :=
  start near_limit no_bids None.


Definition listed (t : InstrumentType) (base : option string)
    (terms : Instrument) : ListedInstrument :=
  {| instrument_type := t; base_instrument_id := base; details := terms |}.

(** What the paper venue lists: two underlyings and three options. *)
Definition listing : list (string * ListedInstrument) :=
  [("NVDA", listed (OtherInstrumentType "STOCK") None call_option);
   ("NVDA_C100", listed STOCK_OPTION (Some "NVDA") call_option);
   ("AMD_C50", listed STOCK_OPTION (Some "AMD") call_option);
   ("AMD", listed (OtherInstrumentType "STOCK") None put_option);
   ("NVDA_P90", listed STOCK_OPTION (Some "NVDA") put_option)].

#[export] Instance paper_listing : Listing state := {|
  get_instruments _ := listing
|}.


(** Flat in the stock, long both options. *)
Definition flat_stock_world : World state :=
  start {[ "NVDA" := 0; "NVDA_C100" := 10; "NVDA_P90" := 5 ]}
    two_sided (Some 10%Q).

(** At the long limit in the call. *)
Definition at_limit_world : World state :=
  start {[ "NVDA" := 7; "NVDA_C100" := 100 ]} two_sided None.

(** No position entry for the call. *)
Definition unquoted_world : World state :=
  start {[ "NVDA" := 7 ]} two_sided None.

(** The call quoted once: a bid and an ask are resting. *)
Definition quoted_world : World state :=
  fst (update_quotes "NVDA_C100" (5237 # 100) (12 # 10) 5 100 (1 # 10)
         near_limit_world).

(** Short 60 shares on a book without bids. *)
Definition short_no_bids_world : World state :=
  start short_stock no_bids (Some 10%Q).

(** A chain whose last instrument has no option kind. *)
Definition kindless : Instrument :=
  {| expiry := {| dt_micros := 63802592000000000 |};
     strike := 95;
     option_kind := OtherValue "None" |}.

Definition odd_chain : list (string * Instrument) :=
  [("NVDA_C100", call_option); ("NVDA_X95", kindless)].

Definition odd_world : World state :=
  start {[ "NVDA" := -60; "NVDA_C100" := 10; "NVDA_X95" := 3 ]}
    two_sided (Some 10%Q).

(** Greeks as in [flat], except a gamma of zero at the strike 90. *)
Definition kinked : BlackScholes := {|
  call_value S K T r sigma := (S / 10)%Q;
  put_value S K T r sigma := (K / 10)%Q;
  call_delta S K T r sigma := 4 # 5;
  put_delta S K T r sigma := (- (1 # 5))%Q;
  call_vega S K T r sigma := 1 # 4;
  gamma S K T r sigma := if Qeq_bool K 90 then 0%Q else 1 # 50
|}.

(** The double nearest to a decimal. *)
Definition double (q : Q) : Q := binary64_round q.

(** Greeks that are doubles: a call delta, a put delta, and a gamma that
    varies with the price it is evaluated at, [1 / S]. *)
Definition greeks (call_d put_d : Q) : BlackScholes := {|
  call_value S K T r sigma := double (S / 10);
  put_value S K T r sigma := double (K / 10);
  call_delta S K T r sigma := call_d;
  put_delta S K T r sigma := put_d;
  call_vega S K T r sigma := double (1 # 4);
  gamma S K T r sigma := double (1 / S)
|}.

Definition steep : BlackScholes := greeks (double (4 # 5)) (- double (1 # 5)).
Definition skewed : BlackScholes := greeks (double (2 # 5)) (- double (3 # 5)).

Definition put_first : list (string * Instrument) :=
  [("NVDA_P90", put_option); ("NVDA_C100", call_option)].

(** Long 18 shares and 18 puts, short 18 calls: with deltas of -0.6 and
    0.4 the exposures cancel on paper. *)
Definition balanced_world : World state :=
  start {[ "NVDA" := 18; "NVDA_P90" := 18; "NVDA_C100" := -18 ]}
    two_sided (Some 10%Q).

(** Short 60 shares and long 10 calls. *)
Definition short_call_world : World state :=
  start {[ "NVDA" := -60; "NVDA_C100" := 10 ]} two_sided (Some 10%Q).

End Paper.

(** ** Properties of the roundings *)

Section Binary64.

Local Open Scope Q_scope.

Lemma two_nonzero : ~ (2 == 0)%Q.
Proof. discriminate. Qed.

Lemma pow2_pos k : 0 < 2 ^ k.
Proof. apply Qpower_0_lt. reflexivity. Qed.

Lemma pow2_succ k : 2 ^ (k + 1) == 2 * 2 ^ k.
Proof. rewrite Qpower_plus by exact two_nonzero. simpl. ring. Qed.

Lemma pow2_le j k : (j <= k)%Z -> 2 ^ j <= 2 ^ k.
Proof. intros H. apply Qpower_le_compat_l; [exact H | discriminate]. Qed.

Lemma pow2_lt j k : (j < k)%Z -> 2 ^ j < 2 ^ k.
Proof. intros H. apply Qpower_lt_compat_l; [exact H | reflexivity]. Qed.

Lemma pow2_lt_inv j k : 2 ^ j < 2 ^ k -> (j < k)%Z.
Proof. intros H. apply (Qpower_lt_compat_l_inv 2); [exact H | reflexivity]. Qed.

(** The binade of a positive number is determined by its value. *)
Lemma binade_unique x j k :
  2 ^ j <= x -> x < 2 ^ (j + 1) -> 2 ^ k <= x -> x < 2 ^ (k + 1) -> j = k.
Proof.
  intros Hj1 Hj2 Hk1 Hk2.
  assert (H1 : (j < k + 1)%Z) by (apply pow2_lt_inv; lra).
  assert (H2 : (k < j + 1)%Z) by (apply pow2_lt_inv; lra).
  lia.
Qed.

Lemma Qlog2_spec x : 0 < x -> 2 ^ Qlog2 x <= x /\ x < 2 ^ (Qlog2 x + 1).
Proof.
  intros Hx. destruct x as [n d]. unfold Qlog2. cbn [Qnum Qden].
  assert (Hn : (0 < n)%Z) by (unfold Qlt in Hx; simpl in Hx; lia).
  set (a := Z.log2 n). set (b := Z.log2 (Zpos d)).
  destruct (Z.log2_spec n Hn) as [Ha1 Ha2]. fold a in Ha1, Ha2.
  destruct (Z.log2_spec (Zpos d) eq_refl) as [Hb1 Hb2]. fold b in Hb1, Hb2.
  assert (Ha0 : (0 <= a)%Z) by apply Z.log2_nonneg.
  assert (Hb0 : (0 <= b)%Z) by apply Z.log2_nonneg.
  assert (HA : inject_Z (2 ^ a) == 2 ^ a) by (now apply Zpower_Qpower).
  assert (HB : inject_Z (2 ^ b) == 2 ^ b) by (now apply Zpower_Qpower).
  rewrite Zle_Qle in Ha1, Hb1. rewrite Zlt_Qlt in Ha2, Hb2.
  rewrite Z.pow_succ_r, inject_Z_mult in Ha2, Hb2 by assumption.
  rewrite HA in Ha1, Ha2. rewrite HB in Hb1, Hb2.
  change (inject_Z 2) with 2 in *.
  assert (Hx' : n # d == inject_Z n / inject_Z (Zpos d)) by apply Qmake_Qdiv.
  set (N := inject_Z n) in *. set (D := inject_Z (Zpos d)) in *.
  pose proof (pow2_pos a) as HpA. pose proof (pow2_pos b) as HpB.
  assert (HD : 0 < D) by lra.
  assert (Hk : 2 ^ (a - b) == 2 ^ a / 2 ^ b)
    by (apply Qpower_minus; exact two_nonzero).
  assert (HKB : 2 ^ (a - b) * 2 ^ b == 2 ^ a) by (rewrite Hk; field; lra).
  assert (HK' : 2 ^ (a - b) == 2 * 2 ^ (a - b - 1)).
  { rewrite <- pow2_succ. now replace (a - b - 1 + 1)%Z with (a - b)%Z by lia. }
  pose proof (pow2_pos (a - b)) as HpK.
  assert (HKD : 2 ^ (a - b) * 2 ^ b <= 2 ^ (a - b) * D)
    by (apply Qmult_le_l; assumption).
  assert (HKD' : 2 ^ (a - b) * D < 2 ^ (a - b) * (2 * 2 ^ b))
    by (apply Qmult_lt_l; assumption).
  assert (Hup : n # d < 2 ^ (a - b + 1)).
  { rewrite pow2_succ, Hx'. apply Qlt_shift_div_r; [exact HD |]. lra. }
  assert (Hlo : 2 ^ (a - b - 1) < n # d).
  { rewrite Hx'. apply Qlt_shift_div_l; [exact HD |].
    assert (E : 2 ^ (a - b) * D == 2 * (2 ^ (a - b - 1) * D))
      by (rewrite HK'; ring).
    assert (E2 : 2 ^ (a - b) * (2 * 2 ^ b) == 2 * (2 ^ (a - b) * 2 ^ b)) by ring.
    lra. }
  destruct (Qle_bool (2 ^ (a - b)) (n # d)) eqn:E.
  - apply Qle_bool_iff in E. split; [exact E | exact Hup].
  - assert (Hlt : n # d < 2 ^ (a - b)).
    { apply Qnot_le_lt. intros Hle. apply Qle_bool_iff in Hle. congruence. }
    replace (a - b - 1 + 1)%Z with (a - b)%Z by lia.
    split; [lra | exact Hlt].
Qed.

Lemma Qlog2_unique x k : 2 ^ k <= x -> x < 2 ^ (k + 1) -> Qlog2 x = k.
Proof.
  intros H1 H2.
  assert (Hx : 0 < x) by (pose proof (pow2_pos k); lra).
  destruct (Qlog2_spec x Hx) as [H3 H4].
  exact (binade_unique x _ _ H3 H4 H1 H2).
Qed.

Lemma Qlog2_proper x y : 0 < x -> x == y -> Qlog2 x = Qlog2 y.
Proof.
  intros Hx E. destruct (Qlog2_spec x Hx) as [H1 H2].
  symmetry. apply Qlog2_unique; rewrite <- E; assumption.
Qed.

Lemma Qlog2_mono x y : 0 < x -> x <= y -> (Qlog2 x <= Qlog2 y)%Z.
Proof.
  intros Hx Hxy.
  destruct (Qlog2_spec x Hx) as [H1 _].
  destruct (Qlog2_spec y ltac:(lra)) as [_ H2].
  assert (H : (Qlog2 x < Qlog2 y + 1)%Z) by (apply pow2_lt_inv; lra).
  lia.
Qed.

(** *** The exponent and the unit in the last place *)

Lemma exponent_min x : (-1022 <= binary64_exponent x)%Z.
Proof. unfold binary64_exponent. lia. Qed.

Lemma Qabs_positive x : ~ x == 0 -> 0 < Qabs x.
Proof.
  intros Hx. destruct (Qlt_le_dec 0 x) as [H | H].
  - rewrite Qabs_pos; lra.
  - rewrite Qabs_neg by exact H.
    destruct (Qeq_dec x 0); [contradiction | lra].
Qed.

Lemma exponent_proper x y :
  ~ x == 0 -> x == y -> binary64_exponent x = binary64_exponent y.
Proof.
  intros Hx E. unfold binary64_exponent. f_equal.
  apply Qlog2_proper; [now apply Qabs_positive | now rewrite E].
Qed.

Lemma exponent_mono x y :
  ~ x == 0 -> Qabs x <= Qabs y ->
  (binary64_exponent x <= binary64_exponent y)%Z.
Proof.
  intros Hx Hxy. unfold binary64_exponent.
  pose proof (Qlog2_mono _ _ (Qabs_positive x Hx) Hxy). lia.
Qed.

Lemma exponent_upper x : ~ x == 0 -> Qabs x < 2 ^ (binary64_exponent x + 1).
Proof.
  intros Hx. destruct (Qlog2_spec _ (Qabs_positive x Hx)) as [_ H].
  eapply Qlt_le_trans; [exact H |].
  apply pow2_le. unfold binary64_exponent. lia.
Qed.

(** A number is normal when its binade is within the exponent range. *)
Lemma exponent_lower x :
  ~ x == 0 -> (-1022 <= Qlog2 (Qabs x))%Z -> 2 ^ binary64_exponent x <= Qabs x.
Proof.
  intros Hx Hn. destruct (Qlog2_spec _ (Qabs_positive x Hx)) as [H _].
  unfold binary64_exponent. now rewrite Z.max_l by exact Hn.
Qed.

Lemma exponent_normal x y :
  (binary64_exponent x < binary64_exponent y)%Z ->
  (-1022 <= Qlog2 (Qabs y))%Z.
Proof. unfold binary64_exponent. lia. Qed.

Lemma ulp_pos x : 0 < ulp x.
Proof. apply pow2_pos. Qed.

Lemma pow2_53 : 2 ^ 53 == inject_Z 9007199254740992.
Proof. reflexivity. Qed.

Lemma pow2_52 : 2 ^ 52 == inject_Z 4503599627370496.
Proof. reflexivity. Qed.

Lemma ulp_scale_53 x : 2 ^ (binary64_exponent x + 1) == 2 ^ 53 * ulp x.
Proof.
  unfold ulp. rewrite <- Qpower_plus by exact two_nonzero.
  now replace (53 + (binary64_exponent x - 52))%Z
    with (binary64_exponent x + 1)%Z by lia.
Qed.

Lemma ulp_scale_52 x : 2 ^ binary64_exponent x == 2 ^ 52 * ulp x.
Proof.
  unfold ulp. rewrite <- Qpower_plus by exact two_nonzero.
  now replace (52 + (binary64_exponent x - 52))%Z
    with (binary64_exponent x) by lia.
Qed.

(** *** Rounding to the nearest integer, ties to even *)

Lemma round_half_even_bounds q :
  (Qfloor q <= round_half_even q <= Qfloor q + 1)%Z.
Proof.
  unfold round_half_even.
  destruct (q - inject_Z (Qfloor q) ?= 1 # 2); [destruct (Z.even _) | |]; lia.
Qed.

Lemma round_half_even_Z n : round_half_even (inject_Z n) = n.
Proof.
  unfold round_half_even. rewrite Qfloor_Z.
  assert (H : (inject_Z n - inject_Z n ?= 1 # 2) = Lt)
    by (rewrite <- Qlt_alt; lra).
  now rewrite H.
Qed.

Lemma round_half_even_proper p q :
  p == q -> round_half_even p = round_half_even q.
Proof.
  intros E. unfold round_half_even.
  rewrite (Qfloor_comp _ _ E).
  assert (E' : p - inject_Z (Qfloor q) == q - inject_Z (Qfloor q))
    by (rewrite E; reflexivity).
  now rewrite (Qcompare_comp _ _ E' (1 # 2) (1 # 2) (Qeq_refl _)).
Qed.

Lemma round_half_even_mono p q :
  p <= q -> (round_half_even p <= round_half_even q)%Z.
Proof.
  intros Hpq.
  pose proof (Qfloor_resp_le _ _ Hpq) as Hf.
  pose proof (round_half_even_bounds p) as Hp.
  pose proof (round_half_even_bounds q) as Hq.
  destruct (Z.eq_dec (Qfloor p) (Qfloor q)) as [E | NE]; [| lia].
  unfold round_half_even in *. rewrite E in *.
  set (f := Qfloor q) in *.
  destruct (p - inject_Z f ?= 1 # 2) eqn:Cp;
    destruct (q - inject_Z f ?= 1 # 2) eqn:Cq;
    try lia;
    try rewrite <- Qeq_alt in Cp; try rewrite <- Qlt_alt in Cp;
    try rewrite <- Qgt_alt in Cp;
    try rewrite <- Qeq_alt in Cq; try rewrite <- Qlt_alt in Cq;
    try rewrite <- Qgt_alt in Cq;
    try (exfalso; lra); destruct (Z.even f); lia.
Qed.

Lemma round_half_even_le q n : q <= inject_Z n -> (round_half_even q <= n)%Z.
Proof.
  intros H. rewrite <- (round_half_even_Z n). now apply round_half_even_mono.
Qed.

Lemma round_half_even_ge q n : inject_Z n <= q -> (n <= round_half_even q)%Z.
Proof.
  intros H. rewrite <- (round_half_even_Z n). now apply round_half_even_mono.
Qed.

Lemma Qfloor_unique y z :
  inject_Z z <= y -> y < inject_Z (z + 1) -> Qfloor y = z.
Proof.
  intros H1 H2.
  pose proof (Qfloor_le y) as H3. pose proof (Qlt_floor y) as H4.
  assert (Ha : (Qfloor y < z + 1)%Z) by (rewrite Zlt_Qlt; lra).
  assert (Hb : (z < Qfloor y + 1)%Z) by (rewrite Zlt_Qlt; lra).
  lia.
Qed.

Lemma round_half_even_opp q : round_half_even (- q) = (- round_half_even q)%Z.
Proof.
  pose proof (Qfloor_le q) as Hlo. pose proof (Qlt_floor q) as Hhi.
  rewrite inject_Z_plus in Hhi. change (inject_Z 1) with 1 in Hhi.
  set (f := Qfloor q) in *.
  destruct (Qeq_dec q (inject_Z f)) as [E | NE].
  - assert (E' : - q == inject_Z (- f)) by (rewrite inject_Z_opp, E; reflexivity).
    rewrite (round_half_even_proper _ _ E'), (round_half_even_proper _ _ E).
    now rewrite !round_half_even_Z.
  - assert (Hf : Qfloor (- q) = (- f - 1)%Z).
    { apply Qfloor_unique.
      - unfold Z.sub. rewrite inject_Z_plus, inject_Z_opp.
        change (inject_Z (- (1))) with (- (1)). lra.
      - replace (- f - 1 + 1)%Z with (- f)%Z by lia.
        rewrite inject_Z_opp.
        destruct (Qlt_le_dec (inject_Z f) q); [lra |].
        exfalso. apply NE. lra. }
    assert (Hi : inject_Z (- f - 1) == - inject_Z f - 1).
    { unfold Z.sub. rewrite inject_Z_plus, inject_Z_opp. reflexivity. }
    unfold round_half_even. rewrite Hf. fold f.
    destruct (q - inject_Z f ?= 1 # 2) eqn:C.
    + rewrite <- Qeq_alt in C.
      assert (C' : (- q - inject_Z (- f - 1) ?= 1 # 2) = Eq)
        by (rewrite <- Qeq_alt, Hi; lra).
      rewrite C'.
      replace (- f - 1)%Z with (- (f + 1))%Z by lia.
      rewrite Z.even_opp, Z.even_add. simpl.
      destruct (Z.even f); simpl; lia.
    + rewrite <- Qlt_alt in C.
      assert (C' : (- q - inject_Z (- f - 1) ?= 1 # 2) = Gt)
        by (rewrite <- Qgt_alt, Hi; lra).
      rewrite C'. lia.
    + rewrite <- Qgt_alt in C.
      assert (C' : (- q - inject_Z (- f - 1) ?= 1 # 2) = Lt)
        by (rewrite <- Qlt_alt, Hi; lra).
      rewrite C'. lia.
Qed.

(** *** Rounding to binary64 *)

Lemma binary64_round_zero x : x == 0 -> binary64_round x = 0.
Proof.
  intros E. unfold binary64_round. apply Qeq_bool_iff in E. now rewrite E.
Qed.

Lemma binary64_round_nonzero x :
  ~ x == 0 ->
  binary64_round x = inject_Z (round_half_even (x / ulp x)) * ulp x.
Proof.
  intros NE. unfold binary64_round.
  destruct (Qeq_bool x 0) eqn:E; [| reflexivity].
  apply Qeq_bool_iff in E. contradiction.
Qed.

Lemma ulp_proper x y : ~ x == 0 -> x == y -> ulp x = ulp y.
Proof. intros NE E. unfold ulp. now rewrite (exponent_proper x y NE E). Qed.

Lemma binary64_round_proper x y :
  x == y -> binary64_round x == binary64_round y.
Proof.
  intros E. destruct (Qeq_dec x 0) as [E0 | NE].
  - rewrite (binary64_round_zero x E0), (binary64_round_zero y); [reflexivity |].
    now rewrite <- E.
  - assert (NE' : ~ y == 0) by (now rewrite <- E).
    rewrite (binary64_round_nonzero x NE), (binary64_round_nonzero y NE').
    rewrite <- (ulp_proper x y NE E).
    assert (Es : x / ulp x == y / ulp x)
      by (unfold Qdiv; apply Qmult_comp; [exact E | reflexivity]).
    now rewrite (round_half_even_proper _ _ Es).
Qed.

Lemma binary64_round_opp x : binary64_round (- x) == - binary64_round x.
Proof.
  destruct (Qeq_dec x 0) as [E0 | NE].
  - rewrite (binary64_round_zero x E0), (binary64_round_zero (- x)); lra.
  - assert (NE' : ~ - x == 0) by (intros E; apply NE; lra).
    rewrite (binary64_round_nonzero x NE), (binary64_round_nonzero _ NE').
    assert (Eu : ulp (- x) = ulp x).
    { unfold ulp, binary64_exponent. do 3 f_equal.
      apply Qlog2_proper; [now apply Qabs_positive | apply Qabs_opp]. }
    rewrite Eu.
    assert (Es : - x / ulp x == - (x / ulp x))
      by (field; pose proof (ulp_pos x); lra).
    rewrite (round_half_even_proper _ _ Es), round_half_even_opp.
    rewrite inject_Z_opp. ring.
Qed.

(** Where a positive number lands. *)
Lemma binary64_round_range x :
  0 < x ->
  0 <= binary64_round x
  /\ binary64_round x <= 2 ^ (binary64_exponent x + 1)
  /\ ((-1022 <= Qlog2 (Qabs x))%Z -> 2 ^ binary64_exponent x <= binary64_round x).
Proof.
  intros Hx.
  assert (NE : ~ x == 0) by lra.
  pose proof (ulp_pos x) as Hu.
  pose proof (exponent_upper x NE) as Hup.
  rewrite Qabs_pos in Hup by lra.
  rewrite (binary64_round_nonzero x NE).
  set (s := x / ulp x).
  assert (Hs : s * ulp x == x) by (unfold s; field; lra).
  assert (Hs0 : 0 <= s) by (unfold s; apply Qle_shift_div_l; lra).
  assert (Hs1 : s <= inject_Z 9007199254740992).
  { unfold s. apply Qle_shift_div_r; [exact Hu |].
    rewrite <- pow2_53, <- ulp_scale_53. lra. }
  pose proof (round_half_even_ge s 0 Hs0) as Hn0.
  pose proof (round_half_even_le s _ Hs1) as Hn1.
  rewrite Zle_Qle in Hn0, Hn1. change (inject_Z 0) with 0 in Hn0.
  split; [| split].
  - apply Qmult_le_0_compat; lra.
  - rewrite ulp_scale_53, pow2_53. apply Qmult_le_compat_r; lra.
  - intros Hnormal.
    pose proof (exponent_lower x NE Hnormal) as Hlow.
    rewrite Qabs_pos in Hlow by lra.
    assert (Hs2 : inject_Z 4503599627370496 <= s).
    { unfold s. apply Qle_shift_div_l; [exact Hu |].
      rewrite <- pow2_52, <- ulp_scale_52. exact Hlow. }
    pose proof (round_half_even_ge s _ Hs2) as Hn2. rewrite Zle_Qle in Hn2.
    rewrite ulp_scale_52, pow2_52. apply Qmult_le_compat_r; lra.
Qed.

Lemma binary64_round_mono_pos x y :
  0 < x -> x <= y -> binary64_round x <= binary64_round y.
Proof.
  intros Hx Hxy.
  assert (NEx : ~ x == 0) by lra. assert (NEy : ~ y == 0) by lra.
  assert (He : (binary64_exponent x <= binary64_exponent y)%Z).
  { apply exponent_mono; [exact NEx |]. rewrite !Qabs_pos; lra. }
  destruct (Z.eq_dec (binary64_exponent x) (binary64_exponent y)) as [E | NE].
  - rewrite (binary64_round_nonzero x NEx), (binary64_round_nonzero y NEy).
    assert (Eu : ulp y = ulp x) by (unfold ulp; now rewrite E).
    rewrite Eu. pose proof (ulp_pos x) as Hu.
    apply Qmult_le_compat_r; [| lra].
    rewrite <- Zle_Qle. apply round_half_even_mono.
    apply Qmult_le_compat_r; [exact Hxy |].
    apply Qinv_le_0_compat. lra.
  - assert (Hlt : (binary64_exponent x < binary64_exponent y)%Z) by lia.
    destruct (binary64_round_range x Hx) as (_ & Hxu & _).
    destruct (binary64_round_range y ltac:(lra)) as (_ & _ & Hyl).
    specialize (Hyl (exponent_normal x y Hlt)).
    pose proof (pow2_le (binary64_exponent x + 1) (binary64_exponent y)
                  ltac:(lia)).
    lra.
Qed.

Lemma binary64_round_mono x y :
  x <= y -> binary64_round x <= binary64_round y.
Proof.
  intros Hxy.
  assert (Hpos : forall z, 0 < z -> 0 <= binary64_round z)
    by (intros z Hz; now destruct (binary64_round_range z Hz)).
  assert (Hneg : forall z, z < 0 -> binary64_round z <= 0).
  { intros z Hz. specialize (Hpos (- z) ltac:(lra)).
    rewrite binary64_round_opp in Hpos. lra. }
  destruct (Qlt_le_dec 0 x) as [Hx | Hx].
  - now apply binary64_round_mono_pos.
  - destruct (Qlt_le_dec y 0) as [Hy | Hy].
    + assert (H : binary64_round (- y) <= binary64_round (- x))
        by (apply binary64_round_mono_pos; lra).
      rewrite !binary64_round_opp in H. lra.
    + assert (Hx' : binary64_round x <= 0).
      { destruct (Qeq_dec x 0) as [E | NE].
        - rewrite (binary64_round_zero x E). lra.
        - apply Hneg. lra. }
      assert (Hy' : 0 <= binary64_round y).
      { destruct (Qeq_dec y 0) as [E | NE].
        - rewrite (binary64_round_zero y E). lra.
        - apply Hpos. lra. }
      lra.
Qed.

Lemma exponent_of_range r e :
  (-1022 <= e)%Z -> 0 < r -> r < 2 ^ (e + 1) ->
  (e = (-1022)%Z \/ 2 ^ e <= r) ->
  binary64_exponent r = e.
Proof.
  intros He Hr Hup Hlow. unfold binary64_exponent.
  assert (Ea : Qabs r == r) by (apply Qabs_pos; lra).
  assert (Hl : Qlog2 (Qabs r) = Qlog2 r)
    by (apply Qlog2_proper; [rewrite Ea; exact Hr | exact Ea]).
  rewrite Hl.
  destruct (Qlog2_spec r Hr) as [H1 H2].
  assert (Hle : (Qlog2 r < e + 1)%Z) by (apply pow2_lt_inv; lra).
  destruct Hlow as [-> | Hlow]; [lia |].
  assert (Hge : (e < Qlog2 r + 1)%Z) by (apply pow2_lt_inv; lra).
  lia.
Qed.

Lemma binary64_round_idem_pos x :
  0 < x -> binary64_round (binary64_round x) == binary64_round x.
Proof.
  intros Hx.
  assert (NE : ~ x == 0) by lra.
  pose proof (ulp_pos x) as Hu.
  pose proof (exponent_min x) as Hmin.
  destruct (binary64_round_range x Hx) as (Hr0 & Hrup & Hrlow).
  rewrite (binary64_round_nonzero x NE) in *.
  set (N := round_half_even (x / ulp x)) in *.
  set (e := binary64_exponent x) in *.
  assert (HN0 : (0 <= N)%Z).
  { rewrite Zle_Qle. change (inject_Z 0) with 0.
    apply (Qmult_le_r _ _ (ulp x) Hu). lra. }
  assert (HN1 : (N <= 9007199254740992)%Z).
  { rewrite Zle_Qle. apply (Qmult_le_r _ _ (ulp x) Hu).
    rewrite <- pow2_53, <- ulp_scale_53. exact Hrup. }
  destruct (Z.eq_dec N 0%Z) as [E0 | NE0].
  { rewrite E0. rewrite (binary64_round_zero (inject_Z 0 * ulp x)); ring. }
  assert (Hr : 0 < inject_Z N * ulp x).
  { apply Qmult_lt_0_compat; [| exact Hu].
    change 0 with (inject_Z 0). rewrite <- Zlt_Qlt. lia. }
  destruct (Z.eq_dec N 9007199254740992%Z) as [Etop | NEtop].
  - assert (Er : inject_Z N * ulp x == 2 ^ (e + 1))
      by (rewrite Etop; unfold e; rewrite ulp_scale_53, pow2_53; reflexivity).
    assert (Ee : binary64_exponent (inject_Z N * ulp x) = (e + 1)%Z).
    { apply exponent_of_range; [lia | exact Hr | | right; lra].
      rewrite Er. apply pow2_lt. lia. }
    rewrite (binary64_round_nonzero (inject_Z N * ulp x)) by lra.
    assert (Eu : ulp (inject_Z N * ulp x) == 2 * ulp x).
    { unfold ulp at 1. rewrite Ee. unfold ulp. fold e.
      replace (e + 1 - 52)%Z with (e - 52 + 1)%Z by lia. apply pow2_succ. }
    assert (Es : inject_Z N * ulp x / ulp (inject_Z N * ulp x)
                 == inject_Z 4503599627370496).
    { rewrite Eu, Etop. field. lra. }
    rewrite (round_half_even_proper _ _ Es), round_half_even_Z.
    rewrite Eu, Etop. ring.
  - assert (Hlt : inject_Z N * ulp x < 2 ^ (e + 1)).
    { unfold e. rewrite ulp_scale_53, pow2_53.
      apply Qmult_lt_r; [exact Hu |]. rewrite <- Zlt_Qlt. lia. }
    assert (Ee : binary64_exponent (inject_Z N * ulp x) = e).
    { apply exponent_of_range; [exact Hmin | exact Hr | exact Hlt |].
      destruct (Z_le_dec (-1022) (Qlog2 (Qabs x))) as [Hn | Hs].
      - right. apply Hrlow. exact Hn.
      - left. unfold e, binary64_exponent. lia. }
    rewrite (binary64_round_nonzero (inject_Z N * ulp x)) by lra.
    assert (Eu : ulp (inject_Z N * ulp x) = ulp x)
      by (unfold ulp at 1; now rewrite Ee).
    rewrite Eu.
    assert (Es : inject_Z N * ulp x / ulp x == inject_Z N) by (field; lra).
    now rewrite (round_half_even_proper _ _ Es), round_half_even_Z.
Qed.

Lemma binary64_round_idem x :
  binary64_round (binary64_round x) == binary64_round x.
Proof.
  destruct (Qlt_le_dec 0 x) as [Hx | Hx].
  - now apply binary64_round_idem_pos.
  - destruct (Qeq_dec x 0) as [E | NE].
    + rewrite (binary64_round_zero x E). reflexivity.
    + assert (Hn : 0 < - x) by lra.
      pose proof (binary64_round_idem_pos (- x) Hn) as H.
      pose proof (binary64_round_opp x) as Ho.
      rewrite (binary64_round_proper _ _ Ho) in H.
      rewrite binary64_round_opp in H. lra.
Qed.

Lemma binary64_laws : RoundingLaws binary64.
Proof.
  split.
  - exact binary64_round_proper.
  - exact binary64_round_mono.
  - exact binary64_round_idem.
  - reflexivity.
Qed.

Lemma exact_arithmetic_laws : RoundingLaws exact_arithmetic.
Proof. split; simpl; intros; (assumption || reflexivity). Qed.

End Binary64.

(** ** Properties *)

Section Properties.

Context {R : Rounding} {L : RoundingLaws R}.
Context {V : Type} `{!Venue V} `{!BlackScholes}.
Variable clock : nat -> datetime.

Abbreviation World := (World V).

(** *** Replaying events *)

Lemma replay_app (a b : list Event) (v : V) :
  replay (a ++ b) v = replay b (replay a v).
Proof. unfold replay. apply fold_left_app. Qed.

Lemma replay_silent (evs : list Event) (v : V) :
  Forall (fun e => is_silent e = true) evs -> replay evs v = v.
Proof.
  induction 1 as [| e evs He _ IH]; [reflexivity |].
  change (replay (e :: evs) v) with (replay evs (apply_event e v)).
  destruct e; try discriminate He; exact IH.
Qed.

Lemma orders_in_app (a b : list Event) :
  orders_in (a ++ b) = orders_in a ++ orders_in b.
Proof.
  induction a as [| e a IH]; [reflexivity |].
  simpl. destruct (is_order e); simpl; now rewrite IH.
Qed.

Lemma orders_in_none (P : Event -> bool) (evs : list Event) :
  (forall e, P e = true -> is_order e = false) ->
  Forall (fun e => P e = true) evs -> orders_in evs = [].
Proof.
  intros HP. induction 1 as [| e evs He _ IH]; [reflexivity |].
  simpl. now rewrite (HP e He).
Qed.

Lemma Forall_weaken (P Q : Event -> bool) (evs : list Event) :
  (forall e, P e = true -> Q e = true) ->
  Forall (fun e => P e = true) evs -> Forall (fun e => Q e = true) evs.
Proof. intros HPQ Hall. induction Hall; constructor; auto. Qed.

Lemma print_is_silent e : is_print e = true -> is_silent e = true.
Proof. destruct e; simpl; congruence. Qed.

Lemma print_not_order e : is_print e = true -> is_order e = false.
Proof. destruct e; simpl; congruence. Qed.

(** *** Worlds *)

Lemma advance_nil (w : World) : advance w [] 0 = w.
Proof.
  destruct w as [v t n g]. unfold advance. simpl.
  now rewrite app_nil_r.
Qed.

Lemma advance_advance (w : World) a b j k :
  advance (advance w a j) b k = advance w (a ++ b) (j + k).
Proof.
  unfold advance. simpl.
  rewrite replay_app, app_assoc. f_equal. lia.
Qed.

Lemma extends_refl P (w : World) : extends P w w.
Proof.
  exists []. split; [now rewrite app_nil_r |]. split; [reflexivity | constructor].
Qed.

Lemma extends_trans P (w1 w2 w3 : World) :
  extends P w1 w2 -> extends P w2 w3 -> extends P w1 w3.
Proof.
  intros (a & Ht1 & Hv1 & Ha) (b & Ht2 & Hv2 & Hb).
  exists (a ++ b). split; [| split].
  - now rewrite Ht2, Ht1, app_assoc.
  - now rewrite Hv2, Hv1, replay_app.
  - apply Forall_app; split; assumption.
Qed.

Lemma extends_silent P (w w' : World) :
  (forall e, P e = true -> is_silent e = true) ->
  extends P w w' -> venue w' = venue w.
Proof.
  intros HP (evs & _ & Hv & Hall). rewrite Hv.
  apply replay_silent. exact (Forall_weaken P is_silent evs HP Hall).
Qed.

(** *** Running computations *)

Lemma bind_ok {A B} (m : M A) (k : A -> M B) (w w' : World) a :
  m w = (w', inr a) -> bind m k w = k a w'.
Proof. intros E. unfold bind. now rewrite E. Qed.

Lemma bind_raise {A B} (m : M A) (k : A -> M B) (w w' : World) e :
  m w = (w', inl e) -> bind m k w = (w', inl e).
Proof. intros E. unfold bind. now rewrite E. Qed.

(** Run the first computation of a sequence, given its result. *)
Ltac run E := rewrite (bind_ok _ _ _ _ _ E).

Lemma emit_run e (w : World) : emit e w = (advance w [e] 0, inr tt).
Proof. reflexivity. Qed.

Lemma now_run (w : World) :
  now clock w = (advance w [] 1, inr (clock (clock_reads w))).
Proof.
  unfold now, advance. simpl. now rewrite app_nil_r.
Qed.

Lemma calculate_current_time_to_date_run expiry_date (w : World) :
  calculate_current_time_to_date clock expiry_date w
  = (advance w [] 1,
     inr (calculate_time_to_date expiry_date (clock (clock_reads w)))).
Proof.
  unfold calculate_current_time_to_date.
  now rewrite (bind_ok _ _ _ _ _ (now_run w)).
Qed.

(** *** Computations that only emit events of one kind *)

Lemma emitting_ret P {A} (a : A) : emitting (V:=V) P (ret a).
Proof. intros w. apply extends_refl. Qed.

Lemma emitting_raise P {A} e : emitting (V:=V) P (raise (A:=A) e).
Proof. intros w. apply extends_refl. Qed.

Lemma emitting_lift P {A} (r : exn + A) : emitting (V:=V) P (lift r).
Proof. intros w. apply extends_refl. Qed.

Lemma emitting_bind P {A B} (m : M A) (k : A -> M B) :
  emitting (V:=V) P m -> (forall a, emitting P (k a)) -> emitting P (bind m k).
Proof.
  intros Hm Hk w. unfold bind. specialize (Hm w).
  destruct (m w) as [w' [e | a]]; simpl in *; [exact Hm |].
  eapply extends_trans; [exact Hm | apply Hk].
Qed.

Lemma emitting_emit (P : Event -> bool) e :
  P e = true -> emitting (V:=V) P (emit e).
Proof.
  intros He w. exists [e]. simpl. repeat split. now constructor.
Qed.

Lemma emitting_now P : emitting (V:=V) P (now clock).
Proof. intros w. exists []. simpl. rewrite app_nil_r. repeat split. constructor. Qed.

Lemma emitting_assign P x : emitting (V:=V) P (assign_theoretical_value x).
Proof. intros w. exists []. simpl. rewrite app_nil_r. repeat split. constructor. Qed.

Lemma emitting_global P : emitting (V:=V) P global_theoretical_value.
Proof. intros w. apply extends_refl. Qed.

Lemma emitting_book P i : emitting (V:=V) P (exchange_get_last_price_book i).
Proof. intros w. apply extends_refl. Qed.

Lemma emitting_positions P : emitting (V:=V) P exchange_get_positions.
Proof. intros w. apply extends_refl. Qed.

Lemma emitting_outstanding P i :
  emitting (V:=V) P (exchange_get_outstanding_orders i).
Proof. intros w. apply extends_refl. Qed.

Lemma emitting_poll (P : Event -> bool) i :
  P (PollNewTrades i) = true -> emitting (V:=V) P (exchange_poll_new_trades i).
Proof.
  intros He w. exists [PollNewTrades i]. simpl. repeat split. now constructor.
Qed.

Lemma emitting_for_each P {A} (l : list A) (body : A -> M unit) :
  (forall x, emitting (V:=V) P (body x)) -> emitting P (for_each l body).
Proof.
  intros Hb. induction l as [| x l IH]; simpl.
  - apply emitting_ret.
  - apply emitting_bind; [apply Hb | intros _; exact IH].
Qed.

Lemma emitting_for_fold P {A S} (l : list A) (s : S) (body : S -> A -> M S) :
  (forall s x, emitting (V:=V) P (body s x)) -> emitting P (for_fold l s body).
Proof.
  intros Hb. revert s. induction l as [| x l IH]; intros s; simpl.
  - apply emitting_ret.
  - apply emitting_bind; [apply Hb | intros s'; apply IH].
Qed.

Lemma emitting_subscript P d k : emitting (V:=V) P (subscript d k).
Proof.
  unfold subscript.
  destruct (d !! k); [apply emitting_ret | apply emitting_raise].
Qed.

Lemma emitting_first_item P {A} (l : list A) : emitting (V:=V) P (first_item l).
Proof. destruct l; [apply emitting_raise | apply emitting_ret]. Qed.

Lemma emitting_attribute P {A B} (o : option A) (f : A -> B) :
  emitting (V:=V) P (attribute o f).
Proof. destruct o; [apply emitting_ret | apply emitting_raise]. Qed.

Lemma emitting_local P {A} name (o : option A) : emitting (V:=V) P (local name o).
Proof. destruct o; [apply emitting_ret | apply emitting_raise]. Qed.

Ltac emitting_step :=
  match goal with
  | |- emitting _ (ret _) => apply emitting_ret
  | |- emitting _ (raise _) => apply emitting_raise
  | |- emitting _ (lift _) => apply emitting_lift
  | |- emitting _ (now _) => apply emitting_now
  | |- emitting _ (assign_theoretical_value _) => apply emitting_assign
  | |- emitting _ global_theoretical_value => apply emitting_global
  | |- emitting _ (exchange_get_last_price_book _) => apply emitting_book
  | |- emitting _ exchange_get_positions => apply emitting_positions
  | |- emitting _ (exchange_get_outstanding_orders _) =>
      apply emitting_outstanding
  | |- emitting _ (subscript _ _) => apply emitting_subscript
  | |- emitting _ (first_item _) => apply emitting_first_item
  | |- emitting _ (attribute _ _) => apply emitting_attribute
  | |- emitting _ (local _ _) => apply emitting_local
  | |- emitting _ (exchange_poll_new_trades _) =>
      apply emitting_poll; reflexivity
  | |- emitting _ (print _) => apply emitting_emit; reflexivity
  | |- emitting _ (sleep _) => apply emitting_emit; reflexivity
  | |- emitting _ (exchange_insert_order _ _ _ _ _) =>
      apply emitting_emit; reflexivity
  | |- emitting _ (exchange_delete_order _ _) =>
      apply emitting_emit; reflexivity
  | |- emitting _ (bind _ _) => apply emitting_bind; [| intros ?]
  | |- emitting _ (for_each _ _) => apply emitting_for_each; intros ?
  | |- emitting _ (for_fold _ _ _) => apply emitting_for_fold; intros ? ?
  | |- emitting _ (match ?x with _ => _ end) => destruct x
  | |- emitting _ (let _ := _ in _) => progress cbv zeta
  | |- emitting _ (calculate_current_time_to_date _ _) =>
      unfold calculate_current_time_to_date
  | |- emitting _ (calculate_option_delta _ _ _ _ _ _ _) =>
      unfold calculate_option_delta
  | |- emitting _ (calculate_theoretical_option_value _ _ _ _ _ _ _) =>
      unfold calculate_theoretical_option_value
  | |- emitting _ (get_midpoint_value _) => unfold get_midpoint_value
  | |- emitting _ (pull_quotes _) => unfold pull_quotes
  | |- emitting _ (update_quotes _ _ _ _ _ _) => unfold update_quotes
  | |- emitting _ (hedge_delta_position _ _ _ _) =>
      unfold hedge_delta_position
  | |- emitting _ (hedge_gamma_position _ _ _ _) =>
      unfold hedge_gamma_position
  | |- emitting _ (hedge_vega_position _ _ _ _) =>
      unfold hedge_vega_position
  | |- emitting _ (trade_loop_iteration _ _ _) =>
      unfold trade_loop_iteration
  end.

Ltac emitting_auto := repeat emitting_step.

Lemma pull_quotes_no_orders option_id :
  emitting (V:=V) not_order (pull_quotes option_id).
Proof. emitting_auto. Qed.



(** *** The aggregation loops *)

Lemma get_positions_run (w : World) :
  exchange_get_positions w = (w, inr (get_positions (venue w))).
Proof. reflexivity. Qed.

Lemma get_book_run i (w : World) :
  exchange_get_last_price_book i w = (w, inr (get_last_price_book (venue w) i)).
Proof. reflexivity. Qed.

Lemma subscript_run (d : gmap string Z) k x (w : World) :
  d !! k = Some x -> subscript d k w = (w, inr x).
Proof. intros E. unfold subscript. now rewrite E. Qed.

Lemma subscript_missing (d : gmap string Z) k (w : World) :
  d !! k = None -> subscript d k w = (w, inl (KeyError k)).
Proof. intros E. unfold subscript. now rewrite E. Qed.

Lemma calculate_option_delta_run o S0 d (w : World) :
  BS_delta_at clock S0 (clock_reads w) o = Some d ->
  calculate_option_delta clock (expiry o) (strike o) (option_kind o) S0
    interest_rate volatility w = (advance w [] 1, inr d).
Proof.
  unfold BS_delta_at, calculate_option_delta. intros E.
  rewrite (bind_ok _ _ _ _ _ (calculate_current_time_to_date_run _ w)).
  destruct (option_kind o) as [[|] | r]; try discriminate E;
    injection E as <-; reflexivity.
Qed.

Lemma last_bound_last bound options id o :
  last options = Some (id, o) -> last_bound bound options = Some o.
Proof.
  revert bound. induction options as [| [i x] rest IH]; intros bound E.
  - discriminate E.
  - simpl. destruct rest as [| y rest'].
    + simpl in E. now injection E as _ <-.
    + apply IH. exact E.
Qed.

Lemma Forall_print_snoc evs m :
  Forall (fun e => is_print e = true) evs ->
  Forall (fun e => is_print e = true) (evs ++ [Print m]).
Proof. intros Hevs. apply Forall_app. split; [exact Hevs | now constructor]. Qed.

Lemma for_fold_exposure greek (positions : gmap string Z) (tvo : option Q)
    (final : Q -> Message)
    (body : loop_locals -> string * Instrument -> M loop_locals) :
  (forall total bound id o (w : World) pos g,
      positions !! id = Some pos ->
      greek (clock_reads w) o = Some g ->
      theoretical_value w = tvo ->
      exists evs, Forall (fun e => is_print e = true) evs /\
        body (total, bound) (id, o) w
        = (advance w (evs ++ [Print (final (fadd total (fmul g (of_int pos))))]) 1,
           inr ((fadd total (fmul g (of_int pos))), Some o))) ->
  forall options total bound (w : World) agg,
    theoretical_value w = tvo ->
    exposure greek positions (clock_reads w) total options = Some agg ->
    exists evs, Forall (fun e => is_print e = true) evs /\
      for_fold options (total, bound) body w
      = (advance w evs (length options), inr (agg, last_bound bound options))
      /\ (options <> [] -> exists evs', evs = evs' ++ [Print (final agg)]).
Proof.
  intros Hbody options.
  induction options as [| [id o] rest IH]; intros total bound w agg Htv Hexp.
  - simpl in Hexp. injection Hexp as <-.
    exists []. split; [constructor |]. simpl. rewrite advance_nil.
    split; [reflexivity | congruence].
  - simpl in Hexp.
    destruct (positions !! id) as [pos |] eqn:Epos; [| discriminate Hexp].
    destruct (greek (clock_reads w) o) as [g |] eqn:Eg; [| discriminate Hexp].
    destruct (Hbody total bound id o w pos g Epos Eg Htv) as (e1 & He1 & Hrun).
    destruct (IH (fadd total (fmul g (of_int pos))) (Some o)
                (advance w (e1 ++ [Print (final (fadd total (fmul g (of_int pos))))]) 1)
                agg)
      as (e2 & He2 & Hrest & Hfinal).
    + exact Htv.
    + exact Hexp.
    + exists ((e1 ++ [Print (final (fadd total (fmul g (of_int pos))))]) ++ e2).
      split; [apply Forall_app; split; [now apply Forall_print_snoc | exact He2] |].
      split.
      * simpl. rewrite (bind_ok _ _ _ _ _ Hrun), Hrest.
        now rewrite advance_advance.
      * intros _. destruct rest as [| y rest'].
        -- simpl in Hexp. injection Hexp as <-.
           simpl in Hrest. rewrite advance_advance in Hrest.
           exists e1.
           assert (He2nil : e2 = []).
           { injection Hrest as _ Ht. apply (f_equal length) in Ht.
             rewrite !length_app in Ht.
             destruct e2; [reflexivity | simpl in Ht; lia]. }
           now rewrite He2nil, app_nil_r.
        -- destruct Hfinal as (e2' & ->); [discriminate |].
           eexists. now rewrite app_assoc.
Qed.


Lemma emit_advance e (w : World) evs k :
  emit e (advance w evs k) = (advance w (evs ++ [e]) k, inr tt).
Proof. rewrite emit_run, advance_advance. now rewrite Nat.add_0_r. Qed.

Lemma print_advance m (w : World) evs k :
  print m (advance w evs k) = (advance w (evs ++ [Print m]) k, inr tt).
Proof. apply emit_advance. Qed.

Lemma insert_advance i p v s t (w : World) evs k :
  exchange_insert_order i p v s t (advance w evs k)
  = (advance w (evs ++ [InsertOrder i p v s t]) k, inr tt).
Proof. apply emit_advance. Qed.

Lemma book_advance_prints i (w : World) evs k :
  Forall (fun e => is_print e = true) evs ->
  exchange_get_last_price_book i (advance w evs k)
  = (advance w evs k, inr (get_last_price_book (venue w) i)).
Proof.
  intros Hevs. unfold exchange_get_last_price_book. simpl.
  rewrite replay_silent; [reflexivity |].
  exact (Forall_weaken _ _ _ print_is_silent Hevs).
Qed.

Lemma hedge_delta_position_run stock_id options S0 (w : World)
    p agg id o d b bs a as' :
  get_positions (venue w) !! stock_id = Some p ->
  exposure (BS_delta_at clock S0) (get_positions (venue w)) (clock_reads w)
    (inject_Z p) options = Some agg ->
  last options = Some (id, o) ->
  BS_delta_at clock S0 (length options + clock_reads w) o = Some d ->
  get_last_price_book (venue w) stock_id
    = Some {| bids := b :: bs; asks := a :: as' |} ->
  exists pre, Forall (fun e => is_print e = true) pre /\
    hedge_delta_position clock stock_id options S0 w
    = (advance w
         (pre ++ hedge_events stock_id p agg (hedge_size p d) (price b) (price a))
         (length options + 1), inr tt).
Proof.
  intros Hp Hexp Hlast Hd Hbook.
  unfold hedge_delta_position.
  run (get_positions_run w).
  run (subscript_run _ _ _ w Hp).
  match goal with
  | |- context [for_fold options _ ?body] =>
      pose proof (fun Hb =>
        for_fold_exposure (BS_delta_at clock S0) (get_positions (venue w))
          (theoretical_value w) MsgTotalDelta body Hb options (inject_Z p)
          None w agg eq_refl Hexp) as Hloop
  end.
  destruct Hloop as (pre & Hpre & Hloop & _).
  - intros total bound i x w0 pos g Hpos Hg _.
    eexists. split; [| cbv beta iota zeta].
    2: { run (subscript_run _ _ _ w0 Hpos).
         run (emit_run (Print (MsgOptionPosition i pos)) w0).
         erewrite bind_ok; [| apply calculate_option_delta_run; exact Hg].
         rewrite advance_advance.
         do 3 (erewrite bind_ok; [| apply print_advance]).
         reflexivity. }
    repeat apply Forall_print_snoc. repeat constructor.
  - run Hloop.
    run (subscript_run _ _ _ (advance w pre (length options)) Hp).
    run (print_advance (MsgStockPosition stock_id p) w pre (length options)).
    erewrite bind_ok; [| apply subscript_run; exact Hp].
    rewrite (last_bound_last _ _ _ _ Hlast).
    erewrite bind_ok; [| reflexivity].
    erewrite bind_ok; [| apply calculate_option_delta_run; exact Hd].
    rewrite advance_advance, app_nil_r.
    assert (Hpre' := Forall_print_snoc pre (MsgStockPosition stock_id p) Hpre).
    run (book_advance_prints stock_id w _ (length options + 1) Hpre').
    rewrite Hbook.
    do 4 (erewrite bind_ok; [| reflexivity]).
    cbn [bids asks].
    fold (hedge_size p d).
    exists (pre ++ [Print (MsgStockPosition stock_id p)]).
    split; [exact Hpre' |].
    unfold hedge_events.
    destruct (Qlt_bool agg 0); [| destruct (Qlt_bool 0 agg)].
    + erewrite bind_ok; [| apply subscript_run; exact Hp].
      cbv zeta. fold (buy_clamp p (hedge_size p d)).
      erewrite bind_ok; [| apply insert_advance].
      rewrite print_advance. now rewrite <- app_assoc.
    + erewrite bind_ok; [| apply subscript_run; exact Hp].
      cbv zeta. fold (sell_clamp p (hedge_size p d)).
      erewrite bind_ok; [| apply insert_advance].
      rewrite print_advance. now rewrite <- app_assoc.
    + now rewrite print_advance.
Qed.

(** *** Tick rounding *)

Lemma truediv_nonzero a b : ~ (b == 0)%Q -> truediv a b = inr (fdiv a b).
Proof.
  intros Hb. unfold truediv.
  destruct (Qeq_bool b 0) eqn:E; [| reflexivity].
  apply Qeq_bool_eq in E. contradiction.
Qed.

Lemma truediv_zero a b : (b == 0)%Q -> truediv a b = inl ZeroDivisionError.
Proof.
  intros Hb. unfold truediv. apply Qeq_bool_iff in Hb. now rewrite Hb.
Qed.


(** *** Requoting *)

Lemma run_pair {A} (m : M A) (w : World) : m w = (fst (m w), snd (m w)).
Proof. apply surjective_pairing. Qed.

Lemma for_each_ok {A} (l : list A) (body : A -> M unit) :
  (forall x (w : World), snd (body x w) = inr tt) ->
  forall w : World, snd (for_each l body w) = inr tt.
Proof.
  intros Hbody. induction l as [| x l IH]; intros w; [reflexivity |].
  simpl. unfold bind. rewrite (run_pair (body x) w), Hbody. apply IH.
Qed.

Lemma pull_quotes_ok option_id (w : World) :
  snd (pull_quotes option_id w) = inr tt.
Proof.
  unfold pull_quotes.
  erewrite bind_ok; [| reflexivity].
  unfold bind at 1.
  match goal with
  | |- context [for_each ?l ?body ?w0] =>
      rewrite (run_pair (for_each l body) w0), (for_each_ok l body)
  end.
  - erewrite bind_ok; [| reflexivity].
    apply for_each_ok. intros [order_id order] w0. reflexivity.
  - reflexivity.
Qed.

Lemma pull_quotes_run option_id (w : World) :
  pull_quotes option_id w = (fst (pull_quotes option_id w), inr tt).
Proof.
  transitivity (fst (pull_quotes option_id w), snd (pull_quotes option_id w)).
  - apply run_pair.
  - now rewrite pull_quotes_ok.
Qed.

Lemma round_down_to_tick_run x t :
  ~ (t == 0)%Q ->
  round_down_to_tick x t = inr (fmul (of_int (Qfloor (fdiv x t))) t).
Proof. intros Ht. unfold round_down_to_tick. now rewrite truediv_nonzero. Qed.

Lemma round_up_to_tick_run x t :
  ~ (t == 0)%Q ->
  round_up_to_tick x t = inr (fmul (of_int (Qceiling (fdiv x t))) t).
Proof. intros Ht. unfold round_up_to_tick. now rewrite truediv_nonzero. Qed.

Lemma update_quotes_run option_id theo credit vol lim tick (w : World) bp ap pos :
  round_down_to_tick (fsub theo credit) tick = inr bp ->
  round_up_to_tick (fadd theo credit) tick = inr ap ->
  get_positions (venue (fst (pull_quotes option_id w))) !! option_id = Some pos ->
  update_quotes option_id theo credit vol lim tick w
  = (advance (fst (pull_quotes option_id w))
       (quote_events option_id bp ap (Z.min vol (lim - pos)) (Z.min vol (lim + pos)))
       0, inr tt).
Proof.
  intros Hbp Hap Hpos. unfold update_quotes.
  run (pull_quotes_run option_id w).
  set (w1 := fst (pull_quotes option_id w)) in *.
  rewrite Hbp, Hap.
  do 3 (erewrite bind_ok; [| reflexivity]).
  run (subscript_run _ _ _ w1 Hpos).
  cbv zeta. unfold quote_events.
  destruct (0 <? Z.min vol (lim - pos)); destruct (0 <? Z.min vol (lim + pos)).
  - erewrite bind_ok.
    2: { erewrite bind_ok; [| apply emit_run]. apply insert_advance. }
    erewrite bind_ok; [| apply print_advance].
    rewrite insert_advance. now rewrite <- !app_assoc.
  - erewrite bind_ok.
    2: { erewrite bind_ok; [| apply emit_run]. apply insert_advance. }
    now rewrite app_nil_r.
  - erewrite bind_ok; [| reflexivity].
    erewrite bind_ok; [| apply emit_run].
    now rewrite insert_advance.
  - erewrite bind_ok; [| reflexivity].
    simpl. now rewrite advance_nil.
Qed.

Lemma update_quotes_no_position option_id theo credit vol lim tick (w : World) bp ap :
  round_down_to_tick (fsub theo credit) tick = inr bp ->
  round_up_to_tick (fadd theo credit) tick = inr ap ->
  get_positions (venue (fst (pull_quotes option_id w))) !! option_id = None ->
  update_quotes option_id theo credit vol lim tick w
  = (fst (pull_quotes option_id w), inl (KeyError option_id)).
Proof.
  intros Hbp Hap Hpos. unfold update_quotes.
  run (pull_quotes_run option_id w).
  rewrite Hbp, Hap.
  do 3 (erewrite bind_ok; [| reflexivity]).
  erewrite bind_raise; [reflexivity |].
  now apply subscript_missing.
Qed.

Lemma quote_events_orders option_id bp ap bv av :
  orders_in (quote_events option_id bp ap bv av)
  = (if 0 <? bv then [InsertOrder option_id bp (PyInt bv) bid limit] else [])
    ++ (if 0 <? av then [InsertOrder option_id ap (PyInt av) ask limit] else []).
Proof.
  unfold quote_events. rewrite orders_in_app.
  destruct (0 <? bv); destruct (0 <? av); reflexivity.
Qed.

Lemma In_orders_in e evs : is_order e = true -> In e evs -> In e (orders_in evs).
Proof.
  intros He. induction evs as [| x evs IH]; [easy |].
  intros [-> | Hin]; simpl.
  - rewrite He. now left.
  - destruct (is_order x); [right |]; auto.
Qed.


Lemma update_quotes_trace option_id theo credit vol lim tick (w : World) bp ap :
  round_down_to_tick (fsub theo credit) tick = inr bp ->
  round_up_to_tick (fadd theo credit) tick = inr ap ->
  exists pulled,
    Forall (fun e => not_order e = true) pulled
    /\ trace (fst (update_quotes option_id theo credit vol lim tick w))
       = trace w ++ pulled ++
         match get_positions (venue (fst (pull_quotes option_id w))) !! option_id with
         | Some pos => quote_events option_id bp ap
                         (Z.min vol (lim - pos)) (Z.min vol (lim + pos))
         | None => []
         end.
Proof.
  intros Hbp Hap.
  destruct (pull_quotes_no_orders option_id w) as (pulled & Htr & _ & Hall).
  exists pulled. split; [exact Hall |].
  destruct (get_positions (venue (fst (pull_quotes option_id w))) !! option_id)
    as [pos |] eqn:Epos.
  - rewrite (update_quotes_run _ _ _ _ _ _ _ _ _ _ Hbp Hap Epos).
    simpl. now rewrite Htr, app_assoc.
  - rewrite (update_quotes_no_position _ _ _ _ _ _ _ _ _ Hbp Hap Epos).
    simpl. now rewrite Htr, app_nil_r.
Qed.

Lemma not_order_In e evs :
  Forall (fun e => not_order e = true) evs -> In e evs -> is_order e = false.
Proof.
  intros Hall Hin. rewrite Forall_forall in Hall.
  specialize (Hall e ltac:(now apply list_elem_of_In)).
  unfold not_order in Hall. now destruct (is_order e).
Qed.

Lemma In_quote_events option_id bp ap bv av i p v s t :
  In (InsertOrder i p v s t) (quote_events option_id bp ap bv av) ->
  i = option_id /\ t = limit
  /\ ((s = bid /\ p = bp /\ v = PyInt bv /\ 0 < bv)
      \/ (s = ask /\ p = ap /\ v = PyInt av /\ 0 < av)).
Proof.
  unfold quote_events. intros Hin. apply in_app_or in Hin.
  destruct Hin as [Hin | Hin].
  - destruct (0 <? bv) eqn:E; [| easy].
    apply Z.ltb_lt in E.
    destruct Hin as [Hin | [Hin | []]]; [discriminate Hin |].
    injection Hin as <- <- <- <- <-. auto 10.
  - destruct (0 <? av) eqn:E; [| easy].
    apply Z.ltb_lt in E.
    destruct Hin as [Hin | [Hin | []]]; [discriminate Hin |].
    injection Hin as <- <- <- <- <-. auto 10.
Qed.

(** C1. [update_quotes] sets [bid_volume = min(V, L - P)] and
    [ask_volume = min(V, L + P)] for the position [P] read after the old
    orders are pulled, and submits a limit bid (resp. ask) exactly when
    that volume is positive; a submitted bid volume lies in [[0, V]] and
    keeps [P + bid_volume <= L], a submitted ask volume lies in [[0, V]]
    and keeps [P - ask_volume >= -L]. *)
Theorem update_quotes_volume_clipping
    option_id theo credit vol lim tick (w : World) pos :
  ~ (tick == 0)%Q ->
  get_positions (venue (fst (pull_quotes option_id w))) !! option_id = Some pos ->
  let bid_volume := Z.min vol (lim - pos) in
  let ask_volume := Z.min vol (lim + pos) in
  exists new bid_price ask_price,
    snd (update_quotes option_id theo credit vol lim tick w) = inr tt
    /\ trace (fst (update_quotes option_id theo credit vol lim tick w))
       = trace w ++ new
    /\ orders_in new
       = (if 0 <? bid_volume
          then [InsertOrder option_id bid_price (PyInt bid_volume) bid limit]
          else [])
         ++ (if 0 <? ask_volume
             then [InsertOrder option_id ask_price (PyInt ask_volume) ask limit]
             else [])
    /\ (0 < bid_volume -> 0 <= bid_volume <= vol /\ pos + bid_volume <= lim)
    /\ (0 < ask_volume -> 0 <= ask_volume <= vol /\ pos - ask_volume >= - lim).
Proof.
  intros Htick Hpos bid_volume ask_volume.
  pose proof (round_down_to_tick_run (fsub theo credit) tick Htick) as Hbp.
  pose proof (round_up_to_tick_run (fadd theo credit) tick Htick) as Hap.
  destruct (update_quotes_trace option_id theo credit vol lim tick w _ _ Hbp Hap)
    as (pulled & Hpulled & Htrace).
  rewrite Hpos in Htrace.
  eexists _, _, _. split; [| split; [exact Htrace | split; [| split]]].
  - now rewrite (update_quotes_run _ _ _ _ _ _ _ _ _ _ Hbp Hap Hpos).
  - rewrite orders_in_app, quote_events_orders.
    rewrite (orders_in_none not_order pulled); [reflexivity | | exact Hpulled].
    intros e. unfold not_order. now destruct (is_order e).
  - subst bid_volume. lia.
  - subst ask_volume. lia.
Qed.

(** *** The rounded operations are monotone *)

Lemma fdiv_mono x y t : (0 < t)%Q -> (x <= y)%Q -> (fdiv x t <= fdiv y t)%Q.
Proof.
  intros Ht Hxy. unfold fdiv. apply rnd_mono.
  unfold Qdiv. apply Qmult_le_compat_r; [exact Hxy |].
  apply Qlt_le_weak, Qinv_lt_0_compat. exact Ht.
Qed.

Lemma of_int_mono n m : n <= m -> (of_int n <= of_int m)%Q.
Proof. intros Hnm. unfold of_int. apply rnd_mono. now rewrite <- Zle_Qle. Qed.

Lemma fmul_mono_l a b t : (0 < t)%Q -> (a <= b)%Q -> (fmul a t <= fmul b t)%Q.
Proof.
  intros Ht Hab. unfold fmul. apply rnd_mono.
  apply Qmult_le_compat_r; [exact Hab | lra].
Qed.

Lemma fsub_le_fadd x c : (0 <= c)%Q -> (fsub x c <= fadd x c)%Q.
Proof. intros Hc. unfold fsub, fadd. apply rnd_mono. lra. Qed.

(** A whole number below the computed quotient stays below it when
    converted to a float, and likewise above. *)
Lemma of_int_le_fdiv n x t :
  (inject_Z n <= fdiv x t)%Q -> (of_int n <= fdiv x t)%Q.
Proof.
  intros Hn. unfold of_int, fdiv in *.
  rewrite <- (rnd_idem (x / t)). now apply rnd_mono.
Qed.

Lemma fdiv_le_of_int m x t :
  (fdiv x t <= inject_Z m)%Q -> (fdiv x t <= of_int m)%Q.
Proof.
  intros Hm. unfold of_int, fdiv in *.
  rewrite <- (rnd_idem (x / t)). now apply rnd_mono.
Qed.

Lemma rescaled_between x t n m :
  (0 < t)%Q ->
  (inject_Z n <= fdiv x t)%Q -> (fdiv x t <= inject_Z m)%Q ->
  (fmul (of_int n) t <= rescaled x t)%Q
  /\ (rescaled x t <= fmul (of_int m) t)%Q.
Proof.
  intros Ht Hn Hm. unfold rescaled. split; apply fmul_mono_l; try exact Ht.
  - now apply of_int_le_fdiv.
  - now apply fdiv_le_of_int.
Qed.

(** C2, as the machine computes it. For a positive tick the two
    roundings are the products [n * tick] and [m * tick], each rounded
    once, of the tick with the floor [n] and the ceiling [m] of the
    computed quotient [x / tick]; they bracket [x] divided by the tick
    and multiplied back, which is [x] up to two roundings, and lie
    within one grid step of it. [update_quotes] quotes its bid at the
    theoretical price minus the credit rounded down and its ask at the
    theoretical price plus the credit rounded up, and for a credit that
    is not negative the bid is never above the ask. *)
Theorem tick_rounding_brackets x tick :
  (0 < tick)%Q ->
  (exists n m,
      round_down_to_tick x tick = inr (fmul (of_int n) tick)
      /\ round_up_to_tick x tick = inr (fmul (of_int m) tick)
      /\ (inject_Z n <= fdiv x tick /\ fdiv x tick < inject_Z n + 1)%Q
      /\ (inject_Z m - 1 < fdiv x tick /\ fdiv x tick <= inject_Z m)%Q
      /\ (fmul (of_int n) tick <= rescaled x tick
          /\ rescaled x tick <= fmul (of_int (n + 1)) tick)%Q
      /\ (fmul (of_int (m - 1)) tick <= rescaled x tick
          /\ rescaled x tick <= fmul (of_int m) tick)%Q)
  /\ (forall option_id theo credit vol lim (w : World) pos,
        get_positions (venue (fst (pull_quotes option_id w))) !! option_id
        = Some pos ->
        exists bid_price ask_price new,
          round_down_to_tick (fsub theo credit) tick = inr bid_price
          /\ round_up_to_tick (fadd theo credit) tick = inr ask_price
          /\ snd (update_quotes option_id theo credit vol lim tick w) = inr tt
          /\ trace (fst (update_quotes option_id theo credit vol lim tick w))
             = trace w ++ new
          /\ orders_in new
             = (if 0 <? Z.min vol (lim - pos)
                then [InsertOrder option_id bid_price
                        (PyInt (Z.min vol (lim - pos))) bid limit]
                else [])
               ++ (if 0 <? Z.min vol (lim + pos)
                   then [InsertOrder option_id ask_price
                           (PyInt (Z.min vol (lim + pos))) ask limit]
                   else [])
          /\ (bid_price <= rescaled (fsub theo credit) tick)%Q
          /\ (rescaled (fadd theo credit) tick <= ask_price)%Q
          /\ ((0 <= credit)%Q -> (bid_price <= ask_price)%Q)).
Proof.
  intros Htick.
  assert (Hnz : ~ (tick == 0)%Q) by (intros E; rewrite E in Htick; lra).
  assert (Hfloor : forall q, (inject_Z (Qfloor q) <= q
                              /\ q < inject_Z (Qfloor q) + 1)%Q).
  { intros q. pose proof (Qfloor_le q). pose proof (Qlt_floor q) as Hlt.
    rewrite inject_Z_plus in Hlt. now split. }
  assert (Hceil : forall q, (inject_Z (Qceiling q) - 1 < q
                             /\ q <= inject_Z (Qceiling q))%Q).
  { intros q. pose proof (Qle_ceiling q). pose proof (Qceiling_lt q) as Hlt.
    unfold Z.sub in Hlt. rewrite inject_Z_plus in Hlt. now split. }
  split.
  - exists (Qfloor (fdiv x tick)), (Qceiling (fdiv x tick)).
    destruct (Hfloor (fdiv x tick)) as [Hf1 Hf2].
    destruct (Hceil (fdiv x tick)) as [Hc1 Hc2].
    split; [now apply round_down_to_tick_run |].
    split; [now apply round_up_to_tick_run |].
    split; [now split |]. split; [now split |].
    split.
    + apply rescaled_between; [exact Htick | exact Hf1 |].
      rewrite inject_Z_plus. change (inject_Z 1) with 1%Q. lra.
    + apply rescaled_between; [exact Htick | | exact Hc2].
      unfold Z.sub. rewrite inject_Z_plus.
      change (inject_Z (- (1))) with (- (1))%Q. lra.
  - intros option_id theo credit vol lim w pos Hpos.
    pose proof (round_down_to_tick_run (fsub theo credit) tick Hnz) as Hbp.
    pose proof (round_up_to_tick_run (fadd theo credit) tick Hnz) as Hap.
    destruct (update_quotes_trace option_id theo credit vol lim tick w _ _ Hbp Hap)
      as (pulled & Hpulled & Htrace).
    rewrite Hpos in Htrace.
    set (qb := fdiv (fsub theo credit) tick) in *.
    set (qa := fdiv (fadd theo credit) tick) in *.
    destruct (Hfloor qb) as [Hb1 _]. destruct (Hceil qa) as [_ Ha2].
    eexists _, _, _.
    split; [exact Hbp |]. split; [exact Hap |].
    split; [now rewrite (update_quotes_run _ _ _ _ _ _ _ _ _ _ Hbp Hap Hpos) |].
    split; [exact Htrace |].
    split.
    { rewrite orders_in_app, quote_events_orders.
      rewrite (orders_in_none not_order pulled); [reflexivity | | exact Hpulled].
      intros e. unfold not_order. now destruct (is_order e). }
    split; [| split].
    + unfold rescaled. apply fmul_mono_l; [exact Htick |].
      now apply of_int_le_fdiv.
    + unfold rescaled. apply fmul_mono_l; [exact Htick |].
      now apply fdiv_le_of_int.
    + intros Hcredit.
      apply fmul_mono_l; [exact Htick |]. apply of_int_mono.
      assert (Hq : (qb <= qa)%Q)
        by (apply fdiv_mono; [exact Htick | now apply fsub_le_fadd]).
      rewrite Zle_Qle. lra.
Qed.


(** *** Time to expiry *)

(** C9. The time to expiry is the difference expiry minus reference,
    counted in days, divided by 365; it is negative exactly when the
    reference time is after the expiry. *)
Theorem calculate_time_to_date_years (expiry_date current_time : datetime) :
  (calculate_time_to_date expiry_date current_time
   == inject_Z (dt_micros expiry_date - dt_micros current_time)
      / inject_Z 86400000000 / 365)%Q
  /\ ((calculate_time_to_date expiry_date current_time < 0)%Q
      <-> dt_micros expiry_date < dt_micros current_time).
Proof.
  unfold calculate_time_to_date, timedelta_truediv, datetime_sub, timedelta_days.
  simpl. split; [reflexivity |].
  unfold Qlt. simpl. lia.
Qed.

(** *** Delta of one option *)

(** C8. The delta computation raises its invalid-argument exception
    exactly when the kind is neither CALL nor PUT; for CALL it returns
    the Black-Scholes call delta and for PUT the put delta, at the time
    to expiry read from the clock. *)
Theorem calculate_option_delta_kinds
    expiry_date strike0 kind S0 r sigma (w : World) :
  let T := calculate_time_to_date expiry_date (clock (clock_reads w)) in
  let result :=
    snd (calculate_option_delta clock expiry_date strike0 kind S0 r sigma w) in
  match kind with
  | Kind CALL => result = inr (call_delta S0 strike0 T r sigma)
  | Kind PUT => result = inr (put_delta S0 strike0 T r sigma)
  | OtherValue _ => result = inl (UnexpectedOptionKind kind)
  end
  /\ ((exists e, result = inl e) <-> kind <> Kind CALL /\ kind <> Kind PUT).
Proof.
  intros T result. subst result T.
  unfold calculate_option_delta.
  rewrite (bind_ok _ _ _ _ _ (calculate_current_time_to_date_run _ w)).
  destruct kind as [[|] | other]; simpl; (split; [reflexivity |]).
  - split; [intros [e He]; discriminate He | intros [Hc _]; now destruct Hc].
  - split; [intros [e He]; discriminate He | intros [_ Hp]; now destruct Hp].
  - split; [intros _; split; discriminate | intros _; eexists; reflexivity].
Qed.

(** *** The midpoint and the skipped cycle *)

Lemma get_midpoint_value_run i (w : World) :
  get_midpoint_value i w
  = (w, inr match get_last_price_book (venue w) i with
            | Some {| bids := b :: _; asks := a :: _ |} =>
                Some ((price b + price a) / 2)%Q
            | _ => None
            end).
Proof.
  unfold get_midpoint_value. run (get_book_run i w).
  destruct (get_last_price_book (venue w) i) as [[[| b bs] [| a as']] |];
    reflexivity.
Qed.

(** C7. The midpoint reader returns the average of the best bid and the
    best ask when both sides of the book are non-empty and [None]
    otherwise; on [None] the pass through the loop body writes its
    banner and the empty-book line, sleeps 4 seconds, leaves the venue
    and the last theoretical value untouched, and the loop goes on with
    its next pass. *)
Theorem midpoint_or_skip (w : World) STOCK_ID :
  (forall b bs a as',
      get_last_price_book (venue w) STOCK_ID
      = Some {| bids := b :: bs; asks := a :: as' |} ->
      get_midpoint_value STOCK_ID w
      = (w, inr (Some ((price b + price a) / 2)%Q)))
  /\ ((get_last_price_book (venue w) STOCK_ID = None
       \/ exists book, get_last_price_book (venue w) STOCK_ID = Some book
                       /\ (bids book = [] \/ asks book = [])) ->
      get_midpoint_value STOCK_ID w = (w, inr None)
      /\ forall options,
          let skipped :=
            advance w [Print MsgBlank; Print MsgRule;
                       Print (MsgIterationEntered (clock (clock_reads w)));
                       Print MsgRule; Print MsgEmptyBook; Sleep 4] 1 in
          trade_loop_iteration clock STOCK_ID options w = (skipped, inr tt)
          /\ venue skipped = venue w
          /\ theoretical_value skipped = theoretical_value w
          /\ forall n, trade_loop clock (S n) STOCK_ID options w
                       = trade_loop clock n STOCK_ID options skipped).
Proof.
  split.
  - intros b bs a as' Hbook. rewrite get_midpoint_value_run. now rewrite Hbook.
  - intros Hnone.
    assert (Hmid : forall w0 : World, venue w0 = venue w ->
              get_midpoint_value STOCK_ID w0 = (w0, inr None)).
    { intros w0 Hv. rewrite get_midpoint_value_run, Hv.
      destruct Hnone as [-> | (book & -> & Hside)]; [reflexivity |].
      destruct book as [[| b bs] [| a as']]; simpl in Hside;
        try reflexivity; destruct Hside; discriminate. }
    split; [now apply Hmid |].
    intros options skipped.
    assert (Hrun : trade_loop_iteration clock STOCK_ID options w
                   = (skipped, inr tt)).
    { unfold trade_loop_iteration.
      run (emit_run (Print MsgBlank) w).
      erewrite bind_ok; [| apply print_advance].
      erewrite bind_ok; [| apply now_run].
      rewrite advance_advance.
      do 2 (erewrite bind_ok; [| apply print_advance]).
      erewrite bind_ok; [| apply Hmid; reflexivity].
      cbv beta iota.
      erewrite bind_ok; [| apply print_advance].
      unfold sleep. rewrite emit_advance. reflexivity. }
    split; [exact Hrun |]. split; [reflexivity |]. split; [reflexivity |].
    intros n. simpl. now run Hrun.
Qed.


(** *** The delta hedge *)

Lemma Qlt_bool_true x y : (x < y)%Q -> Qlt_bool x y = true.
Proof.
  intros Hlt. unfold Qlt_bool.
  destruct (Qle_bool y x) eqn:E; [| reflexivity].
  apply Qle_bool_iff in E. lra.
Qed.

Lemma Qlt_bool_false x y : (y <= x)%Q -> Qlt_bool x y = false.
Proof.
  intros Hle. unfold Qlt_bool. apply Qle_bool_iff in Hle. now rewrite Hle.
Qed.

Lemma orders_in_prints evs :
  Forall (fun e => is_print e = true) evs -> orders_in evs = [].
Proof. apply orders_in_none. exact print_not_order. Qed.

Lemma hedge_events_orders stock_id p total H0 best_bid best_ask :
  orders_in (hedge_events stock_id p total H0 best_bid best_ask)
  = if Qlt_bool total 0 then
      [InsertOrder stock_id best_ask
         (PyInt (-1 * int_of (if buy_clamp p H0 then H0 else 0%Q))) bid ioc]
    else if Qlt_bool 0 total then
      [InsertOrder stock_id best_bid
         (PyInt (-1 * int_of (if sell_clamp p H0 then H0 else 0%Q))) ask ioc]
    else [].
Proof.
  unfold hedge_events.
  destruct (Qlt_bool total 0); [| destruct (Qlt_bool 0 total)]; reflexivity.
Qed.

Lemma hedge_events_venue stock_id p total H0 best_bid best_ask (v : V) :
  Qlt_bool total 0 = false -> Qlt_bool 0 total = false ->
  replay (hedge_events stock_id p total H0 best_bid best_ask) v = v.
Proof. intros E1 E2. unfold hedge_events. now rewrite E1, E2. Qed.

(** C3. The delta hedge branches on the aggregate delta as the machine
    has summed it. When that sum is negative it submits exactly one
    order, an immediate-or-cancel buy of the underlying at the best
    ask; when it is positive, exactly one immediate-or-cancel sell at
    the best bid; when it is zero, no order, and the venue is left as it
    was. With the tested bound satisfied the volume sent is
    [-1 * int(H)], otherwise it is zero. *)
Theorem hedge_delta_position_direction stock_id options S0 (w : World)
    p agg id o d b bs a as' :
  get_positions (venue w) !! stock_id = Some p ->
  exposure (BS_delta_at clock S0) (get_positions (venue w)) (clock_reads w)
    (inject_Z p) options = Some agg ->
  last options = Some (id, o) ->
  BS_delta_at clock S0 (length options + clock_reads w) o = Some d ->
  get_last_price_book (venue w) stock_id
    = Some {| bids := b :: bs; asks := a :: as' |} ->
  exists new,
    hedge_delta_position clock stock_id options S0 w
    = (advance w new (length options + 1), inr tt)
    /\ ((agg < 0)%Q ->
        exists v, orders_in new = [InsertOrder stock_id (price a) (PyInt v) bid ioc]
                  /\ (buy_clamp p (hedge_size p d) = true ->
                      v = -1 * int_of (hedge_size p d))
                  /\ (buy_clamp p (hedge_size p d) = false -> v = 0))
    /\ ((0 < agg)%Q ->
        exists v, orders_in new = [InsertOrder stock_id (price b) (PyInt v) ask ioc]
                  /\ (sell_clamp p (hedge_size p d) = true ->
                      v = -1 * int_of (hedge_size p d))
                  /\ (sell_clamp p (hedge_size p d) = false -> v = 0))
    /\ ((agg == 0)%Q ->
        orders_in new = []
        /\ venue (advance w new (length options + 1)) = venue w).
Proof.
  intros Hp Hexp Hlast Hd Hbook.
  destruct (hedge_delta_position_run _ _ _ _ _ _ _ _ _ _ _ _ _
              Hp Hexp Hlast Hd Hbook) as (pre & Hpre & Hrun).
  eexists. split; [exact Hrun |].
  rewrite orders_in_app, (orders_in_prints pre Hpre), hedge_events_orders.
  simpl app.
  split; [| split].
  - intros Hneg. rewrite (Qlt_bool_true _ _ Hneg).
    eexists. split; [reflexivity |]. split; now intros ->.
  - intros Hpos. rewrite (Qlt_bool_false agg 0), (Qlt_bool_true _ _ Hpos) by lra.
    eexists. split; [reflexivity |]. split; now intros ->.
  - intros Hzero.
    assert (E1 : Qlt_bool agg 0 = false) by (apply Qlt_bool_false; lra).
    assert (E2 : Qlt_bool 0 agg = false) by (apply Qlt_bool_false; lra).
    rewrite E1, E2. split; [reflexivity |].
    simpl. rewrite replay_app, hedge_events_venue by assumption.
    apply replay_silent. exact (Forall_weaken _ _ _ print_is_silent Hpre).
Qed.

(** C10. On an empty chain the delta hedge raises [UnboundLocalError]
    for the name [option] whatever the stock position is, after writing
    the stock position and before any order is submitted; the venue is
    left as it was. *)
Theorem hedge_delta_position_empty_chain stock_id S0 (w : World) p :
  get_positions (venue w) !! stock_id = Some p ->
  exists new,
    hedge_delta_position clock stock_id [] S0 w
    = (advance w new 0, inl (UnboundLocalError "option"))
    /\ orders_in new = []
    /\ venue (advance w new 0) = venue w.
Proof.
  intros Hp. exists [Print (MsgStockPosition stock_id p)].
  split; [| split; reflexivity].
  unfold hedge_delta_position.
  run (get_positions_run w).
  run (subscript_run _ _ _ w Hp).
  erewrite bind_ok; [| reflexivity].
  cbv beta iota.
  run (subscript_run _ _ _ w Hp).
  run (emit_run (Print (MsgStockPosition stock_id p)) w).
  erewrite bind_ok; [| apply subscript_run; exact Hp].
  reflexivity.
Qed.


(** *** The gamma hedge *)

Lemma global_theoretical_value_run (w : World) x :
  theoretical_value w = Some x -> global_theoretical_value w = (w, inr x).
Proof. intros E. unfold global_theoretical_value. now rewrite E. Qed.

Lemma best_ask_price_book (v : V) stock_id x :
  best_ask_price v stock_id = Some x ->
  exists b bs a as',
    get_last_price_book v stock_id = Some {| bids := b :: bs; asks := a :: as' |}
    /\ price a = x.
Proof.
  unfold best_ask_price.
  destruct (get_last_price_book v stock_id) as [[[| b bs] [| a as']] |];
    try discriminate.
  intros E. injection E as <-. now exists b, bs, a, as'.
Qed.

Lemma for_each_gamma_sells stock_id G S0
    (body : string * Instrument -> M unit) :
  (forall id o (w : World) x,
      theoretical_value w = Some S0 ->
      Qeq_bool (gamma S0 (strike o) (time_to_expiry_at clock (clock_reads w) o)
                  interest_rate volatility) 0 = false ->
      best_ask_price (venue w) stock_id = Some x ->
      body (id, o) w
      = (advance w
           [InsertOrder id x
              (PyFloat (fdiv G (gamma S0 (strike o)
                              (time_to_expiry_at clock (clock_reads w) o)
                              interest_rate volatility))) ask limit] 1,
         inr tt)) ->
  forall options (w : World) sells,
    theoretical_value w = Some S0 ->
    gamma_sells clock stock_id G S0 (clock_reads w) (venue w) options = Some sells ->
    for_each options body w = (advance w sells (length options), inr tt).
Proof.
  intros Hbody options.
  induction options as [| [id o] rest IH]; intros w sells Htv Hsells.
  - simpl in Hsells. injection Hsells as <-. simpl. now rewrite advance_nil.
  - simpl in Hsells.
    destruct (Qeq_bool _ 0) eqn:Eg; [discriminate Hsells |].
    destruct (best_ask_price (venue w) stock_id) as [x |] eqn:Ea;
      [| discriminate Hsells].
    match type of Hsells with
    | match ?t with _ => _ end = _ => destruct t as [evs |] eqn:Erest
    end; [| discriminate Hsells].
    injection Hsells as <-.
    simpl. run (Hbody id o w x Htv Eg Ea).
    rewrite (IH _ evs); [now rewrite advance_advance | exact Htv | exact Erest].
Qed.

Lemma gamma_sells_lookup stock_id G S0 options :
  forall n (v : V) sells,
    gamma_sells clock stock_id G S0 n v options = Some sells ->
    length sells = length options
    /\ forall i id o,
        options !! i = Some (id, o) ->
        exists x,
          best_ask_price (replay (take i sells) v) stock_id = Some x
          /\ sells !! i
             = Some (InsertOrder id x
                       (PyFloat (fdiv G (gamma S0 (strike o)
                                       (time_to_expiry_at clock (i + n) o)
                                       interest_rate volatility)))
                       ask limit).
Proof.
  induction options as [| [id0 o0] rest IH]; intros n v sells Hsells.
  - simpl in Hsells. injection Hsells as <-. split; [reflexivity |].
    intros i id o Hi. discriminate Hi.
  - simpl in Hsells.
    destruct (Qeq_bool _ 0) eqn:Eg; [discriminate Hsells |].
    destruct (best_ask_price v stock_id) as [x |] eqn:Ea; [| discriminate Hsells].
    match type of Hsells with
    | match ?t with _ => _ end = _ => destruct t as [evs |] eqn:Erest
    end; [| discriminate Hsells].
    injection Hsells as <-.
    destruct (IH _ _ _ Erest) as [Hlen Hnth].
    split; [simpl; now rewrite Hlen |].
    intros [| i] id o Hi.
    + injection Hi as <- <-. exists x. split; [exact Ea | reflexivity].
    + destruct (Hnth i id o Hi) as (y & Hy & Hsell).
      exists y. split; [exact Hy |].
      simpl. rewrite Hsell. now rewrite Nat.add_succ_r.
Qed.

(** The stages of the gamma hedge, as the code has them. It runs the
    delta hedge, then adds to the raw stock position the gamma of every
    option times its position, gamma being evaluated at the module-level
    [theoretical_value] and not at the stock value; then it submits for
    every option of the chain, in order, a limit sell at the best ask of
    the underlying sized [aggregate_gamma / gamma(option)], a float; and
    finally it runs the delta hedge again from the state so reached. *)
Theorem hedge_gamma_position_stages stock_id options S0 (w w1 : World)
    p value G sells :
  hedge_delta_position clock stock_id options S0 w = (w1, inr tt) ->
  get_positions (venue w1) !! stock_id = Some p ->
  theoretical_value w1 = Some value ->
  exposure (BS_gamma_at clock value) (get_positions (venue w1))
    (clock_reads w1) (inject_Z p) options = Some G ->
  gamma_sells clock stock_id G value (length options + clock_reads w1)
    (venue w1) options = Some sells ->
  exists written,
    Forall (fun e => is_print e = true) written
    /\ hedge_gamma_position clock stock_id options S0 w
       = hedge_delta_position clock stock_id options S0
           (advance w1 (written ++ sells) (length options + length options))
    /\ orders_in (written ++ sells) = sells
    /\ length sells = length options
    /\ forall i id o,
        options !! i = Some (id, o) ->
        exists x,
          best_ask_price (replay (take i sells) (venue w1)) stock_id = Some x
          /\ sells !! i
             = Some (InsertOrder id x
                       (PyFloat
                          (fdiv G
                             (gamma value (strike o)
                                (time_to_expiry_at clock
                                   (i + (length options + clock_reads w1)) o)
                                interest_rate volatility)))
                       ask limit).
Proof.
  intros Hdelta Hp Hvalue Hexp Hsells.
  unfold hedge_gamma_position.
  run Hdelta.
  run (get_positions_run w1).
  run (subscript_run _ _ _ w1 Hp).
  match goal with
  | |- context [for_fold options _ ?body] =>
      pose proof (fun Hb =>
        for_fold_exposure (BS_gamma_at clock value) (get_positions (venue w1))
          (Some value) MsgTotalGamma body Hb options (inject_Z p)
          None w1 G Hvalue Hexp) as Hloop
  end.
  destruct Hloop as (pre & Hpre & Hloop & _).
  { intros total bound i x w0 pos g Hpos Hg Hv0.
    injection Hg as <-.
    eexists. split; [| cbv beta iota zeta].
    2: { run (subscript_run _ _ _ w0 Hpos).
         run (emit_run (Print (MsgOptionPosition i pos)) w0).
         erewrite bind_ok; [| apply global_theoretical_value_run; exact Hv0].
         erewrite bind_ok; [| apply calculate_current_time_to_date_run].
         rewrite advance_advance.
         do 2 (erewrite bind_ok; [| apply print_advance]).
         reflexivity. }
    repeat apply Forall_print_snoc. repeat constructor. }
  run Hloop.
  run (subscript_run _ _ _ (advance w1 pre (length options)) Hp).
  run (print_advance (MsgStockPosition stock_id p) w1 pre (length options)).
  assert (Hwritten := Forall_print_snoc pre (MsgStockPosition stock_id p) Hpre).
  set (written := pre ++ [Print (MsgStockPosition stock_id p)]) in *.
  assert (Hvenue : venue (advance w1 written (length options)) = venue w1).
  { simpl. apply replay_silent.
    exact (Forall_weaken _ _ _ print_is_silent Hwritten). }
  exists written. split; [exact Hwritten |].
  split; [| split; [| exact (gamma_sells_lookup _ _ _ _ _ _ _ Hsells)]].
  - match goal with
    | |- context [for_each options ?body] =>
        pose proof (fun Hb =>
          for_each_gamma_sells stock_id G value body Hb options
            (advance w1 written (length options)) sells Hvalue) as Hsell
    end.
    rewrite Hvenue in Hsell. specialize (Hsell) with (2 := Hsells).
    erewrite bind_ok; [| apply Hsell].
    + now rewrite advance_advance.
    + intros i x w0 a Hv0 Hg Ha.
      destruct (best_ask_price_book _ _ _ Ha) as (b & bs & a0 & as' & Hbook & <-).
      erewrite bind_ok; [| apply global_theoretical_value_run; exact Hv0].
      erewrite bind_ok; [| apply calculate_current_time_to_date_run].
      unfold time_to_expiry_at in Hg. unfold truediv. rewrite Hg.
      erewrite bind_ok; [| reflexivity].
      erewrite bind_ok; [| apply get_book_run].
      simpl venue. change (replay [] (venue w0)) with (venue w0).
      rewrite Hbook.
      do 4 (erewrite bind_ok; [| reflexivity]).
      cbn [asks]. cbv zeta. now rewrite insert_advance.
  - rewrite orders_in_app, (orders_in_prints written Hwritten). simpl.
    clear - Hsells. revert Hsells. generalize (length options + clock_reads w1)%nat.
    generalize (venue w1). revert sells.
    induction options as [| [id o] rest IH]; intros sells v n Hsells.
    + simpl in Hsells. now injection Hsells as <-.
    + simpl in Hsells.
      destruct (Qeq_bool _ 0); [discriminate Hsells |].
      destruct (best_ask_price v stock_id); [| discriminate Hsells].
      match type of Hsells with
      | match ?t with _ => _ end = _ => destruct t as [evs |] eqn:Erest
      end; [| discriminate Hsells].
      injection Hsells as <-. simpl. f_equal. exact (IH _ _ _ Erest).
Qed.


(** *** The vega stage *)





(** *** Further properties of tick rounding *)

Lemma Qfloor_ceiling_gap (q : Q) :
  Qceiling q = Qfloor q \/ Qceiling q = Qfloor q + 1.
Proof.
  pose proof (Qfloor_le q) as Hf. pose proof (Qlt_floor q) as Hf'.
  pose proof (Qle_ceiling q) as Hc. pose proof (Qceiling_lt q) as Hc'.
  assert (H1 : Qfloor q <= Qceiling q).
  { rewrite Zle_Qle. eapply Qle_trans; eassumption. }
  assert (H2 : Qceiling q - 1 < Qfloor q + 1).
  { rewrite Zlt_Qlt. eapply Qlt_trans; eassumption. }
  lia.
Qed.

(** A price whose quotient by the tick the machine computes as a whole
    number [k] is rounded down and up to one and the same price, the
    product of [k] and the tick as the machine computes it. *)
Theorem tick_rounding_fixes_grid (k : Z) (x tick : Q) :
  ~ (tick == 0)%Q ->
  (fdiv x tick == inject_Z k)%Q ->
  round_down_to_tick x tick = inr (fmul (of_int k) tick)
  /\ round_up_to_tick x tick = inr (fmul (of_int k) tick).
Proof.
  intros Htick Hq.
  rewrite (round_down_to_tick_run _ _ Htick), (round_up_to_tick_run _ _ Htick).
  rewrite (Qfloor_comp _ _ Hq), (Qceiling_comp _ _ Hq).
  now rewrite Qfloor_Z, Qceiling_Z.
Qed.

(** The two roundings of a price are the products, as the machine
    computes them, of the tick with one whole number or with two
    consecutive ones: they are the same grid point or neighbours on the
    grid. *)
Theorem tick_rounding_gap (x tick : Q) :
  ~ (tick == 0)%Q ->
  exists n,
    round_down_to_tick x tick = inr (fmul (of_int n) tick)
    /\ (round_up_to_tick x tick = inr (fmul (of_int n) tick)
        \/ round_up_to_tick x tick = inr (fmul (of_int (n + 1)) tick)).
Proof.
  intros Htick. exists (Qfloor (fdiv x tick)).
  rewrite (round_down_to_tick_run _ _ Htick), (round_up_to_tick_run _ _ Htick).
  split; [reflexivity |].
  destruct (Qfloor_ceiling_gap (fdiv x tick)) as [-> | ->]; auto.
Qed.

(** For a positive tick both roundings are monotone in the price. *)
Theorem tick_rounding_monotone (x y tick : Q) :
  (0 < tick)%Q -> (x <= y)%Q ->
  exists dx dy ux uy,
    round_down_to_tick x tick = inr dx /\ round_down_to_tick y tick = inr dy
    /\ round_up_to_tick x tick = inr ux /\ round_up_to_tick y tick = inr uy
    /\ (dx <= dy)%Q /\ (ux <= uy)%Q.
Proof.
  intros Htick Hxy.
  assert (Hnz : ~ (tick == 0)%Q) by (intros E; rewrite E in Htick; lra).
  pose proof (fdiv_mono x y tick Htick Hxy) as Hq.
  eexists _, _, _, _.
  split; [now apply round_down_to_tick_run |].
  split; [now apply round_down_to_tick_run |].
  split; [now apply round_up_to_tick_run |].
  split; [now apply round_up_to_tick_run |].
  split; apply fmul_mono_l; try exact Htick; apply of_int_mono.
  - now apply Qfloor_resp_le.
  - now apply Qceiling_resp_le.
Qed.


(** *** Further properties of the pricing helpers *)

(** On a two-sided book that is not crossed the midpoint lies between
    the best bid and the best ask, and reading it changes nothing. *)
Theorem get_midpoint_value_between i (w : World) b bs a as' :
  get_last_price_book (venue w) i
  = Some {| bids := b :: bs; asks := a :: as' |} ->
  (price b <= price a)%Q ->
  exists mid,
    get_midpoint_value i w = (w, inr (Some mid))
    /\ (price b <= mid)%Q /\ (mid <= price a)%Q.
Proof.
  intros Hbook Hle. exists ((price b + price a) / 2)%Q.
  rewrite get_midpoint_value_run, Hbook.
  split; [reflexivity |]. split.
  - apply Qle_shift_div_l; lra.
  - apply Qle_shift_div_r; lra.
Qed.

(** The time to expiry falls strictly as the reference time advances,
    is zero exactly at expiry, and is one for an expiry 365 days
    ahead. *)
Theorem calculate_time_to_date_monotone (expiry_date t1 t2 : datetime) :
  (dt_micros t1 < dt_micros t2
   <-> (calculate_time_to_date expiry_date t2
        < calculate_time_to_date expiry_date t1)%Q)
  /\ ((calculate_time_to_date expiry_date t1 == 0)%Q
      <-> dt_micros expiry_date = dt_micros t1)
  /\ (calculate_time_to_date
        {| dt_micros := dt_micros t1 + 365 * 86400000000 |} t1 == 1)%Q.
Proof.
  unfold calculate_time_to_date, timedelta_truediv, datetime_sub, timedelta_days.
  simpl. split; [| split].
  - unfold Qlt. simpl. lia.
  - unfold Qeq. simpl. lia.
  - unfold Qeq. simpl. lia.
Qed.

(** *** Further properties of requoting *)

Lemma for_each_prints {A} (f : A -> Message) (l : list A) (w : World) evs k :
  for_each l (fun x => print (f x)) (advance w evs k)
  = (advance w (evs ++ map (fun x => Print (f x)) l) k, inr tt).
Proof.
  revert evs. induction l as [| x l IH]; intros evs; simpl.
  - now rewrite app_nil_r.
  - erewrite bind_ok; [| apply print_advance].
    rewrite IH. now rewrite <- app_assoc.
Qed.

Lemma for_each_deletes option_id (l : list (Z * OrderStatus)) (w : World) evs k :
  for_each l (fun '(order_id, order) =>
                bind (print (MsgDeleting option_id order))
                  (fun _ => exchange_delete_order option_id order_id))
    (advance w evs k)
  = (advance w
       (evs ++ flat_map (fun '(order_id, order) =>
                           [Print (MsgDeleting option_id order);
                            DeleteOrder option_id order_id]) l) k, inr tt).
Proof.
  revert evs. induction l as [| [order_id order] l IH]; intros evs; simpl.
  - now rewrite app_nil_r.
  - erewrite bind_ok.
    2: { erewrite bind_ok; [| apply print_advance]. apply emit_advance. }
    rewrite IH. now rewrite <- !app_assoc.
Qed.

Lemma pull_quotes_trace option_id (w : World) :
  pull_quotes option_id w
  = (advance w
       (pull_events option_id (fst (poll_new_trades (venue w) option_id))
          (get_outstanding_orders (snd (poll_new_trades (venue w) option_id))
             option_id)) 0, inr tt).
Proof.
  unfold pull_quotes, pull_events.
  erewrite bind_ok; [| reflexivity].
  change (fst (emit (PollNewTrades option_id) w))
    with (advance w [PollNewTrades option_id] 0).
  erewrite bind_ok; [| apply for_each_prints].
  erewrite bind_ok; [| reflexivity].
  rewrite for_each_deletes.
  assert (Hvenue :
    venue (advance w
             ([PollNewTrades option_id] ++
              map (fun x => Print (MsgTraded option_id x))
                (fst (poll_new_trades (venue w) option_id))) 0)
    = snd (poll_new_trades (venue w) option_id)).
  { simpl. apply replay_silent.
    apply Forall_forall. intros e He. apply list_elem_of_In in He.
    apply in_map_iff in He. now destruct He as (t & <- & _). }
  rewrite Hvenue. now rewrite <- app_assoc.
Qed.


Lemma update_quotes_zero_tick option_id theo credit vol lim tick (w : World) :
  (tick == 0)%Q ->
  update_quotes option_id theo credit vol lim tick w
  = (fst (pull_quotes option_id w), inl ZeroDivisionError).
Proof.
  intros Htick. unfold update_quotes.
  run (pull_quotes_run option_id w).
  unfold round_down_to_tick. now rewrite (truediv_zero _ _ Htick).
Qed.

Lemma pull_events_cancels option_id trades orders :
  List.filter is_cancel (pull_events option_id trades orders)
  = map (fun o => DeleteOrder option_id (fst o)) orders.
Proof.
  unfold pull_events. simpl. rewrite List.filter_app.
  assert (Hprints : List.filter is_cancel
            (map (fun trade => Print (MsgTraded option_id trade)) trades) = []).
  { induction trades as [| t trades IH]; [reflexivity | exact IH]. }
  rewrite Hprints. simpl.
  induction orders as [| [order_id order] orders IH]; [reflexivity |].
  simpl. now rewrite IH.
Qed.

Lemma pull_events_orders option_id trades orders :
  orders_in (pull_events option_id trades orders) = [].
Proof.
  unfold pull_events. simpl. rewrite orders_in_app.
  assert (Hprints : orders_in
            (map (fun trade => Print (MsgTraded option_id trade)) trades) = []).
  { induction trades as [| t trades IH]; [reflexivity | exact IH]. }
  rewrite Hprints. simpl.
  induction orders as [| [order_id order] orders IH]; [reflexivity | exact IH].
Qed.

Lemma quote_events_no_cancel option_id bp ap bv av :
  List.filter is_cancel (quote_events option_id bp ap bv av) = [].
Proof.
  unfold quote_events. destruct (0 <? bv); destruct (0 <? av); reflexivity.
Qed.

Lemma update_quotes_outcome option_id theo credit vol lim tick (w : World) :
  let w1 := fst (pull_quotes option_id w) in
  exists rest,
    fst (update_quotes option_id theo credit vol lim tick w) = advance w1 rest 0
    /\ List.filter is_cancel rest = []
    /\ (length (orders_in rest) <= 2)%nat
    /\ forall i p v s t, In (InsertOrder i p v s t) rest ->
         exists pos, get_positions (venue w1) !! option_id = Some pos
           /\ i = option_id /\ t = limit
           /\ ((s = bid /\ v = PyInt (Z.min vol (lim - pos))
                /\ 0 < Z.min vol (lim - pos))
               \/ (s = ask /\ v = PyInt (Z.min vol (lim + pos))
                   /\ 0 < Z.min vol (lim + pos))).
Proof.
  intros w1. subst w1.
  destruct (Qeq_bool tick 0) eqn:Etick.
  - apply Qeq_bool_eq in Etick.
    rewrite (update_quotes_zero_tick _ _ _ _ _ _ _ Etick).
    exists []. simpl fst. rewrite advance_nil.
    split; [reflexivity |]. split; [reflexivity |]. split; [simpl; lia | easy].
  - assert (Htick : ~ (tick == 0)%Q).
    { intros E. apply Qeq_bool_iff in E. congruence. }
    pose proof (round_down_to_tick_run (fsub theo credit) tick Htick) as Hbp.
    pose proof (round_up_to_tick_run (fadd theo credit) tick Htick) as Hap.
    destruct (get_positions (venue (fst (pull_quotes option_id w))) !! option_id)
      as [pos |] eqn:Epos.
    + rewrite (update_quotes_run _ _ _ _ _ _ _ _ _ _ Hbp Hap Epos).
      eexists. split; [reflexivity |].
      split; [apply quote_events_no_cancel |].
      split.
      { rewrite quote_events_orders, length_app.
        destruct (0 <? _); destruct (0 <? _); simpl; lia. }
      intros i p v s t Hin. exists pos. split; [reflexivity |].
      apply In_quote_events in Hin.
      destruct Hin as (-> & -> & [(-> & _ & -> & Hb) | (-> & _ & -> & Ha)]);
        auto 10.
    + rewrite (update_quotes_no_position _ _ _ _ _ _ _ _ _ Hbp Hap Epos).
      exists []. simpl fst. rewrite advance_nil.
      split; [reflexivity |]. split; [reflexivity |]. split; [simpl; lia | easy].
Qed.

(** Whatever happens afterwards, [update_quotes] first polls the trades
    of the instrument and cancels every order found outstanding, once
    each and in the order of the listing; it cancels nothing else, and
    nothing is inserted before the last cancellation. *)
Theorem update_quotes_cancels_every_order
    option_id theo credit vol lim tick (w : World) :
  let trades := fst (poll_new_trades (venue w) option_id) in
  let orders :=
    get_outstanding_orders (snd (poll_new_trades (venue w) option_id))
      option_id in
  exists pulled rest,
    trace (fst (update_quotes option_id theo credit vol lim tick w))
    = trace w ++ pulled ++ rest
    /\ pulled = pull_events option_id trades orders
    /\ List.filter is_cancel pulled
       = map (fun o => DeleteOrder option_id (fst o)) orders
    /\ orders_in pulled = []
    /\ List.filter is_cancel rest = [].
Proof.
  intros trades orders.
  destruct (update_quotes_outcome option_id theo credit vol lim tick w)
    as (rest & Hw & Hrest & _ & _).
  exists (pull_events option_id trades orders), rest.
  rewrite Hw, (pull_quotes_trace option_id w). simpl.
  split; [now rewrite <- app_assoc |].
  split; [reflexivity |].
  split; [apply pull_events_cancels |].
  split; [apply pull_events_orders | exact Hrest].
Qed.

(** With a tick size of zero [update_quotes] raises
    [ZeroDivisionError] once the outstanding orders have been pulled:
    the instrument is left without quotes. *)
Theorem update_quotes_zero_tick_pulls_only
    option_id theo credit vol lim tick (w : World) :
  (tick == 0)%Q ->
  exists pulled,
    update_quotes option_id theo credit vol lim tick w
    = (advance w pulled 0, inl ZeroDivisionError)
    /\ pulled
       = pull_events option_id (fst (poll_new_trades (venue w) option_id))
           (get_outstanding_orders (snd (poll_new_trades (venue w) option_id))
              option_id)
    /\ orders_in pulled = [].
Proof.
  intros Htick. eexists. split; [| split; [reflexivity |]].
  - rewrite (update_quotes_zero_tick _ _ _ _ _ _ _ Htick).
    now rewrite (pull_quotes_trace option_id w).
  - apply pull_events_orders.
Qed.

(** When the positions read after the pull have no entry for the
    instrument, [update_quotes] raises [KeyError] for it: the orders
    have been pulled and no quote is inserted. *)
Theorem update_quotes_missing_position
    option_id theo credit vol lim tick (w : World) :
  ~ (tick == 0)%Q ->
  get_positions (venue (fst (pull_quotes option_id w))) !! option_id = None ->
  exists pulled,
    update_quotes option_id theo credit vol lim tick w
    = (advance w pulled 0, inl (KeyError option_id))
    /\ pulled
       = pull_events option_id (fst (poll_new_trades (venue w) option_id))
           (get_outstanding_orders (snd (poll_new_trades (venue w) option_id))
              option_id)
    /\ orders_in pulled = [].
Proof.
  intros Htick Hpos. eexists. split; [| split; [reflexivity |]].
  - rewrite (update_quotes_no_position _ _ _ _ _ _ _ _ _
               (round_down_to_tick_run _ _ Htick)
               (round_up_to_tick_run _ _ Htick) Hpos).
    now rewrite (pull_quotes_trace option_id w).
  - apply pull_events_orders.
Qed.

(** [update_quotes] inserts at most one bid and one ask, both limit
    orders on the instrument itself; it inserts no bid once the
    position has reached the limit, no ask once it has reached minus
    the limit, and nothing at all for a target volume that is not
    positive. *)
Theorem update_quotes_respects_limit
    option_id theo credit vol lim tick (w : World) pos :
  get_positions (venue (fst (pull_quotes option_id w))) !! option_id = Some pos ->
  forall new,
    trace (fst (update_quotes option_id theo credit vol lim tick w))
    = trace w ++ new ->
    (length (orders_in new) <= 2)%nat
    /\ (forall i p v s t, In (InsertOrder i p v s t) new ->
          i = option_id /\ t = limit)
    /\ (lim <= pos -> forall i p v t, ~ In (InsertOrder i p v bid t) new)
    /\ (pos <= - lim -> forall i p v t, ~ In (InsertOrder i p v ask t) new)
    /\ (vol <= 0 -> orders_in new = []).
Proof.
  intros Hpos new Htrace.
  destruct (update_quotes_outcome option_id theo credit vol lim tick w)
    as (rest & Hw & _ & Hlen & Hrest).
  rewrite Hw, (pull_quotes_trace option_id w) in Htrace. simpl in Htrace.
  rewrite <- app_assoc in Htrace. apply app_inv_head in Htrace. subst new.
  set (pulled := pull_events _ _ _) in *.
  assert (Hpulled : forall i p v s t, ~ In (InsertOrder i p v s t) pulled).
  { intros i p v s t Hin.
    apply In_orders_in in Hin; [| reflexivity].
    subst pulled. now rewrite pull_events_orders in Hin. }
  assert (Hin : forall i p v s t, In (InsertOrder i p v s t) (pulled ++ rest) ->
            i = option_id /\ t = limit
            /\ ((s = bid /\ 0 < Z.min vol (lim - pos))
                \/ (s = ask /\ 0 < Z.min vol (lim + pos)))).
  { intros i p v s t Hin. apply in_app_or in Hin.
    destruct Hin as [Hin | Hin]; [now apply Hpulled in Hin |].
    destruct (Hrest _ _ _ _ _ Hin) as (pos' & Hpos' & -> & -> & Hside).
    rewrite Hpos in Hpos'. injection Hpos' as <-.
    split; [reflexivity |]. split; [reflexivity |].
    destruct Hside as [(-> & _ & Hb) | (-> & _ & Ha)]; auto. }
  split; [| split; [| split; [| split]]].
  - rewrite orders_in_app. subst pulled. now rewrite pull_events_orders.
  - intros i p v s t Hi. destruct (Hin _ _ _ _ _ Hi) as (-> & -> & _). auto.
  - intros Hlim i p v t Hi.
    destruct (Hin _ _ _ _ _ Hi) as (_ & _ & [(_ & Hb) | (Hs & _)]);
      [lia | discriminate Hs].
  - intros Hlim i p v t Hi.
    destruct (Hin _ _ _ _ _ Hi) as (_ & _ & [(Hs & _) | (_ & Ha)]);
      [discriminate Hs | lia].
  - intros Hvol.
    destruct (orders_in (pulled ++ rest)) as [| e l] eqn:E; [reflexivity |].
    assert (He : In e (orders_in (pulled ++ rest))) by (rewrite E; now left).
    assert (Horder : is_order e = true /\ In e (pulled ++ rest)).
    { clear - He. induction (pulled ++ rest) as [| x xs IH]; [easy |].
      simpl in He. destruct (is_order x) eqn:Ex.
      - destruct He as [<- | He]; [split; [exact Ex | now left] |].
        destruct (IH He). split; [assumption | now right].
      - destruct (IH He). split; [assumption | now right]. }
    destruct Horder as [Ho Hi]. destruct e; try discriminate Ho.
    destruct (Hin _ _ _ _ _ Hi) as (_ & _ & [(_ & Hb) | (_ & Ha)]); lia.
Qed.


(** *** Further properties of the delta hedge *)

Lemma one_of_prints stock_id {A} (m : M A) :
  emitting (V:=V) is_print m -> submits_at_most_one stock_id m.
Proof.
  intros Hm w. destruct (Hm w) as (new & Htr & _ & Hall).
  exists new. split; [exact Htr |]. left. now apply orders_in_prints.
Qed.

Lemma one_bind_quiet stock_id {A B} (m : M A) (k : A -> M B) :
  emitting (V:=V) is_print m ->
  (forall a, submits_at_most_one stock_id (k a)) ->
  submits_at_most_one stock_id (bind m k).
Proof.
  intros Hm Hk w. unfold bind.
  destruct (Hm w) as (pre & Htr & _ & Hall).
  destruct (m w) as [w' [e | a]]; simpl in *.
  - exists pre. split; [exact Htr |]. left. now apply orders_in_prints.
  - destruct (Hk a w') as (new & Htr' & Hnew).
    exists (pre ++ new). split; [now rewrite Htr', Htr, app_assoc |].
    rewrite orders_in_app, (orders_in_prints pre Hall). exact Hnew.
Qed.

Lemma one_insert_print stock_id p v s msg :
  submits_at_most_one (V:=V) stock_id
    (bind (exchange_insert_order stock_id p (PyInt v) s ioc)
       (fun _ => print msg)).
Proof.
  intros w. exists [InsertOrder stock_id p (PyInt v) s ioc; Print msg].
  split; [| right; exists p, v, s; split; [reflexivity | now exists tt]].
  unfold bind. simpl. now rewrite <- app_assoc.
Qed.

Ltac one_order_step :=
  first
    [ apply one_insert_print
    | apply one_bind_quiet; [solve [emitting_auto] | intros ?]
    | apply one_of_prints; solve [emitting_auto]
    | match goal with
      | |- submits_at_most_one _ (match ?x with _ => _ end) => destruct x
      | |- submits_at_most_one _ (let _ := _ in _) => progress cbv zeta
      end ].

Lemma hedge_delta_position_one stock_id options S0 :
  submits_at_most_one (V:=V) stock_id
    (hedge_delta_position clock stock_id options S0).
Proof. unfold hedge_delta_position. repeat one_order_step. Qed.

(** In any state the delta hedge submits either nothing or exactly one
    order, an immediate-or-cancel order on the stock for a whole number
    of lots; when it raises, nothing has been submitted. *)
Theorem hedge_delta_position_at_most_one_order
    stock_id options S0 (w : World) :
  exists new,
    trace (fst (hedge_delta_position clock stock_id options S0 w))
    = trace w ++ new
    /\ (orders_in new = []
        \/ exists p v s,
             orders_in new = [InsertOrder stock_id p (PyInt v) s ioc]
             /\ snd (hedge_delta_position clock stock_id options S0 w) = inr tt).
Proof.
  destruct (hedge_delta_position_one stock_id options S0 w)
    as (new & Htr & [Hnone | (p & v & s & Hone & [[] Hok])]).
  - exists new. split; [exact Htr | now left].
  - exists new. split; [exact Htr |]. right. now exists p, v, s.
Qed.


Lemma for_fold_exposure_fails greek (positions : gmap string Z)
    (tvo : option Q) (final : Q -> Message) (bad : exn -> Prop)
    (body : loop_locals -> string * Instrument -> M loop_locals) :
  (forall total bound id o (w : World) pos g,
      positions !! id = Some pos ->
      greek (clock_reads w) o = Some g ->
      theoretical_value w = tvo ->
      exists evs, Forall (fun e => is_print e = true) evs /\
        body (total, bound) (id, o) w
        = (advance w (evs ++ [Print (final (fadd total (fmul g (of_int pos))))]) 1,
           inr ((fadd total (fmul g (of_int pos))), Some o))) ->
  (forall total bound id o (w : World),
      theoretical_value w = tvo ->
      positions !! id = None \/ greek (clock_reads w) o = None ->
      exists e, snd (body (total, bound) (id, o) w) = inl e /\ bad e) ->
  forall options total bound (w : World),
    theoretical_value w = tvo ->
    exposure greek positions (clock_reads w) total options = None ->
    exists e, snd (for_fold options (total, bound) body w) = inl e /\ bad e.
Proof.
  intros Hok Hfail options.
  induction options as [| [id o] rest IH]; intros total bound w Htv Hexp.
  - discriminate Hexp.
  - simpl in Hexp. simpl.
    destruct (positions !! id) as [pos |] eqn:Epos.
    + destruct (greek (clock_reads w) o) as [g |] eqn:Eg.
      * destruct (Hok total bound id o w pos g Epos Eg Htv) as (evs & _ & Hrun).
        run Hrun. apply IH; [exact Htv | exact Hexp].
      * destruct (Hfail total bound id o w Htv (or_intror Eg)) as (e & He & Hbad).
        exists e. split; [| exact Hbad].
        unfold bind. rewrite (run_pair (body (total, bound) (id, o)) w), He.
        reflexivity.
    + destruct (Hfail total bound id o w Htv (or_introl Epos)) as (e & He & Hbad).
      exists e. split; [| exact Hbad].
      unfold bind. rewrite (run_pair (body (total, bound) (id, o)) w), He.
      reflexivity.
Qed.

Lemma snd_bind_raise {A B} (m : M A) (k : A -> M B) (w : World) e :
  snd (m w) = inl e -> snd (bind m k w) = inl e.
Proof. intros E. unfold bind. rewrite (run_pair m w), E. reflexivity. Qed.

(** If an option of the chain has no entry in the positions, or a kind
    that is neither CALL nor PUT, the delta hedge raises [KeyError] for
    that option, or the unexpected-kind exception, and submits
    nothing. *)
Theorem hedge_delta_position_chain_fault stock_id options S0 (w : World) p :
  get_positions (venue w) !! stock_id = Some p ->
  exposure (BS_delta_at clock S0) (get_positions (venue w)) (clock_reads w)
    (inject_Z p) options = None ->
  exists e new,
    snd (hedge_delta_position clock stock_id options S0 w) = inl e
    /\ chain_fault (get_positions (venue w)) e
    /\ trace (fst (hedge_delta_position clock stock_id options S0 w))
       = trace w ++ new
    /\ orders_in new = [].
Proof.
  intros Hp Hexp.
  assert (Hraise : exists e,
            snd (hedge_delta_position clock stock_id options S0 w) = inl e
            /\ chain_fault (get_positions (venue w)) e).
  { unfold hedge_delta_position.
    run (get_positions_run w).
    run (subscript_run _ _ _ w Hp).
    match goal with
    | |- context [for_fold options _ ?body] =>
        pose proof (fun Hok Hfail =>
          for_fold_exposure_fails (BS_delta_at clock S0)
            (get_positions (venue w)) (theoretical_value w) MsgTotalDelta
            (chain_fault (get_positions (venue w))) body Hok Hfail
            options (inject_Z p) None w eq_refl Hexp) as Hloop
    end.
    destruct Hloop as (e & He & Hbad).
    - intros total bound i x w0 pos g Hpos Hg _.
      eexists. split; [| cbv beta iota zeta].
      2: { run (subscript_run _ _ _ w0 Hpos).
           run (emit_run (Print (MsgOptionPosition i pos)) w0).
           erewrite bind_ok; [| apply calculate_option_delta_run; exact Hg].
           rewrite advance_advance.
           do 3 (erewrite bind_ok; [| apply print_advance]).
           reflexivity. }
      repeat apply Forall_print_snoc. repeat constructor.
    - intros total bound i x w0 _ Hnone. cbv beta iota zeta.
      destruct (get_positions (venue w) !! i) as [pos |] eqn:Epos.
      + destruct Hnone as [Hnone | Hnone]; [discriminate Hnone |].
        unfold BS_delta_at in Hnone.
        destruct (option_kind x) as [[|] | r] eqn:Ekind; try discriminate Hnone.
        exists (UnexpectedOptionKind (OtherValue r)).
        split; [| right; now exists r].
        run (subscript_run _ _ _ w0 Epos).
        run (emit_run (Print (MsgOptionPosition i pos)) w0).
        apply snd_bind_raise. unfold calculate_option_delta.
        erewrite bind_ok; [| apply calculate_current_time_to_date_run].
        reflexivity.
      + exists (KeyError i). split; [| left; now exists i].
        apply snd_bind_raise. now rewrite (subscript_missing _ _ w0 Epos).
    - exists e. split; [| exact Hbad]. now apply snd_bind_raise. }
  destruct Hraise as (e & He & Hbad).
  destruct (hedge_delta_position_one stock_id options S0 w)
    as (new & Htr & [Hnone | (_ & _ & _ & _ & a & Hok)]).
  - now exists e, new.
  - rewrite He in Hok. discriminate Hok.
Qed.

(** The steps of the delta hedge up to the reading of the stock book. *)
Ltac delta_hedge_to_book w p options S0 agg Hp Hexp Hlast Hd pre Hpre :=
  unfold hedge_delta_position;
  run (get_positions_run w);
  run (subscript_run _ _ _ w Hp);
  let Hloop := fresh "Hloop" in
  match goal with
  | |- context [for_fold options _ ?body] =>
      pose proof (fun Hb =>
        for_fold_exposure (BS_delta_at clock S0) (get_positions (venue w))
          (theoretical_value w) MsgTotalDelta body Hb options (inject_Z p)
          None w agg eq_refl Hexp) as Hloop
  end;
  destruct Hloop as (pre & Hpre & Hloop & _);
  [ let total := fresh in let bound := fresh in let i := fresh in
    let x := fresh in let w0 := fresh in let pos := fresh in
    let g := fresh in let Hpos := fresh in let Hg := fresh in
    intros total bound i x w0 pos g Hpos Hg _;
    eexists; split;
    [ | cbv beta iota zeta;
        run (subscript_run _ _ _ w0 Hpos);
        run (emit_run (Print (MsgOptionPosition i pos)) w0);
        (erewrite bind_ok; [| apply calculate_option_delta_run; exact Hg]);
        rewrite advance_advance;
        do 3 (erewrite bind_ok; [| apply print_advance]);
        reflexivity ];
    repeat apply Forall_print_snoc; repeat constructor
  | run Hloop;
    (erewrite bind_ok; [| apply subscript_run; exact Hp]);
    (erewrite bind_ok; [| apply print_advance]);
    (erewrite bind_ok; [| apply subscript_run; exact Hp]);
    rewrite (last_bound_last _ _ _ _ Hlast);
    (erewrite bind_ok; [| reflexivity]);
    (erewrite bind_ok; [| apply calculate_option_delta_run; exact Hd]);
    rewrite advance_advance, app_nil_r;
    (erewrite bind_ok;
       [| apply book_advance_prints; apply Forall_print_snoc; exact Hpre]) ].

(** When the stock book is absent or has an empty side at the time of
    the hedge, the delta hedge raises ([AttributeError] for no book,
    [IndexError] for an empty side) after its aggregation and submits
    nothing, whatever the exposure. *)
Theorem hedge_delta_position_needs_two_sided_book
    stock_id options S0 (w : World) p agg id o d :
  get_positions (venue w) !! stock_id = Some p ->
  exposure (BS_delta_at clock S0) (get_positions (venue w)) (clock_reads w)
    (inject_Z p) options = Some agg ->
  last options = Some (id, o) ->
  BS_delta_at clock S0 (length options + clock_reads w) o = Some d ->
  exists written,
    Forall (fun e => is_print e = true) written
    /\ (get_last_price_book (venue w) stock_id = None ->
        hedge_delta_position clock stock_id options S0 w
        = (advance w written (length options + 1), inl AttributeError))
    /\ (forall book,
          get_last_price_book (venue w) stock_id = Some book ->
          bids book = [] \/ asks book = [] ->
          hedge_delta_position clock stock_id options S0 w
          = (advance w written (length options + 1), inl IndexError)).
Proof.
  intros Hp Hexp Hlast Hd.
  assert (Hprefix : exists written,
    Forall (fun e => is_print e = true) written
    /\ forall r,
        match get_last_price_book (venue w) stock_id with
        | None => r = inl AttributeError
        | Some {| bids := []; asks := _ |} => r = inl IndexError
        | Some {| bids := _ :: _; asks := [] |} => r = inl IndexError
        | Some _ => False
        end ->
        hedge_delta_position clock stock_id options S0 w
        = (advance w written (length options + 1), r)).
  { delta_hedge_to_book w p options S0 agg Hp Hexp Hlast Hd pre Hpre.
    exists (pre ++ [Print (MsgStockPosition stock_id p)]).
    split; [now apply Forall_print_snoc |].
    intros r Hr.
    destruct (get_last_price_book (venue w) stock_id)
      as [[[| b bs] [| a as']] |]; try contradiction; subst r.
    - erewrite bind_ok; [| reflexivity]. reflexivity.
    - erewrite bind_ok; [| reflexivity]. reflexivity.
    - do 3 (erewrite bind_ok; [| reflexivity]). reflexivity.
    - reflexivity. }
  destruct Hprefix as (written & Hwritten & Hrun).
  exists written. split; [exact Hwritten |]. split.
  - intros Hbook. apply Hrun. now rewrite Hbook.
  - intros book Hbook Hside. apply Hrun. rewrite Hbook.
    destruct book as [[| b bs] [| a as']]; simpl in Hside;
      try reflexivity; destruct Hside; discriminate.
Qed.

Lemma int_of_zero x : (x == 0)%Q -> int_of x = 0.
Proof.
  unfold Qeq, int_of. simpl. intros E.
  replace (Qnum x) with 0 by lia. apply Z.quot_0_l. lia.
Qed.

Lemma hedge_size_flat d : (hedge_size 0 d == 0)%Q.
Proof.
  unfold hedge_size, fmul, of_int. change (inject_Z (-1 * 0)) with 0%Q.
  assert (E : (rnd 0 * d == 0)%Q) by (rewrite rnd_zero; ring).
  rewrite (rnd_proper _ _ E). apply rnd_zero.
Qed.

(** With no stock held the hedge size is zero: whatever the aggregate
    delta of the options, the order the delta hedge sends has volume
    zero. *)
Theorem hedge_delta_position_flat_stock stock_id options S0 (w : World)
    agg id o d b bs a as' :
  get_positions (venue w) !! stock_id = Some 0 ->
  exposure (BS_delta_at clock S0) (get_positions (venue w)) (clock_reads w)
    (inject_Z 0) options = Some agg ->
  last options = Some (id, o) ->
  BS_delta_at clock S0 (length options + clock_reads w) o = Some d ->
  get_last_price_book (venue w) stock_id
    = Some {| bids := b :: bs; asks := a :: as' |} ->
  exists new,
    hedge_delta_position clock stock_id options S0 w
    = (advance w new (length options + 1), inr tt)
    /\ ((agg < 0)%Q ->
        orders_in new = [InsertOrder stock_id (price a) (PyInt 0) bid ioc])
    /\ ((0 < agg)%Q ->
        orders_in new = [InsertOrder stock_id (price b) (PyInt 0) ask ioc]).
Proof.
  intros Hp Hexp Hlast Hd Hbook.
  destruct (hedge_delta_position_run _ _ _ _ _ _ _ _ _ _ _ _ _
              Hp Hexp Hlast Hd Hbook) as (pre & Hpre & Hrun).
  eexists. split; [exact Hrun |].
  rewrite orders_in_app, (orders_in_prints pre Hpre), hedge_events_orders.
  simpl app.
  assert (Hzero : forall c : bool,
            -1 * int_of (if c then hedge_size 0 d else 0%Q) = 0).
  { intros [|]; [| reflexivity]. now rewrite (int_of_zero _ (hedge_size_flat d)). }
  rewrite !Hzero. split.
  - intros Hneg. now rewrite (Qlt_bool_true _ _ Hneg).
  - intros Hpos. now rewrite (Qlt_bool_false agg 0), (Qlt_bool_true _ _ Hpos) by lra.
Qed.


(** *** Further properties of the gamma hedge and of the vega stage *)

Lemma for_each_gamma_sells_fault stock_id G S0
    (body : string * Instrument -> M unit) :
  (forall id o (w : World) x,
      theoretical_value w = Some S0 ->
      Qeq_bool (gamma S0 (strike o) (time_to_expiry_at clock (clock_reads w) o)
                  interest_rate volatility) 0 = false ->
      best_ask_price (venue w) stock_id = Some x ->
      body (id, o) w
      = (advance w
           [InsertOrder id x
              (PyFloat (fdiv G (gamma S0 (strike o)
                              (time_to_expiry_at clock (clock_reads w) o)
                              interest_rate volatility))) ask limit] 1,
         inr tt)) ->
  (forall id o (w : World),
      theoretical_value w = Some S0 ->
      Qeq_bool (gamma S0 (strike o) (time_to_expiry_at clock (clock_reads w) o)
                  interest_rate volatility) 0 = true ->
      body (id, o) w = (advance w [] 1, inl ZeroDivisionError)) ->
  forall served id o rest (w : World) sells,
    theoretical_value w = Some S0 ->
    gamma_sells clock stock_id G S0 (clock_reads w) (venue w) served
    = Some sells ->
    Qeq_bool (gamma S0 (strike o)
                (time_to_expiry_at clock (length served + clock_reads w) o)
                interest_rate volatility) 0 = true ->
    for_each (served ++ (id, o) :: rest) body w
    = (advance w sells (length served + 1), inl ZeroDivisionError).
Proof.
  intros Hok Hfault served.
  induction served as [| [i x] served IH]; intros id o rest w sells Htv Hsells Hzero.
  - simpl in Hsells. injection Hsells as <-. simpl.
    erewrite bind_raise; [reflexivity | now apply Hfault].
  - simpl in Hsells.
    destruct (Qeq_bool _ 0) eqn:Eg; [discriminate Hsells |].
    destruct (best_ask_price (venue w) stock_id) as [y |] eqn:Ea;
      [| discriminate Hsells].
    match type of Hsells with
    | match ?t with _ => _ end = _ => destruct t as [evs |] eqn:Erest
    end; [| discriminate Hsells].
    injection Hsells as <-.
    simpl. run (Hok i x w y Htv Eg Ea).
    rewrite (IH id o rest _ evs).
    + now rewrite advance_advance.
    + exact Htv.
    + exact Erest.
    + simpl. rewrite <- Hzero. do 3 f_equal. simpl. lia.
Qed.

(** When the gamma of an option is zero the gamma hedge raises
    [ZeroDivisionError] at that option: the sell orders for the options
    before it in the chain have been submitted and stay so, none is
    submitted for it or for the later ones, and the closing delta hedge
    is not run. *)
Theorem hedge_gamma_position_zero_gamma stock_id served id o rest S0
    (w w1 : World) p value G sells :
  let options := served ++ (id, o) :: rest in
  hedge_delta_position clock stock_id options S0 w = (w1, inr tt) ->
  get_positions (venue w1) !! stock_id = Some p ->
  theoretical_value w1 = Some value ->
  exposure (BS_gamma_at clock value) (get_positions (venue w1))
    (clock_reads w1) (inject_Z p) options = Some G ->
  gamma_sells clock stock_id G value (length options + clock_reads w1)
    (venue w1) served = Some sells ->
  (gamma value (strike o)
     (time_to_expiry_at clock
        (length served + (length options + clock_reads w1)) o)
     interest_rate volatility == 0)%Q ->
  exists written,
    Forall (fun e => is_print e = true) written
    /\ hedge_gamma_position clock stock_id options S0 w
       = (advance w1 (written ++ sells) (length options + (length served + 1)),
          inl ZeroDivisionError)
    /\ orders_in (written ++ sells) = orders_in sells
    /\ length sells = length served.
Proof.
  intros options Hdelta Hp Hvalue Hexp Hsells Hzero.
  apply Qeq_bool_iff in Hzero.
  unfold hedge_gamma_position.
  run Hdelta.
  run (get_positions_run w1).
  run (subscript_run _ _ _ w1 Hp).
  match goal with
  | |- context [for_fold options _ ?body] =>
      pose proof (fun Hb =>
        for_fold_exposure (BS_gamma_at clock value) (get_positions (venue w1))
          (Some value) MsgTotalGamma body Hb options (inject_Z p)
          None w1 G Hvalue Hexp) as Hloop
  end.
  destruct Hloop as (pre & Hpre & Hloop & _).
  { intros total bound i x w0 pos g Hpos Hg Hv0.
    injection Hg as <-.
    eexists. split; [| cbv beta iota zeta].
    2: { run (subscript_run _ _ _ w0 Hpos).
         run (emit_run (Print (MsgOptionPosition i pos)) w0).
         erewrite bind_ok; [| apply global_theoretical_value_run; exact Hv0].
         erewrite bind_ok; [| apply calculate_current_time_to_date_run].
         rewrite advance_advance.
         do 2 (erewrite bind_ok; [| apply print_advance]).
         reflexivity. }
    repeat apply Forall_print_snoc. repeat constructor. }
  run Hloop.
  run (subscript_run _ _ _ (advance w1 pre (length options)) Hp).
  run (print_advance (MsgStockPosition stock_id p) w1 pre (length options)).
  assert (Hwritten := Forall_print_snoc pre (MsgStockPosition stock_id p) Hpre).
  set (written := pre ++ [Print (MsgStockPosition stock_id p)]) in *.
  assert (Hvenue : venue (advance w1 written (length options)) = venue w1).
  { simpl. apply replay_silent.
    exact (Forall_weaken _ _ _ print_is_silent Hwritten). }
  exists written. split; [exact Hwritten |].
  split; [| split].
  - match goal with
    | |- context [for_each options ?body] =>
        pose proof (fun Hok Hfault =>
          for_each_gamma_sells_fault stock_id G value body Hok Hfault
            served id o rest (advance w1 written (length options)) sells
            Hvalue) as Hsell
    end.
    rewrite Hvenue in Hsell. specialize (Hsell) with (3 := Hsells) (4 := Hzero).
    erewrite bind_raise; [| apply Hsell].
    + now rewrite advance_advance.
    + intros i x w0 a Hv0 Hg Ha.
      destruct (best_ask_price_book _ _ _ Ha) as (b & bs & a0 & as' & Hbook & <-).
      erewrite bind_ok; [| apply global_theoretical_value_run; exact Hv0].
      erewrite bind_ok; [| apply calculate_current_time_to_date_run].
      unfold time_to_expiry_at in Hg. unfold truediv. rewrite Hg.
      erewrite bind_ok; [| reflexivity].
      erewrite bind_ok; [| apply get_book_run].
      simpl venue. change (replay [] (venue w0)) with (venue w0).
      rewrite Hbook.
      do 4 (erewrite bind_ok; [| reflexivity]).
      cbn [asks]. cbv zeta. now rewrite insert_advance.
    + intros i x w0 Hv0 Hg.
      erewrite bind_ok; [| apply global_theoretical_value_run; exact Hv0].
      erewrite bind_ok; [| apply calculate_current_time_to_date_run].
      unfold time_to_expiry_at in Hg. unfold truediv. rewrite Hg.
      reflexivity.
  - now rewrite orders_in_app, (orders_in_prints written Hwritten).
  - exact (proj1 (gamma_sells_lookup _ _ _ _ _ _ _ Hsells)).
Qed.

(** The vega stage reads the kind of the last option of the chain only:
    it returns normally when that kind is CALL or PUT and raises the
    unexpected-kind exception otherwise, whatever the kinds of the
    other options. *)
Theorem hedge_vega_position_outcome stock_id options S0 (w : World)
    p value total id o :
  get_positions (venue w) !! stock_id = Some p ->
  theoretical_value w = Some value ->
  exposure (BS_vega_at clock value) (get_positions (venue w))
    (clock_reads w) (inject_Z p) options = Some total ->
  last options = Some (id, o) ->
  snd (hedge_vega_position clock stock_id options S0 w)
  = match option_kind o with
    | Kind _ => inr tt
    | OtherValue r => inl (UnexpectedOptionKind (OtherValue r))
    end.
Proof.
  intros Hp Hvalue Hexp Hlast.
  unfold hedge_vega_position.
  run (get_positions_run w).
  run (subscript_run _ _ _ w Hp).
  match goal with
  | |- context [for_fold options _ ?body] =>
      pose proof (fun Hb =>
        for_fold_exposure (BS_vega_at clock value) (get_positions (venue w))
          (Some value) MsgTotalVega body Hb options (inject_Z p)
          None w total Hvalue Hexp) as Hloop
  end.
  destruct Hloop as (pre & Hpre & Hloop & _).
  { intros acc bound i x w0 pos g Hpos Hg Hv0.
    injection Hg as <-.
    eexists. split; [| cbv beta iota zeta].
    2: { run (subscript_run _ _ _ w0 Hpos).
         run (emit_run (Print (MsgOptionPosition i pos)) w0).
         erewrite bind_ok; [| apply global_theoretical_value_run; exact Hv0].
         erewrite bind_ok; [| apply calculate_current_time_to_date_run].
         rewrite advance_advance.
         do 3 (erewrite bind_ok; [| apply print_advance]).
         reflexivity. }
    repeat apply Forall_print_snoc. repeat constructor. }
  run Hloop.
  erewrite bind_ok; [| apply subscript_run; exact Hp].
  erewrite bind_ok; [| apply print_advance].
  erewrite bind_ok; [| apply subscript_run; exact Hp].
  rewrite (last_bound_last _ _ _ _ Hlast).
  erewrite bind_ok; [| reflexivity].
  destruct (option_kind o) as [[|] | r] eqn:Ekind.
  - rewrite <- Ekind. erewrite bind_ok; [reflexivity |].
    apply calculate_option_delta_run. unfold BS_delta_at. now rewrite Ekind.
  - rewrite <- Ekind. erewrite bind_ok; [reflexivity |].
    apply calculate_option_delta_run. unfold BS_delta_at. now rewrite Ekind.
  - apply snd_bind_raise. unfold calculate_option_delta.
    erewrite bind_ok; [| apply calculate_current_time_to_date_run].
    reflexivity.
Qed.


(** *** Further properties of the trade loop *)

Lemma get_midpoint_value_none i (w w0 : World) :
  no_midpoint (get_last_price_book (venue w) i) ->
  venue w0 = venue w ->
  get_midpoint_value i w0 = (w0, inr None).
Proof.
  intros Hnone Hv. rewrite get_midpoint_value_run, Hv.
  destruct Hnone as [-> | (book & -> & Hside)]; [reflexivity |].
  destruct book as [[| b bs] [| a as']]; simpl in Hside;
    try reflexivity; destruct Hside; discriminate.
Qed.

Lemma get_midpoint_value_some i (w w0 : World) b bs a as' :
  get_last_price_book (venue w) i
  = Some {| bids := b :: bs; asks := a :: as' |} ->
  venue w0 = venue w ->
  get_midpoint_value i w0 = (w0, inr (Some ((price b + price a) / 2)%Q)).
Proof. intros Hbook Hv. now rewrite get_midpoint_value_run, Hv, Hbook. Qed.

Lemma trade_loop_iteration_idle STOCK_ID options (w : World) :
  no_midpoint (get_last_price_book (venue w) STOCK_ID) ->
  trade_loop_iteration clock STOCK_ID options w
  = (advance w (idle_pass (clock (clock_reads w))) 1, inr tt).
Proof.
  intros Hnone. unfold trade_loop_iteration.
  run (emit_run (Print MsgBlank) w).
  erewrite bind_ok; [| apply print_advance].
  erewrite bind_ok; [| apply now_run].
  rewrite advance_advance.
  do 2 (erewrite bind_ok; [| apply print_advance]).
  erewrite bind_ok;
    [| apply (get_midpoint_value_none _ w); [exact Hnone | reflexivity]].
  cbv beta iota.
  erewrite bind_ok; [| apply print_advance].
  unfold sleep. now rewrite emit_advance.
Qed.

(** As long as the venue shows no two-sided book for the underlying,
    every pass of the loop is an idle one: [n] passes write their
    banners, sleep 4 seconds each, read the clock once each, submit and
    cancel nothing, and leave the venue and the last theoretical value
    as they were. *)
Theorem trade_loop_idles n STOCK_ID options (w : World) :
  no_midpoint (get_last_price_book (venue w) STOCK_ID) ->
  let idle := idle_passes clock n (clock_reads w) in
  trade_loop clock n STOCK_ID options w = (advance w idle n, inr tt)
  /\ Forall (fun e => is_silent e = true) idle
  /\ venue (advance w idle n) = venue w.
Proof.
  intros Hnone idle. subst idle.
  assert (Hsilent : forall m k,
            Forall (fun e => is_silent e = true) (idle_passes clock m k)).
  { induction m as [| m IH]; intros k; simpl; [constructor |].
    repeat (constructor; [reflexivity |]). apply IH. }
  split; [| split; [apply Hsilent | apply replay_silent, Hsilent]].
  revert w Hnone. induction n as [| n IH]; intros w Hnone.
  - simpl. now rewrite advance_nil.
  - simpl trade_loop.
    run (trade_loop_iteration_idle STOCK_ID options w Hnone).
    rewrite (IH (advance w (idle_pass (clock (clock_reads w))) 1) Hnone).
    now rewrite advance_advance.
Qed.

Lemma hedge_delta_position_nil stock_id S0 (w : World) p :
  get_positions (venue w) !! stock_id = Some p ->
  hedge_delta_position clock stock_id [] S0 w
  = (advance w [Print (MsgStockPosition stock_id p)] 0,
     inl (UnboundLocalError "option")).
Proof.
  intros Hp. unfold hedge_delta_position.
  run (get_positions_run w).
  run (subscript_run _ _ _ w Hp).
  erewrite bind_ok; [| reflexivity].
  cbv beta iota.
  run (subscript_run _ _ _ w Hp).
  run (emit_run (Print (MsgStockPosition stock_id p)) w).
  erewrite bind_ok; [| apply subscript_run; exact Hp].
  reflexivity.
Qed.

(** With an empty option chain the loop does not survive its first pass
    that finds a midpoint: the pass quotes nothing, enters the hedging
    phase and raises [UnboundLocalError] for the name [option] out of
    the delta hedge, with no order submitted, and the loop ends there
    however many passes were to follow. *)
Theorem trade_loop_empty_chain n STOCK_ID (w : World) p b bs a as' :
  get_last_price_book (venue w) STOCK_ID
  = Some {| bids := b :: bs; asks := a :: as' |} ->
  get_positions (venue w) !! STOCK_ID = Some p ->
  let written :=
    [Print MsgBlank; Print MsgRule;
     Print (MsgIterationEntered (clock (clock_reads w)));
     Print MsgRule; Print MsgHedgingDelta;
     Print (MsgStockPosition STOCK_ID p)] in
  trade_loop clock (S n) STOCK_ID [] w
  = (advance w written 1, inl (UnboundLocalError "option"))
  /\ venue (advance w written 1) = venue w.
Proof.
  intros Hbook Hp written. split; [| reflexivity].
  simpl trade_loop. apply bind_raise.
  unfold trade_loop_iteration.
  run (emit_run (Print MsgBlank) w).
  erewrite bind_ok; [| apply print_advance].
  erewrite bind_ok; [| apply now_run].
  rewrite advance_advance.
  do 2 (erewrite bind_ok; [| apply print_advance]).
  erewrite bind_ok;
    [| eapply (get_midpoint_value_some _ w); [exact Hbook | reflexivity]].
  cbv beta iota.
  erewrite bind_ok; [| reflexivity].
  erewrite bind_ok; [| apply print_advance].
  apply bind_raise. unfold hedge_gamma_position. apply bind_raise.
  erewrite hedge_delta_position_nil; [| exact Hp].
  now rewrite advance_advance.
Qed.


Lemma emitting_bind_result P {A B} (m : M A) (k : A -> M B) :
  emitting (V:=V) P m ->
  (forall a, (exists w, snd (m w) = inr a) -> emitting P (k a)) ->
  emitting P (bind m k).
Proof.
  intros Hm Hk w. unfold bind. specialize (Hm w).
  destruct (m w) as [w' [e | a]] eqn:E; simpl in *; [exact Hm |].
  eapply extends_trans; [exact Hm |]. apply Hk.
  exists w. now rewrite E.
Qed.

Lemma emitting_for_each_in P {A} (l : list A) (body : A -> M unit) :
  (forall x, In x l -> emitting (V:=V) P (body x)) ->
  emitting P (for_each l body).
Proof.
  induction l as [| x l IH]; intros Hb; simpl.
  - apply emitting_ret.
  - apply emitting_bind; [apply Hb; now left |].
    intros _. apply IH. intros y Hy. apply Hb. now right.
Qed.

Lemma on_chain_In options i (o : Instrument) :
  In (i, o) options -> on_chain options i = true.
Proof.
  intros Hin. unfold on_chain. apply existsb_exists.
  exists (i, o). split; [exact Hin | apply String.eqb_refl].
Qed.

Lemma on_chain_fst options i :
  on_chain options i = true -> In i (map fst options).
Proof.
  unfold on_chain. intros Hex. apply existsb_exists in Hex.
  destruct Hex as (x & Hin & Heq). apply String.eqb_eq in Heq. subst i.
  now apply in_map.
Qed.

Lemma update_quotes_pass_events STOCK_ID options option_id theo credit tick :
  on_chain options option_id = true ->
  emitting (V:=V) (pass_event STOCK_ID options)
    (update_quotes option_id theo credit 5 100 tick).
Proof.
  intros Hchain.
  unfold update_quotes.
  apply emitting_bind.
  { unfold pull_quotes.
    apply emitting_bind; [apply emitting_poll; exact Hchain | intros trades].
    apply emitting_bind; [emitting_auto | intros _].
    apply emitting_bind; [emitting_auto | intros orders].
    apply emitting_for_each. intros [order_id order].
    apply emitting_bind; [emitting_auto | intros _].
    apply emitting_emit. exact Hchain. }
  intros _.
  apply emitting_bind; [emitting_auto | intros bid_price].
  apply emitting_bind; [emitting_auto | intros ask_price].
  apply emitting_bind; [emitting_auto | intros positions].
  apply emitting_bind; [emitting_auto | intros position].
  cbv zeta.
  apply emitting_bind; [| intros _].
  - destruct (0 <? Z.min 5 (100 - position)) eqn:Ebid; [| emitting_auto].
    apply emitting_bind; [emitting_auto | intros _].
    apply emitting_emit. simpl.
    rewrite Hchain, Ebid.
    apply Z.leb_le. lia.
  - destruct (0 <? Z.min 5 (100 + position)) eqn:Eask; [| emitting_auto].
    apply emitting_bind; [emitting_auto | intros _].
    apply emitting_emit. simpl.
    rewrite Hchain, Eask.
    apply Z.leb_le. lia.
Qed.

Lemma hedge_delta_position_pass_events STOCK_ID options chain S0 :
  emitting (V:=V) (pass_event STOCK_ID chain)
    (hedge_delta_position clock STOCK_ID options S0).
Proof.
  unfold hedge_delta_position.
  repeat first
    [ emitting_step
    | apply emitting_emit; simpl; apply String.eqb_refl ].
Qed.

Lemma hedge_gamma_position_pass_events STOCK_ID options S0 :
  emitting (V:=V) (pass_event STOCK_ID options)
    (hedge_gamma_position clock STOCK_ID options S0).
Proof.
  unfold hedge_gamma_position.
  apply emitting_bind; [apply hedge_delta_position_pass_events | intros _].
  apply emitting_bind; [emitting_auto | intros positions].
  apply emitting_bind; [emitting_auto | intros p].
  apply emitting_bind; [emitting_auto | intros [total bound]].
  apply emitting_bind; [emitting_auto | intros p'].
  apply emitting_bind; [emitting_auto | intros _].
  apply emitting_bind; [| intros _; apply hedge_delta_position_pass_events].
  apply emitting_for_each_in. intros [option_id option] Hin.
  pose proof (on_chain_In _ _ _ Hin) as Hchain.
  repeat first [ emitting_step | apply emitting_emit; simpl; exact Hchain ].
Qed.

Lemma trade_loop_iteration_pass_events STOCK_ID options :
  emitting (V:=V) (pass_event STOCK_ID options)
    (trade_loop_iteration clock STOCK_ID options).
Proof.
  unfold trade_loop_iteration.
  do 5 (apply emitting_bind; [emitting_auto | intros ?]).
  apply emitting_bind; [emitting_auto | intros [stock_value |]];
    [| emitting_auto].
  apply emitting_bind.
  - apply emitting_for_each_in. intros [option_id option] Hin.
    pose proof (on_chain_In _ _ _ Hin) as Hchain.
    do 5 (apply emitting_bind; [emitting_auto | intros ?]).
    apply emitting_bind; [| intros _; emitting_auto].
    now apply update_quotes_pass_events.
  - intros _.
    apply emitting_bind; [emitting_auto | intros _].
    apply emitting_bind; [apply hedge_gamma_position_pass_events | intros _].
    emitting_auto.
Qed.

(** In a pass through the loop body, immediate-or-cancel orders go to
    the underlying only, while limit orders, cancellations and trade
    polls concern instruments of the option chain only. *)
Theorem trade_loop_iteration_instruments STOCK_ID options (w : World) :
  exists new,
    trace (fst (trade_loop_iteration clock STOCK_ID options w)) = trace w ++ new
    /\ (forall i p v s, In (InsertOrder i p v s ioc) new -> i = STOCK_ID)
    /\ (forall i p v s, In (InsertOrder i p v s limit) new ->
          In i (map fst options))
    /\ (forall i o, In (DeleteOrder i o) new -> In i (map fst options))
    /\ (forall i, In (PollNewTrades i) new -> In i (map fst options)).
Proof.
  destruct (trade_loop_iteration_pass_events STOCK_ID options w)
    as (new & Htr & _ & Hall).
  exists new. split; [exact Htr |].
  rewrite Forall_forall in Hall.
  assert (Hin : forall e, In e new -> pass_event STOCK_ID options e = true).
  { intros e He. apply Hall. now apply list_elem_of_In. }
  repeat split.
  - intros i p v s Hi. apply Hin in Hi. simpl in Hi.
    destruct v; [| destruct s; discriminate Hi]. now apply String.eqb_eq.
  - intros i p v s Hi. apply Hin in Hi. simpl in Hi. apply on_chain_fst.
    destruct v as [z | q].
    + now destruct (on_chain options i).
    + destruct s; [discriminate Hi | exact Hi].
  - intros i o Hi. apply Hin in Hi. now apply on_chain_fst.
  - intros i Hi. apply Hin in Hi. now apply on_chain_fst.
Qed.

(** *** Quotes are on the tick grid *)

Lemma emits_bind Q {A B} (m : M A) (k : A -> M B) :
  emits (V:=V) Q m -> (forall a, emits Q (k a)) -> emits Q (bind m k).
Proof.
  intros Hm Hk w. unfold bind. destruct (Hm w) as (e1 & Ht1 & H1).
  destruct (m w) as [w' [e | a]]; simpl in *; [now exists e1 |].
  destruct (Hk a w') as (e2 & Ht2 & H2).
  exists (e1 ++ e2). split; [now rewrite Ht2, Ht1, app_assoc |].
  apply List.Forall_app. now split.
Qed.

Lemma emits_for_each Q {A} (l : list A) (body : A -> M unit) :
  (forall x, emits (V:=V) Q (body x)) -> emits Q (for_each l body).
Proof.
  intros Hb. induction l as [| x l IH]; simpl.
  - intros w. exists []. split; [now rewrite app_nil_r | constructor].
  - apply emits_bind; [apply Hb | intros _; exact IH].
Qed.

Lemma emits_of_emitting (P : Event -> bool) (Q : Event -> Prop) {A} (m : M A) :
  (forall e, P e = true -> Q e) -> emitting (V:=V) P m -> emits Q m.
Proof.
  intros HPQ Hm w. destruct (Hm w) as (evs & Ht & _ & Hall).
  exists evs. split; [exact Ht |].
  clear Ht. induction Hall as [| e evs He _ IH]; [constructor |].
  constructor; [apply HPQ; exact He | exact IH].
Qed.

Lemma not_whole_limit_order_on_grid tick e :
  not_whole_limit_order e = true -> quoted_on_grid tick e.
Proof. destruct e as [| | i p [z | q] s [|] | |]; simpl; easy. Qed.

Lemma not_order_on_grid tick e : not_order e = true -> quoted_on_grid tick e.
Proof. destruct e; simpl; easy. Qed.

Lemma update_quotes_on_grid option_id theo credit vol lim tick :
  emits (V:=V) (quoted_on_grid tick)
    (update_quotes option_id theo credit vol lim tick).
Proof.
  intros w.
  destruct (pull_quotes_no_orders option_id w) as (pulled & Htr & _ & Hall).
  assert (Hpulled : List.Forall (quoted_on_grid tick) pulled).
  { clear Htr. induction Hall as [| e evs He _ IH]; [constructor |].
    constructor; [apply not_order_on_grid; exact He | exact IH]. }
  destruct (Qeq_dec tick 0) as [Hzero | Htick].
  - rewrite (update_quotes_zero_tick _ _ _ _ _ _ _ Hzero). simpl.
    now exists pulled.
  - pose proof (round_down_to_tick_run (fsub theo credit) tick Htick) as Hbp.
    pose proof (round_up_to_tick_run (fadd theo credit) tick Htick) as Hap.
    destruct (update_quotes_trace option_id theo credit vol lim tick w _ _ Hbp Hap)
      as (pulled' & _ & Htrace).
    destruct (get_positions (venue (fst (pull_quotes option_id w))) !! option_id)
      as [pos |] eqn:Epos.
    + rewrite (update_quotes_run _ _ _ _ _ _ _ _ _ _ Hbp Hap Epos).
      eexists. split; [simpl; rewrite Htr, <- app_assoc; reflexivity |].
      apply List.Forall_app. split; [exact Hpulled |].
      apply List.Forall_forall. intros e He.
      destruct e as [| | i p [z | q] s [|] | |]; simpl; try easy.
      apply In_quote_events in He.
      destruct He as (_ & _ & [(_ & -> & _) | (_ & -> & _)]); eexists; reflexivity.
    + rewrite (update_quotes_no_position _ _ _ _ _ _ _ _ _ Hbp Hap Epos).
      now exists pulled.
Qed.

Lemma trade_loop_iteration_on_grid STOCK_ID options :
  emits (V:=V) (quoted_on_grid (literal (1 # 10)))
    (trade_loop_iteration clock STOCK_ID options).
Proof.
  pose proof (not_whole_limit_order_on_grid (literal (1 # 10))) as Hquiet.
  unfold trade_loop_iteration.
  do 5 (apply emits_bind;
        [apply (emits_of_emitting _ _ _ Hquiet); emitting_auto | intros ?]).
  apply emits_bind;
    [apply (emits_of_emitting _ _ _ Hquiet); emitting_auto
    | intros [stock_value |]];
    [| apply (emits_of_emitting _ _ _ Hquiet); emitting_auto].
  apply emits_bind.
  - apply emits_for_each. intros [option_id option].
    do 5 (apply emits_bind;
          [apply (emits_of_emitting _ _ _ Hquiet); emitting_auto | intros ?]).
    apply emits_bind; [apply update_quotes_on_grid | intros _].
    apply (emits_of_emitting _ _ _ Hquiet). emitting_auto.
  - intros _. apply (emits_of_emitting _ _ _ Hquiet). emitting_auto.
Qed.

(** In a pass through the loop body every limit order for a whole
    number of lots is for 1 to 5 lots at a price that is a whole number
    of ticks of 0.10, multiplied out as the machine does, and every
    order of fractional size is a limit ask. *)
Theorem trade_loop_iteration_quotes STOCK_ID options (w : World) :
  exists new,
    trace (fst (trade_loop_iteration clock STOCK_ID options w)) = trace w ++ new
    /\ (forall i p z s, In (InsertOrder i p (PyInt z) s limit) new ->
          1 <= z <= 5 /\ exists k, p = fmul (of_int k) (literal (1 # 10)))
    /\ (forall i p q s t, In (InsertOrder i p (PyFloat q) s t) new ->
          s = ask /\ t = limit).
Proof.
  destruct (trade_loop_iteration_pass_events STOCK_ID options w)
    as (new & Htr & _ & Hall).
  destruct (trade_loop_iteration_on_grid STOCK_ID options w)
    as (new' & Htr' & Hgrid).
  rewrite Htr in Htr'. apply app_inv_head in Htr'. subst new'.
  exists new. split; [exact Htr |].
  rewrite Forall_forall in Hall.
  assert (Hin : forall e, In e new -> pass_event STOCK_ID options e = true).
  { intros e He. apply Hall. now apply list_elem_of_In. }
  rewrite List.Forall_forall in Hgrid.
  split.
  - intros i p z s Hi. split.
    + apply Hin in Hi. simpl in Hi.
      apply andb_true_iff in Hi. destruct Hi as [Hi Hle].
      apply andb_true_iff in Hi. destruct Hi as [_ Hlt].
      apply Z.ltb_lt in Hlt. apply Z.leb_le in Hle. lia.
    + exact (Hgrid _ Hi).
  - intros i p q s t Hi. apply Hin in Hi. simpl in Hi.
    destruct s; destruct t; try discriminate Hi. now split.
Qed.


(** *** Loading the instruments *)

Section LoadingProperties.

Context `{!Listing V}.

Lemma getitem_In {A} (d : list (string * A)) k x :
  getitem d k = Some x -> In (k, x) d.
Proof.
  induction d as [| [k' y] d IH]; [discriminate |].
  simpl. destruct (String.eqb k k') eqn:E.
  - intros Hx. injection Hx as <-. apply String.eqb_eq in E. subst k'. now left.
  - intros Hx. right. now apply IH.
Qed.

Lemma getitem_None {A} (d : list (string * A)) k :
  getitem d k = None <-> ~ In k (map fst d).
Proof.
  induction d as [| [k' y] d IH]; [easy |].
  simpl. destruct (String.eqb k k') eqn:E.
  - apply String.eqb_eq in E. subst k'. split; [discriminate | intros Hn].
    exfalso. apply Hn. now left.
  - apply String.eqb_neq in E. rewrite IH. split.
    + intros Hn [Heq | Hin]; [now apply E | now apply Hn].
    + intros Hn Hin. apply Hn. now right.
Qed.

Lemma filter_sublist {A} (f : A -> bool) (l : list A) :
  sublist (List.filter f l) l.
Proof.
  induction l as [| x l IH]; simpl; [constructor |].
  destruct (f x); now constructor.
Qed.

(** Loading the instruments of an underlying changes nothing on the
    venue. It raises [KeyError] exactly when the underlying is not
    listed; otherwise it returns the listed underlying together with
    the stock options written on it, all of them and nothing else, in
    the order of the listing. *)
Theorem load_instruments_for_underlying_selects
    underlying_stock_id (w : World) :
  let all_instruments := get_instruments (venue w) in
  let loaded := load_instruments_for_underlying underlying_stock_id w in
  fst loaded = w
  /\ (snd loaded = inl (KeyError underlying_stock_id)
      <-> ~ In underlying_stock_id (map fst all_instruments))
  /\ (In underlying_stock_id (map fst all_instruments) ->
      exists stock options,
        snd loaded = inr (stock, options)
        /\ In (underlying_stock_id, stock) all_instruments
        /\ sublist options all_instruments
        /\ forall id instrument,
             In (id, instrument) options
             <-> In (id, instrument) all_instruments
                 /\ instrument_type instrument = STOCK_OPTION
                 /\ base_instrument_id instrument = Some underlying_stock_id).
Proof.
  intros all_instruments loaded. subst loaded.
  unfold load_instruments_for_underlying.
  erewrite bind_ok; [| reflexivity].
  fold all_instruments.
  destruct (getitem all_instruments underlying_stock_id) as [stock |] eqn:Eget.
  - erewrite bind_ok; [| reflexivity]. cbv zeta. simpl.
    split; [reflexivity |]. split.
    + split; [discriminate |]. intros Hn. apply getitem_None in Hn. congruence.
    + intros _. eexists _, _. split; [reflexivity |].
      split; [now apply getitem_In |].
      split; [apply filter_sublist |].
      intros id instrument. rewrite List.filter_In. simpl.
      unfold is_option_on.
      destruct (instrument_type instrument);
        [| split; [intros [_ Hf]; discriminate Hf
                  | intros (_ & Ht & _); discriminate Ht]].
      destruct (base_instrument_id instrument) as [base |].
      * rewrite String.eqb_eq. split.
        -- intros [Hin ->]. auto.
        -- intros (Hin & _ & Hb). injection Hb as ->. auto.
      * split; [intros [_ Hf]; discriminate Hf | intros (_ & _ & Hb); discriminate Hb].
  - erewrite bind_raise; [| reflexivity]. simpl.
    split; [reflexivity |]. split.
    + split; [intros _; now apply getitem_None | reflexivity].
    + intros Hin. apply getitem_None in Eget. contradiction.
Qed.

End LoadingProperties.


Lemma for_each_raises {A} (body : A -> M unit) (x : A) :
  (forall w : World, exists e, snd (body x w) = inl e) ->
  forall served rest (w : World),
    exists e, snd (for_each (served ++ x :: rest) body w) = inl e.
Proof.
  intros Hx served. induction served as [| y served IH]; intros rest w; simpl.
  - destruct (Hx w) as (e & He). exists e. now apply snd_bind_raise.
  - unfold bind. destruct (body y w) as [w' [e | []]]; [now exists e |].
    apply IH.
Qed.

(** An option whose kind is neither CALL nor PUT aborts the pass in
    which it is met: with a midpoint available, the pass raises while
    requoting (at that option's valuation, if not before), the hedging
    phase is never entered and no immediate-or-cancel order is sent;
    the options listed before it may have been requoted. *)
Theorem trade_loop_iteration_bad_kind STOCK_ID served id o r rest
    (w : World) b bs a as' :
  get_last_price_book (venue w) STOCK_ID
  = Some {| bids := b :: bs; asks := a :: as' |} ->
  option_kind o = OtherValue r ->
  exists e new,
    snd (trade_loop_iteration clock STOCK_ID (served ++ (id, o) :: rest) w)
    = inl e
    /\ trace (fst (trade_loop_iteration clock STOCK_ID
                     (served ++ (id, o) :: rest) w))
       = trace w ++ new
    /\ Forall (fun e => before_hedging e = true) new.
Proof.
  intros Hbook Hkind.
  set (options := served ++ (id, o) :: rest).
  unfold trade_loop_iteration.
  run (emit_run (Print MsgBlank) w).
  erewrite bind_ok; [| apply print_advance].
  erewrite bind_ok; [| apply now_run].
  rewrite advance_advance.
  do 2 (erewrite bind_ok; [| apply print_advance]).
  erewrite bind_ok;
    [| eapply (get_midpoint_value_some _ w); [exact Hbook | reflexivity]].
  cbv beta iota.
  match goal with
  | |- context [bind (for_each options ?body) ?k] =>
      assert (Hquiet : emitting (V:=V) before_hedging (for_each options body))
        by emitting_auto;
      assert (Hraise : forall w0 : World,
                exists e, snd (for_each options body w0) = inl e);
      [ intros w0; apply for_each_raises; intros w1;
        exists (UnboundLocalError "option_value");
        cbv beta iota;
        erewrite bind_ok; [| apply emit_run];
        apply snd_bind_raise;
        unfold calculate_theoretical_option_value;
        erewrite bind_ok; [| apply calculate_current_time_to_date_run];
        rewrite Hkind; reflexivity
      | set (loop := for_each options body) in *; set (after := k) ]
  end.
  match goal with
  | |- context [bind loop after ?w0] =>
      destruct (Hraise w0) as (e & He);
      destruct (Hquiet w0) as (quoted & Htr & _ & Hall);
      exists e; eexists; split; [now apply snd_bind_raise |];
      unfold bind; destruct (loop w0) as [w' [e' | []]] eqn:Eloop;
        [| discriminate He]
  end.
  simpl in Htr |- *. rewrite Htr. split.
  - rewrite <- app_assoc. reflexivity.
  - apply Forall_app. split; [| exact Hall].
    repeat (constructor; [reflexivity |]). constructor.
Qed.

Lemma int_of_nonneg q : (0 <= q)%Q -> 0 <= int_of q.
Proof.
  unfold Qle, int_of. simpl. intros Hq.
  apply Z.quot_pos; lia.
Qed.

Lemma int_of_nonpos q : (q <= 0)%Q -> int_of q <= 0.
Proof.
  unfold Qle, int_of. simpl. intros Hq.
  assert (Hopp : 0 <= Z.quot (- Qnum q) (Zpos (Qden q)))
    by (apply Z.quot_pos; lia).
  rewrite Z.quot_opp_l in Hopp by lia. lia.
Qed.

(** The order of the delta hedge carries [-1 * int(H)] or zero: its
    volume is never positive for a positive hedge size [H] (stock
    position and delta of the last option of opposite signs) and never
    negative for a negative one, on the buy side as on the sell side. *)
Theorem hedge_delta_position_volume_sign stock_id options S0 (w : World)
    p agg id o d b bs a as' :
  get_positions (venue w) !! stock_id = Some p ->
  exposure (BS_delta_at clock S0) (get_positions (venue w)) (clock_reads w)
    (inject_Z p) options = Some agg ->
  last options = Some (id, o) ->
  BS_delta_at clock S0 (length options + clock_reads w) o = Some d ->
  get_last_price_book (venue w) stock_id
    = Some {| bids := b :: bs; asks := a :: as' |} ->
  ~ (agg == 0)%Q ->
  exists new px v s,
    hedge_delta_position clock stock_id options S0 w
    = (advance w new (length options + 1), inr tt)
    /\ orders_in new = [InsertOrder stock_id px (PyInt v) s ioc]
    /\ ((0 <= hedge_size p d)%Q -> v <= 0)
    /\ ((hedge_size p d <= 0)%Q -> 0 <= v).
Proof.
  intros Hp Hexp Hlast Hd Hbook Hagg.
  destruct (hedge_delta_position_run _ _ _ _ _ _ _ _ _ _ _ _ _
              Hp Hexp Hlast Hd Hbook) as (pre & Hpre & Hrun).
  assert (Hsign : forall c : bool,
            let v := -1 * int_of (if c then hedge_size p d else 0%Q) in
            ((0 <= hedge_size p d)%Q -> v <= 0)
            /\ ((hedge_size p d <= 0)%Q -> 0 <= v)).
  { intros [|]; simpl.
    - split; intros Hh.
      + pose proof (int_of_nonneg _ Hh). lia.
      + pose proof (int_of_nonpos _ Hh). lia.
    - change (int_of 0) with 0. split; intros _; lia. }
  pose proof (hedge_events_orders stock_id p agg (hedge_size p d)
                (price b) (price a)) as Hord.
  assert (Hall : forall evs, orders_in (pre ++ evs) = orders_in evs)
    by (intros evs; now rewrite orders_in_app, (orders_in_prints pre Hpre)).
  destruct (Qlt_bool agg 0) eqn:Eneg; [| destruct (Qlt_bool 0 agg) eqn:Epos].
  - eexists _, _, _, _. split; [exact Hrun |].
    rewrite Hall, Hord. split; [reflexivity | apply Hsign].
  - eexists _, _, _, _. split; [exact Hrun |].
    rewrite Hall, Hord. split; [reflexivity | apply Hsign].
  - exfalso. apply Hagg. unfold Qlt_bool in Eneg, Epos.
    apply negb_false_iff in Eneg, Epos.
    apply Qle_bool_iff in Eneg, Epos. lra.
Qed.

End Properties.

(** ** The theorems at work on the paper venue *)

Section Runs.

Import Paper.
#[local] Existing Instance flat.
#[local] Existing Instance exact_arithmetic.
#[local] Existing Instance exact_arithmetic_laws.

Lemma update_quotes_volume_clipping_run :
  exists new bid_price ask_price,
    snd (update_quotes "NVDA_C100" (5237 # 100) (12 # 10) 5 100 (1 # 10)
           near_limit_world) = inr tt
    /\ trace (fst (update_quotes "NVDA_C100" (5237 # 100) (12 # 10) 5 100
                     (1 # 10) near_limit_world))
       = trace near_limit_world ++ new
    /\ orders_in new
       = [InsertOrder "NVDA_C100" bid_price (PyInt 2) bid limit;
          InsertOrder "NVDA_C100" ask_price (PyInt 5) ask limit]
    /\ (0 < 2 -> 0 <= 2 <= 5 /\ 98 + 2 <= 100)
    /\ (0 < 5 -> 0 <= 5 <= 5 /\ 98 - 5 >= - 100).
Proof.
  apply (update_quotes_volume_clipping "NVDA_C100" (5237 # 100) (12 # 10)
           5 100 (1 # 10) near_limit_world 98).
  - intros E. vm_compute in E. discriminate E.
  - vm_compute. reflexivity.
Defined.


Lemma hedge_delta_position_empty_chain_run :
  exists new,
    hedge_delta_position clock "NVDA" [] 100 near_limit_world
    = (advance near_limit_world new 0, inl (UnboundLocalError "option"))
    /\ orders_in new = []
    /\ venue (advance near_limit_world new 0) = venue near_limit_world.
Proof.
  apply (hedge_delta_position_empty_chain clock "NVDA" 100 near_limit_world 7).
  vm_compute. reflexivity.
Defined.


Lemma hedge_gamma_position_stages_run :
  exists written sells,
    Forall (fun e => is_print e = true) written
    /\ hedge_gamma_position clock "NVDA" chain 100 short_world
       = hedge_delta_position clock "NVDA" chain 100
           (advance (fst (hedge_delta_position clock "NVDA" chain 100 short_world))
              (written ++ sells) 4)
    /\ orders_in (written ++ sells) = sells
    /\ sells = [InsertOrder "NVDA_C100" 101
                  (PyFloat ((-119250 # 2500) / (1 # 50))) ask limit;
                InsertOrder "NVDA_P90" 101
                  (PyFloat ((-119250 # 2500) / (1 # 50))) ask limit].
Proof.
  destruct (@hedge_gamma_position_stages exact_arithmetic state paper_venue flat clock
              "NVDA" chain 100 short_world
              (fst (hedge_delta_position clock "NVDA" chain 100 short_world))
              (-48) 10 (-119250 # 2500)
              [InsertOrder "NVDA_C100" 101
                 (PyFloat ((-119250 # 2500) / (1 # 50))) ask limit;
               InsertOrder "NVDA_P90" 101
                 (PyFloat ((-119250 # 2500) / (1 # 50))) ask limit])
    as (written & Hwritten & Hrun & Hsent & _);
    [vm_compute; reflexivity .. |].
  eexists written, _. split; [exact Hwritten |].
  split; [exact Hrun |]. split; [exact Hsent | reflexivity].
Defined.



Lemma midpoint_or_skip_run :
  get_midpoint_value "NVDA" no_bids_world = (no_bids_world, inr None)
  /\ trade_loop clock 3 "NVDA" chain no_bids_world
     = trade_loop clock 2 "NVDA" chain
         (advance no_bids_world
            [Print MsgBlank; Print MsgRule;
             Print (MsgIterationEntered (clock 0));
             Print MsgRule; Print MsgEmptyBook; Sleep 4] 1).
Proof.
  destruct (@midpoint_or_skip exact_arithmetic state paper_venue flat clock no_bids_world "NVDA")
    as [_ Hskip].
  destruct Hskip as [Hnone Hloop].
  - right. exists {| bids := []; asks := [level 101 10] |}.
    split; [vm_compute; reflexivity | left; reflexivity].
  - split; [exact Hnone |].
    destruct (Hloop chain) as (_ & _ & _ & Hnext). exact (Hnext 2%nat).
Defined.


(** *** The further properties at work *)

Lemma get_midpoint_value_between_run :
  exists mid,
    get_midpoint_value "NVDA" short_world = (short_world, inr (Some mid))
    /\ (99 <= mid)%Q /\ (mid <= 101)%Q.
Proof.
  apply (get_midpoint_value_between "NVDA" short_world
           (level 99 10) [level 98 20] (level 101 10) []).
  - vm_compute. reflexivity.
  - intros E. vm_compute in E. discriminate E.
Defined.

Lemma update_quotes_cancels_every_order_run :
  exists pulled rest,
    trace (fst (update_quotes "NVDA_C100" (5237 # 100) (12 # 10) 5 100
                  (1 # 10) quoted_world))
    = trace quoted_world ++ pulled ++ rest
    /\ List.filter is_cancel pulled
       = [DeleteOrder "NVDA_C100" 1; DeleteOrder "NVDA_C100" 2]
    /\ orders_in pulled = []
    /\ List.filter is_cancel rest = [].
Proof.
  destruct (update_quotes_cancels_every_order "NVDA_C100" (5237 # 100)
              (12 # 10) 5 100 (1 # 10) quoted_world)
    as (pulled & rest & Htrace & _ & Hcancels & Hnone & Hrest).
  exists pulled, rest. split; [exact Htrace |].
  split; [| split; [exact Hnone | exact Hrest]].
  rewrite Hcancels. vm_compute. reflexivity.
Defined.

Lemma update_quotes_zero_tick_pulls_only_run :
  exists pulled,
    update_quotes "NVDA_C100" (5237 # 100) (12 # 10) 5 100 0 quoted_world
    = (advance quoted_world pulled 0, inl ZeroDivisionError)
    /\ orders_in pulled = [].
Proof.
  destruct (update_quotes_zero_tick_pulls_only "NVDA_C100" (5237 # 100)
              (12 # 10) 5 100 0 quoted_world)
    as (pulled & Hrun & _ & Hnone); [reflexivity |].
  exists pulled. split; [exact Hrun | exact Hnone].
Defined.

Lemma update_quotes_missing_position_run :
  exists pulled,
    update_quotes "NVDA_C100" (5237 # 100) (12 # 10) 5 100 (1 # 10)
      unquoted_world
    = (advance unquoted_world pulled 0, inl (KeyError "NVDA_C100"))
    /\ orders_in pulled = [].
Proof.
  destruct (update_quotes_missing_position "NVDA_C100" (5237 # 100)
              (12 # 10) 5 100 (1 # 10) unquoted_world)
    as (pulled & Hrun & _ & Hnone).
  - intros E. vm_compute in E. discriminate E.
  - vm_compute. reflexivity.
  - exists pulled. split; [exact Hrun | exact Hnone].
Defined.

Lemma update_quotes_respects_limit_run :
  (length (orders_in (trace (fst (update_quotes "NVDA_C100" (5237 # 100)
                                    (12 # 10) 5 100 (1 # 10) at_limit_world))))
   <= 2)%nat
  /\ ~ In (InsertOrder "NVDA_C100" (511 # 10) (PyInt 5) bid limit)
         (trace (fst (update_quotes "NVDA_C100" (5237 # 100) (12 # 10) 5 100
                        (1 # 10) at_limit_world))).
Proof.
  destruct (update_quotes_respects_limit "NVDA_C100" (5237 # 100) (12 # 10)
              5 100 (1 # 10) at_limit_world 100)
    with (new := trace (fst (update_quotes "NVDA_C100" (5237 # 100) (12 # 10)
                               5 100 (1 # 10) at_limit_world)))
    as (Hcount & _ & Hbid & _).
  - vm_compute. reflexivity.
  - reflexivity.
  - split; [exact Hcount |]. apply Hbid. lia.
Defined.

Lemma hedge_delta_position_chain_fault_run :
  exists e new,
    snd (hedge_delta_position clock "NVDA" odd_chain 100 odd_world) = inl e
    /\ chain_fault (get_positions (venue odd_world)) e
    /\ trace (fst (hedge_delta_position clock "NVDA" odd_chain 100 odd_world))
       = trace odd_world ++ new
    /\ orders_in new = [].
Proof.
  apply (@hedge_delta_position_chain_fault exact_arithmetic state paper_venue flat clock
           "NVDA" odd_chain 100 odd_world (-60)).
  - vm_compute. reflexivity.
  - vm_compute. reflexivity.
Defined.

Lemma hedge_delta_position_needs_two_sided_book_run :
  exists written,
    hedge_delta_position clock "NVDA" chain 100 short_no_bids_world
    = (advance short_no_bids_world written 3, inl IndexError)
    /\ Forall (fun e => is_print e = true) written.
Proof.
  destruct (@hedge_delta_position_needs_two_sided_book exact_arithmetic state paper_venue flat
              clock "NVDA" chain 100 short_no_bids_world
              (-60) (-1325 # 25) "NVDA_P90" put_option (-1 # 5))
    as (written & Hwritten & _ & Hside); [vm_compute; reflexivity .. |].
  exists written. split; [| exact Hwritten].
  apply (Hside {| bids := []; asks := [level 101 10] |}).
  - vm_compute. reflexivity.
  - left. reflexivity.
Defined.

Lemma hedge_gamma_position_zero_gamma_run :
  exists written,
    hedge_gamma_position (H:=kinked) clock "NVDA" chain 100 short_world
    = (advance
         (fst (hedge_delta_position (H:=kinked) clock "NVDA" chain 100
                 short_world))
         (written ++ [InsertOrder "NVDA_C100" 101
                        (PyFloat ((-2390 # 50) / (1 # 50))) ask limit]) 4,
       inl ZeroDivisionError).
Proof.
  destruct (@hedge_gamma_position_zero_gamma exact_arithmetic state paper_venue kinked clock
              "NVDA" [("NVDA_C100", call_option)] "NVDA_P90" put_option []
              100 short_world
              (fst (hedge_delta_position (H:=kinked) clock "NVDA" chain 100
                      short_world))
              (-48) 10 (-2390 # 50)
              [InsertOrder "NVDA_C100" 101
                 (PyFloat ((-2390 # 50) / (1 # 50))) ask limit])
    as (written & _ & Hrun & _); [vm_compute; reflexivity .. |].
  exists written. exact Hrun.
Defined.

Lemma hedge_vega_position_outcome_run :
  snd (hedge_vega_position clock "NVDA" odd_chain 100 odd_world)
  = inl (UnexpectedOptionKind (OtherValue "None")).
Proof.
  apply (@hedge_vega_position_outcome exact_arithmetic state paper_venue flat clock
           "NVDA" odd_chain 100 odd_world (-60) 10 (-908 # 16)
           "NVDA_X95" kindless); vm_compute; reflexivity.
Defined.

Lemma trade_loop_idles_run :
  trade_loop clock 3 "NVDA" chain no_bids_world
  = (advance no_bids_world (idle_passes clock 3 0) 3, inr tt)
  /\ Forall (fun e => is_silent e = true) (idle_passes clock 3 0)
  /\ venue (advance no_bids_world (idle_passes clock 3 0) 3)
     = venue no_bids_world.
Proof.
  apply (@trade_loop_idles exact_arithmetic state paper_venue flat clock 3 "NVDA" chain
           no_bids_world).
  right. exists {| bids := []; asks := [level 101 10] |}.
  split; [vm_compute; reflexivity | left; reflexivity].
Defined.

Lemma trade_loop_empty_chain_run :
  snd (trade_loop clock 5 "NVDA" [] near_limit_world)
  = inl (UnboundLocalError "option").
Proof.
  destruct (@trade_loop_empty_chain exact_arithmetic state paper_venue flat clock 4 "NVDA"
              near_limit_world 7 (level 99 10) [level 98 20] (level 101 10) [])
    as [Hrun _]; [vm_compute; reflexivity .. |].
  now rewrite Hrun.
Defined.

Lemma trade_loop_iteration_instruments_run :
  exists new,
    trace (fst (trade_loop_iteration clock "NVDA" chain short_world))
    = trace short_world ++ new
    /\ (forall i p v s, In (InsertOrder i p v s ioc) new -> i = "NVDA")
    /\ (forall i p v s, In (InsertOrder i p v s limit) new ->
          In i ["NVDA_C100"; "NVDA_P90"])
    /\ (forall i o, In (DeleteOrder i o) new -> In i ["NVDA_C100"; "NVDA_P90"])
    /\ (forall i, In (PollNewTrades i) new -> In i ["NVDA_C100"; "NVDA_P90"]).
Proof.
  exact (@trade_loop_iteration_instruments exact_arithmetic state paper_venue flat clock
           "NVDA" chain short_world).
Defined.

Lemma trade_loop_iteration_quotes_run :
  exists new,
    trace (fst (trade_loop_iteration clock "NVDA" chain short_world))
    = trace short_world ++ new
    /\ (forall i p z s, In (InsertOrder i p (PyInt z) s limit) new ->
          1 <= z <= 5 /\ exists k, p = fmul (of_int k) (literal (1 # 10)))
    /\ (forall i p q s t, In (InsertOrder i p (PyFloat q) s t) new ->
          s = ask /\ t = limit).
Proof.
  exact (@trade_loop_iteration_quotes exact_arithmetic state paper_venue flat clock
           "NVDA" chain short_world).
Defined.

Lemma load_instruments_for_underlying_selects_run :
  fst (load_instruments_for_underlying "NVDA" short_world) = short_world
  /\ exists stock options,
       snd (load_instruments_for_underlying "NVDA" short_world)
       = inr (stock, options)
       /\ map fst options = ["NVDA_C100"; "NVDA_P90"].
Proof.
  destruct (@load_instruments_for_underlying_selects state paper_listing
              "NVDA" short_world) as (Hworld & _ & Hload).
  split; [exact Hworld |].
  destruct Hload as (stock & options & Hrun & _); [vm_compute; auto |].
  exists stock, options. split; [exact Hrun |].
  vm_compute in Hrun. injection Hrun as _ <-. reflexivity.
Defined.


Lemma trade_loop_iteration_bad_kind_run :
  exists e new,
    snd (trade_loop_iteration clock "NVDA" odd_chain odd_world) = inl e
    /\ trace (fst (trade_loop_iteration clock "NVDA" odd_chain odd_world))
       = trace odd_world ++ new
    /\ Forall (fun e => before_hedging e = true) new.
Proof.
  destruct (@trade_loop_iteration_bad_kind exact_arithmetic state paper_venue flat clock "NVDA"
              [("NVDA_C100", call_option)] "NVDA_X95" kindless "None" []
              odd_world (level 99 10) [level 98 20] (level 101 10) [])
    as (e & new & Hraise & Htrace & Hquiet); [vm_compute; reflexivity .. |].
  exists e, new. split; [exact Hraise |]. split; [exact Htrace | exact Hquiet].
Defined.


End Runs.

(** ** Runs in machine arithmetic *)

Section MachineRuns.

Import Paper.
#[local] Existing Instance binary64.
#[local] Existing Instance binary64_laws.

(** The scenario of the specification: theoretical price 52.37, credit
    1.20, tick 0.10, with 98 lots held. *)
Lemma tick_rounding_brackets_run :
  exists bid_price ask_price new,
    round_down_to_tick (fsub (double (5237 # 100)) (double (12 # 10)))
      (double (1 # 10)) = inr bid_price
    /\ round_up_to_tick (fadd (double (5237 # 100)) (double (12 # 10)))
         (double (1 # 10)) = inr ask_price
    /\ trace (fst (update_quotes "NVDA_C100" (double (5237 # 100))
                     (double (12 # 10)) 5 100 (double (1 # 10))
                     near_limit_world))
       = trace near_limit_world ++ new
    /\ orders_in new
       = [InsertOrder "NVDA_C100" bid_price (PyInt 2) bid limit;
          InsertOrder "NVDA_C100" ask_price (PyInt 5) ask limit]
    /\ (bid_price <= ask_price)%Q
    /\ (bid_price == double (511 # 10))%Q
    /\ (ask_price == double (536 # 10))%Q.
Proof.
  destruct (tick_rounding_brackets (V:=state)
              (double (5117 # 100)) (double (1 # 10)))
    as [_ Hquotes]; [vm_compute; reflexivity |].
  destruct (Hquotes "NVDA_C100" (double (5237 # 100)) (double (12 # 10))
              5 100 near_limit_world 98)
    as (bp & ap & new & Hbp & Hap & _ & Htr & Hord & _ & _ & Hle);
    [vm_compute; reflexivity |].
  exists bp, ap, new.
  split; [exact Hbp |]. split; [exact Hap |]. split; [exact Htr |].
  split; [exact Hord |].
  split; [apply Hle; vm_compute; intros Hc; discriminate Hc |].
  vm_compute in Hbp, Hap. injection Hbp as <-. injection Hap as <-.
  split; vm_compute; reflexivity.
Defined.

(** The inputs that refute C2 as the specification words it. The
    doubles 1.7 and 0.1 have the quotient 17.0, so the price is rounded
    "down" to [17 * 0.1 = 1.7000000000000002], above the price; and a
    theoretical price of 2.0 with a credit of 0.3 is quoted with a bid
    above 2.0 - 0.3. *)
Lemma round_down_to_tick_exceeds_price :
  (exists down,
      round_down_to_tick (double (17 # 10)) (double (1 # 10)) = inr down
      /\ (double (17 # 10) < down)%Q)
  /\ (exists bid_price ask_price,
        orders_in (trace (fst (update_quotes "NVDA_C100" (double 2)
                                 (double (3 # 10)) 5 100 (double (1 # 10))
                                 near_limit_world)))
        = [InsertOrder "NVDA_C100" bid_price (PyInt 2) bid limit;
           InsertOrder "NVDA_C100" ask_price (PyInt 5) ask limit]
        /\ (double 2 - double (3 # 10) < bid_price)%Q).
Proof.
  split.
  - eexists. split; vm_compute; reflexivity.
  - eexists _, _. split; vm_compute; reflexivity.
Qed.

(** 18 shares, 18 puts of delta -0.6 and 18 calls sold of delta 0.4:
    the machine sums the exposures to 8.9e-16, not to zero, and the
    hedge sells 7 lots at the best bid. *)
Lemma hedge_delta_position_direction_run :
  exists new,
    hedge_delta_position (H:=skewed) clock "NVDA" put_first 100 balanced_world
    = (advance balanced_world new 3, inr tt)
    /\ orders_in new = [InsertOrder "NVDA" 99 (PyInt 7) ask ioc].
Proof.
  destruct (@hedge_delta_position_direction binary64 state paper_venue skewed
              clock "NVDA" put_first 100 balanced_world 18
              (fadd (fadd 18 (fmul (- double (3 # 5)) (of_int 18)))
                 (fmul (double (2 # 5)) (of_int (-18))))
              "NVDA_C100" call_option (double (2 # 5))
              (level 99 10) [level 98 20] (level 101 10) [])
    as (new & Hrun & _ & Hsell & _); [vm_compute; reflexivity .. |].
  destruct Hsell as (v & Hsent & Hv & _); [vm_compute; reflexivity |].
  exists new. split; [exact Hrun |].
  rewrite Hsent, Hv; [| vm_compute; reflexivity].
  vm_compute. reflexivity.
Defined.

(** C4, where the code fails it. Short 60 shares with a last delta of
    0.8 and a negative aggregate, the hedge size is [H = 48]: the
    position the purchase would lead to, [|position(stock) - H| = 108],
    is beyond the limit of 100, so the claim has the volume forced to
    zero; the code tests [|position(stock)| - H = 12] instead, finds it
    within bounds and submits its bid with a volume of -48. *)
Theorem hedge_delta_position_buy_bound_breached :
  let H0 := hedge_size (-60) (double (4 # 5)) in
  get_positions (venue short_call_world) !! "NVDA" = Some (-60)
  /\ BS_delta_at (H:=steep) clock 100 1 call_option = Some (double (4 # 5))
  /\ (H0 == 48)%Q
  /\ ~ (1 <= Qabs (inject_Z (-60) - H0) /\ Qabs (inject_Z (-60) - H0) <= 100)%Q
  /\ buy_clamp (-60) H0 = true
  /\ orders_in (trace (fst (hedge_delta_position (H:=steep) clock "NVDA"
                             [("NVDA_C100", call_option)] 100
                             short_call_world)))
     = [InsertOrder "NVDA" 101 (PyInt (-48)) bid ioc].
Proof.
  split; [vm_compute; reflexivity |].
  split; [vm_compute; reflexivity |].
  split; [vm_compute; reflexivity |].
  split; [intros [_ Hle]; vm_compute in Hle; exact (Hle eq_refl) |].
  split; vm_compute; reflexivity.
Qed.

(** C5, where the code fails it. With the underlying at 100 and the last
    option quoted at 10, the gamma of every option is evaluated at 10,
    the module-level [theoretical_value], and not at the stock value
    handed to the function: the aggregate and the volumes of the sells
    are those of gamma at 10 and differ from those of gamma at 100. *)
Theorem hedge_gamma_position_gamma_off_the_stock_value :
  let w1 := fst (hedge_delta_position (H:=steep) clock "NVDA" chain 100
                   short_world) in
  exists p G G' first last,
    get_positions (venue w1) !! "NVDA" = Some p
    /\ theoretical_value w1 = Some 10%Q
    /\ exposure (BS_gamma_at (H:=steep) clock 10) (get_positions (venue w1))
         (clock_reads w1) (inject_Z p) chain = Some G
    /\ exposure (BS_gamma_at (H:=steep) clock 100) (get_positions (venue w1))
         (clock_reads w1) (inject_Z p) chain = Some G'
    /\ orders_in (trace (fst (hedge_gamma_position (H:=steep) clock "NVDA"
                               chain 100 short_world)))
       = [first;
          InsertOrder "NVDA_C100" 101
            (PyFloat (fdiv G (gamma (BlackScholes:=steep) 10 100
                                (time_to_expiry_at clock 5 call_option)
                                interest_rate volatility)))
            ask limit;
          InsertOrder "NVDA_P90" 101
            (PyFloat (fdiv G (gamma (BlackScholes:=steep) 10 90
                                (time_to_expiry_at clock 6 put_option)
                                interest_rate volatility)))
            ask limit;
          last]
    /\ ~ (fdiv G (gamma (BlackScholes:=steep) 10 100
                    (time_to_expiry_at clock 5 call_option)
                    interest_rate volatility)
          == fdiv G' (gamma (BlackScholes:=steep) 100 100
                        (time_to_expiry_at clock 5 call_option)
                        interest_rate volatility))%Q.
Proof.
  eexists _, _, _, _, _.
  split; [vm_compute; reflexivity |].
  split; [vm_compute; reflexivity |].
  split; [vm_compute; reflexivity |].
  split; [vm_compute; reflexivity |].
  split; [vm_compute; reflexivity |].
  vm_compute. intros Hc. discriminate Hc.
Qed.

(** *** The further properties at work *)

Lemma tick_rounding_fixes_grid_run :
  round_down_to_tick (double (1 # 2)) (double (1 # 10))
  = inr (fmul (of_int 5) (double (1 # 10)))
  /\ round_up_to_tick (double (1 # 2)) (double (1 # 10))
     = inr (fmul (of_int 5) (double (1 # 10))).
Proof.
  apply (tick_rounding_fixes_grid 5 (double (1 # 2)) (double (1 # 10))).
  - intros E. vm_compute in E. discriminate E.
  - vm_compute. reflexivity.
Defined.

Lemma tick_rounding_gap_run :
  exists n,
    round_down_to_tick (double (5117 # 100)) (double (1 # 10))
    = inr (fmul (of_int n) (double (1 # 10)))
    /\ (round_up_to_tick (double (5117 # 100)) (double (1 # 10))
        = inr (fmul (of_int n) (double (1 # 10)))
        \/ round_up_to_tick (double (5117 # 100)) (double (1 # 10))
           = inr (fmul (of_int (n + 1)) (double (1 # 10)))).
Proof.
  apply (tick_rounding_gap (double (5117 # 100)) (double (1 # 10))).
  intros E. vm_compute in E. discriminate E.
Defined.

Lemma tick_rounding_monotone_run :
  exists dx dy ux uy,
    round_down_to_tick (double (5117 # 100)) (double (1 # 10)) = inr dx
    /\ round_down_to_tick (double (5357 # 100)) (double (1 # 10)) = inr dy
    /\ round_up_to_tick (double (5117 # 100)) (double (1 # 10)) = inr ux
    /\ round_up_to_tick (double (5357 # 100)) (double (1 # 10)) = inr uy
    /\ (dx <= dy)%Q /\ (ux <= uy)%Q.
Proof.
  apply (tick_rounding_monotone (double (5117 # 100)) (double (5357 # 100))
           (double (1 # 10))).
  - vm_compute. reflexivity.
  - vm_compute. intros E. discriminate E.
Defined.

Lemma hedge_delta_position_flat_stock_run :
  exists new,
    hedge_delta_position (H:=steep) clock "NVDA" chain 100 flat_stock_world
    = (advance flat_stock_world new 3, inr tt)
    /\ orders_in new = [InsertOrder "NVDA" 99 (PyInt 0) ask ioc].
Proof.
  destruct (@hedge_delta_position_flat_stock binary64 binary64_laws state
              paper_venue steep clock
              "NVDA" chain 100 flat_stock_world
              (fadd (fadd 0 (fmul (double (4 # 5)) (of_int 10)))
                 (fmul (- double (1 # 5)) (of_int 5)))
              "NVDA_P90" put_option (- double (1 # 5))
              (level 99 10) [level 98 20] (level 101 10) [])
    as (new & Hrun & _ & Hsell); [vm_compute; reflexivity .. |].
  exists new. split; [exact Hrun |]. apply Hsell. vm_compute. reflexivity.
Defined.

Lemma hedge_delta_position_volume_sign_run :
  exists new px v s,
    hedge_delta_position (H:=steep) clock "NVDA" chain 100 short_world
    = (advance short_world new 3, inr tt)
    /\ orders_in new = [InsertOrder "NVDA" px (PyInt v) s ioc]
    /\ 0 <= v.
Proof.
  destruct (@hedge_delta_position_volume_sign binary64 state paper_venue steep
              clock "NVDA" chain 100 short_world (-60)
              (fadd (fadd (-60) (fmul (double (4 # 5)) (of_int 10)))
                 (fmul (- double (1 # 5)) (of_int 5)))
              "NVDA_P90" put_option (- double (1 # 5))
              (level 99 10) [level 98 20] (level 101 10) [])
    as (new & px & v & s & Hrun & Hsent & _ & Hneg);
    [vm_compute; reflexivity ..
    | intros E; vm_compute in E; discriminate E |].
  exists new, px, v, s. split; [exact Hrun |]. split; [exact Hsent |].
  apply Hneg. vm_compute. intros Hc. discriminate Hc.
Defined.

End MachineRuns.
